(** * CRT standby animation generator: the effects pipeline of
      [crt_generator.py], embedded and verified.

    The generator draws a two line text over a glowing background and
    sends every frame through a chain of image transforms.  Frames are
    grids of 8 bit RGB pixels; the transforms compute on IEEE floats
    (numpy [float32] and [float64]) and draw from the process wide random
    generators.  The embedding keeps all three: pixels are integers,
    floats are the rationals they denote with every operation rounded to
    nearest-even, and randomness is a tape of draws threaded through the
    stages together with the exception a stage may raise. *)

From Stdlib Require Import ZArith QArith Qround Qabs Qpower Qminmax.
From Stdlib Require Import List Lia Lqa Bool Morphisms.
From Stdlib Require String.
Import String.StringSyntax.
Delimit Scope string_scope with string.
Import ListNotations.

Local Open Scope Z_scope.

(* ================================================================== *)
(** * Binary floating point, as rounding on the rationals *)
(* ================================================================== *)

Module IEEE.

Local Open Scope Q_scope.

Definition pow2 (e : Z) : Q := 2 ^ e.

(** [ilog2 q] is the binade of a positive [q]: the [e] with
    [2^e <= q < 2^(e+1)]. *)
Definition ilog2 (q : Q) : Z :=
  let e := (Z.log2 (Qnum q) - Z.log2 (Zpos (Qden q)))%Z in
  if Qle_bool (pow2 e) q then e else (e - 1)%Z.

(** Round to the nearest integer, ties to even. *)
Definition rne (q : Q) : Z :=
  let f := Qfloor q in
  match Qcompare (q - inject_Z f) (1 # 2) with
  | Lt => f
  | Gt => (f + 1)%Z
  | Eq => if Z.even f then f else (f + 1)%Z
  end.

(** The exponent of the unit in the last place for a positive [q], in a
    format with [prec] bits of precision whose smallest subnormal is
    [2^emin]. *)
Definition ulp_exp (prec emin : Z) (q : Q) : Z :=
  Z.max (ilog2 q - prec + 1) emin.

Definition round_pos (prec emin : Z) (q : Q) : Q :=
  let ex := ulp_exp prec emin q in
  inject_Z (rne (q / pow2 ex)) * pow2 ex.

(** Round to nearest, ties to even.  Overflow to infinity is left out:
    the pipeline keeps its values far below the largest float. *)
Definition round (prec emin : Z) (q : Q) : Q :=
  match Qcompare q 0 with
  | Eq => 0
  | Gt => Qred (round_pos prec emin q)
  | Lt => Qred (- round_pos prec emin (- q))
  end.

(** numpy's [float32] and Python's [float] ([float64]). *)
Definition B32 : Q -> Q := round 24 (-149).
Definition B64 : Q -> Q := round 53 (-1074).

(** [np.sqrt] on [float64]: the correctly rounded square root.  The
    exponent is half the binade of the argument, the mantissa the
    integer square root of the scaled argument, rounded up when the
    exact root lies above the midpoint (a tie goes to even). *)
Definition sqrt_exp (prec emin : Z) (q : Q) : Z :=
  Z.max (ilog2 q / 2 - prec + 1) emin.

Definition sqrt_scaled (prec emin : Z) (q : Q) : Q :=
  q / pow2 (2 * sqrt_exp prec emin q).

Definition sqrt_mant (s : Q) : Z :=
  let m := Z.sqrt (Qfloor s) in
  let mid := inject_Z (2 * m + 1) / 2 in
  match Qcompare s (mid * mid) with
  | Lt => m
  | Gt => (m + 1)%Z
  | Eq => if Z.even m then m else (m + 1)%Z
  end.

Definition sqrt_pos (prec emin : Z) (q : Q) : Q :=
  inject_Z (sqrt_mant (sqrt_scaled prec emin q)) * pow2 (sqrt_exp prec emin q).

Definition sqrt64 (q : Q) : Q :=
  match Qcompare q 0 with
  | Gt => Qred (sqrt_pos 53 (-1074) q)
  | _ => 0
  end.

(** [np.clip] on one value. *)
Definition clip (x lo hi : Q) : Q := Qmin (Qmax x lo) hi.

(** A float to integer cast: truncation toward zero. *)
Definition trunc (x : Q) : Z :=
  if Qle_bool 0 x then Qfloor x else (- Qfloor (- x))%Z.

(** A coarse bound on the relative rounding error of either format. *)
Definition eps : Q := 1 # 16777216.

End IEEE.

(* ================================================================== *)
(** * Outcomes, and the random generators as a tape of draws *)
(* ================================================================== *)

(** The exceptions the program can raise on its own: [ValueError]
    ([random.randint] on an empty range, a reduction of an empty array,
    a negative image size) and [IndexError] (array indexing). *)
Inductive exn : Type := ValueError | IndexError.

Inductive result (A : Type) : Type :=
| Ok (a : A)
| Raise (e : exn).
Arguments Ok {A} a.
Arguments Raise {A} e.

Definition rbind {A B} (c : result A) (k : A -> result B) : result B :=
  match c with
  | Ok a => k a
  | Raise e => Raise e
  end.

Notation "x <-! c ;; k" := (rbind c (fun x => k))
  (at level 61, c at next level, right associativity).

(** [random] and [np.random] keep a hidden global state.  Here the
    state is a tape of raw draws and the position reached on it; every
    call consumes one cell.  A theorem that holds for every tape holds
    for whatever the real generators deliver. *)
Record Rng : Type := mkRng { tape : nat -> Z; pos : nat }.

Definition M (A : Type) : Type := Rng -> result (A * Rng).

Definition ret {A} (a : A) : M A := fun s => Ok (a, s).

Definition bind {A B} (c : M A) (k : A -> M B) : M B :=
  fun s =>
    match c s with
    | Ok (a, s') => k a s'
    | Raise e => Raise e
    end.

Definition raise {A} (e : exn) : M A := fun _ => Raise e.

Definition lift {A} (c : result A) : M A :=
  fun s =>
    match c with
    | Ok a => Ok (a, s)
    | Raise e => Raise e
    end.

Notation "x <- c ;; k" := (bind c (fun x => k))
  (at level 61, c at next level, right associativity).

Definition advance (s : Rng) : Rng := mkRng (tape s) (S (pos s)).

Definition draw : M Z := fun s => Ok (tape s (pos s), advance s).

(** [random.randint(a, b)]: an integer of [a..b], or [ValueError] when
    the range is empty. *)
Definition randint (a b : Z) : M Z :=
  if a <=? b then k <- draw ;; ret (a + k mod (b - a + 1))
  else raise ValueError.

(** [random.random()]: a multiple of [2^-53] in [[0, 1)]. *)
Definition random_bits (k : Z) : Z := k mod 2 ^ 53.

Definition random : M Q :=
  k <- draw ;; ret (inject_Z (random_bits k) / inject_Z (2 ^ 53))%Q.

(** [random.uniform(a, b)] is [a + (b - a) * random()] in [float64];
    [np.random.uniform] computes one element the same way. *)
Definition uniform (a b : Q) : M Q :=
  u <- random ;; ret (IEEE.B64 (a + IEEE.B64 (IEEE.B64 (b - a) * u)))%Q.

Fixpoint repeatM {A} (n : nat) (c : M A) : M (list A) :=
  match n with
  | O => ret []
  | S n' => x <- c ;; xs <- repeatM n' c ;; ret (x :: xs)
  end.

(** [for _ in range(n): a = body(a)]. *)
Fixpoint for_range {A} (n : nat) (body : A -> M A) (a : A) : M A :=
  match n with
  | O => ret a
  | S n' => a' <- body a ;; for_range n' body a'
  end.

(** A command that always returns. *)
Definition total {A} (c : M A) : Prop :=
  forall s, exists a s', c s = Ok (a, s').

(* ================================================================== *)
(** * Grids: images and single bands *)
(* ================================================================== *)

Definition tabulate {A} (n : Z) (f : Z -> A) : list A :=
  map (fun i => f (Z.of_nat i)) (seq 0 (Z.to_nat n)).

Section Grid.
Context {A : Type} (dflt : A).

(** Rows from top to bottom, each row from left to right. *)
Definition grid : Type := list (list A).

Definition height (g : grid) : Z := Z.of_nat (length g).

Definition width (g : grid) : Z :=
  match g with
  | [] => 0
  | r :: _ => Z.of_nat (length r)
  end.

Definition get (g : grid) (x y : Z) : A :=
  if (0 <=? x) && (0 <=? y)
  then nth (Z.to_nat x) (nth (Z.to_nat y) g []) dflt
  else dflt.

Definition build (w h : Z) (f : Z -> Z -> A) : grid :=
  tabulate h (fun y => tabulate w (fun x => f x y)).

(** [Image.crop((left, upper, right, lower))]; what lies outside the
    source comes out as the default (black). *)
Definition crop (g : grid) (box : Z * Z * Z * Z) : grid :=
  let '(l, u, r, b) := box in
  build (r - l) (b - u) (fun x y => get g (l + x) (u + y)).

(** [ImageChops.offset(image, xoffset, yoffset)]: the data moves by the
    offsets and wraps around the edges. *)
Definition offset (g : grid) (xoffset yoffset : Z) : grid :=
  let w := width g in
  let h := height g in
  build w h (fun x y => get g ((x - xoffset) mod w) ((y - yoffset) mod h)).

(** [base.paste(band, (x0, y0))]. *)
Definition paste (base band : grid) (at_ : Z * Z) : grid :=
  let '(x0, y0) := at_ in
  build (width base) (height base)
    (fun x y =>
       if (x0 <=? x) && (x <? x0 + width band)
          && (y0 <=? y) && (y <? y0 + height band)
       then get band (x - x0) (y - y0)
       else get base x y).

End Grid.

Arguments grid A : clear implicits.

Definition pixel : Type := Z * Z * Z.
Definition Image : Type := grid pixel.
Definition Band : Type := grid Z.

Definition black : pixel := (0, 0, 0).

Definition red (p : pixel) : Z := fst (fst p).
Definition green (p : pixel) : Z := snd (fst p).
Definition blue (p : pixel) : Z := snd p.

Definition map_px (f : Z -> Z) (p : pixel) : pixel :=
  (f (red p), f (green p), f (blue p)).

Definition getpixel : Image -> Z -> Z -> pixel := get black.

(** [img.split()] and [Image.merge("RGB", (r, g, b))]. *)
Definition split (img : Image) : Band * Band * Band :=
  (map (map red) img, map (map green) img, map (map blue) img).

Definition merge (r g b : Band) : Image :=
  build (width r) (height r) (fun x y => (get 0 r x y, get 0 g x y, get 0 b x y)).

(** [Image.new("RGB", (w, h), color)]. *)
Definition Image_new (w h : Z) (color : pixel) : result Image :=
  if (w <? 0) || (h <? 0) then Raise ValueError
  else Ok (build w h (fun _ _ => color)).

(** [ImageChops.add(a, b)]: the channel sums, clipped to the display
    range. *)
Definition chop (v : Z) : Z := Z.min 255 (Z.max 0 v).

Definition ImageChops_add (a b : Image) : Image :=
  build (width a) (height a)
    (fun x y =>
       let p := getpixel a x y in
       let q := getpixel b x y in
       (chop (red p + red q), chop (green p + green q), chop (blue p + blue q))).

(** A channel is displayable when it is a byte. *)
Definition displayable (v : Z) : Prop := 0 <= v <= 255.

Definition px_displayable (p : pixel) : Prop :=
  displayable (red p) /\ displayable (green p) /\ displayable (blue p).

Definition in_range (img : Image) : Prop :=
  Forall (Forall px_displayable) img.

(** Two grids of one width and height. *)
Definition same_size {A B} (a : grid A) (b : grid B) : Prop :=
  width a = width b /\ height a = height b.

(* ================================================================== *)
(** * Configuration *)
(* ================================================================== *)

(** A decimal literal of the source denotes the nearest [float64]. *)
Definition lit (q : Q) : Q := IEEE.B64 q.

Definition TEXT_LINES : list String.string :=
  ["Connecting…"%string; "Broadcast will start momentarily"%string].

Definition FONT_PATHS : list String.string :=
  ["/usr/share/fonts/TTF/DejaVuSansMono.ttf"%string;
   "/usr/share/fonts/truetype/dejavu/DejaVuSansMono.ttf"%string;
   "/Library/Fonts/Menlo.ttf"%string;
   "C:/Windows/Fonts/consola.ttf"%string].

Definition GREEN : pixel := (0, 255, 120).
Definition BG : pixel := (0, 0, 0).

Definition BANNER_SIZE : Z * Z := (1200, 480).
Definition OVERLAY_SIZE : Z * Z := (1920, 1080).

Definition FRAMES : Z := 48.
Definition FPS : Z := 12.
(** [int(1000 / FPS)]. *)
Definition DURATION_MS : Z := IEEE.trunc (IEEE.B64 (1000 / inject_Z FPS)).

Definition SCANLINE_OPACITY : Q := lit (22 # 100).
Definition BLOOM_RADIUS : Q := lit (25 # 10).
Definition BLOOM_GAIN : Q := lit (75 # 100).
Definition VIGNETTE_STRENGTH : Q := lit (35 # 100).
Definition NOISE_STRENGTH : Q := lit (6 # 100).
Definition TEAR_PROB : Q := lit (5 # 10).
Definition TEAR_BANDS : Z * Z := (1, 3).
Definition TEAR_SHIFT_PX : Z := 16.
Definition CHROMA_GLITCH_FRAMES : list Z := [0; 1].
Definition CHROMA_SHIFT_PX : Z := 1.
Definition CURVATURE_K : Q := lit (8 # 100).
Definition FLICKER_MIN : Q := lit (95 # 100).
Definition FLICKER_MAX : Q := lit (105 # 100).

Definition CRT_BG_STRENGTH : Q := lit (18 # 100).
Definition CRT_BG_TINT : pixel := (0, 140, 40).

(* ================================================================== *)
(** * The pipeline *)
(* ================================================================== *)

Section Pipeline.
Import IEEE.
Local Open Scope Q_scope.

(** What the program takes from its libraries without the embedding
    looking inside: [numpy]'s [float64] power (libm's [pow], which is
    not correctly rounded), Pillow's Gaussian blur and blend, and the
    font machinery. *)
Variable np_power : Q -> Q -> Q.
Variable GaussianBlur : Q -> Image -> Image.
Variable Image_blend : Image -> Image -> Q -> Image.
Variable Font : Type.
Variable truetype : String.string -> Z -> option Font.
Variable load_default : Font.
Variable textbbox : Font -> String.string -> Z * Z * Z * Z.
Variable draw_text : Image -> Z * Z -> String.string -> Font -> pixel -> Image.

Definition Zq : Z -> Q := inject_Z.

(** [np.array(img).astype(np.float32) / 255.0], one channel. *)
Definition to_unit (v : Z) : Q := B32 (Zq v / 255).

(** [(arr * 255).astype(np.uint8)], one channel. *)
Definition to_byte (x : Q) : Z := trunc (B32 (x * 255)).

(** The common tail of the numeric stages: [np.clip(arr, 0, 1)] and
    the cast back to bytes. *)
Definition finish (x : Q) : Z := to_byte (clip x 0 1).

Fixpoint load_font_from (paths : list String.string) (px_size : Z) : Font :=
  match paths with
  | [] => load_default
  | p :: rest =>
      match truetype p px_size with
      | Some f => f
      | None => load_font_from rest px_size
      end
  end.

Definition load_font (px_size : Z) : Font := load_font_from FONT_PATHS px_size.

Definition center_text_block (lines : list String.string) (font : Font)
    (canvas_w canvas_h line_spacing : Z)
  : list Z * Z * list Z * list Z :=
  let bboxes := map (textbbox font) lines in
  let heights := map (fun '(x0, y0, x1, y1) => (y1 - y0)%Z) bboxes in
  let widths := map (fun '(x0, y0, x1, y1) => (x1 - x0)%Z) bboxes in
  let total_h :=
    (fold_right Z.add 0 heights
     + line_spacing * (Z.of_nat (length lines) - 1))%Z in
  let y := ((canvas_h - total_h) / 2)%Z in
  let x_list := map (fun w => ((canvas_w - w) / 2)%Z) widths in
  (x_list, y, widths, heights).

Definition apply_scanlines (img : Image) (opacity : Q) : Image :=
  let w := width img in
  let h := height img in
  let dim := B32 (B64 (1 - opacity)) in
  let mask (y : Z) := if Z.odd y then dim else 1 in
  build w h (fun x y =>
    map_px (fun v => finish (B32 (to_unit v * mask y))) (getpixel img x y)).

Definition add_bloom_simple (base : Image) (radius gain : Q) : Image :=
  let glow := GaussianBlur radius base in
  Image_blend base glow gain.

(** [np.sqrt((x-cx)**2 + (y-cy)**2)] at one point of the grid. *)
Definition radius_at (cx cy : Q) (x y : Z) : Q :=
  let dx := B64 (Zq x - cx) in
  let dy := B64 (Zq y - cy) in
  sqrt64 (B64 (B64 (dx * dx) + B64 (dy * dy))).

Definition radii (w h : Z) (cx cy : Q) : list Q :=
  concat (tabulate h (fun y => tabulate w (fun x => radius_at cx cy x y))).

(** [r.max()]: numpy refuses to reduce an empty array. *)
Definition np_max (l : list Q) : result Q :=
  match l with
  | [] => Raise ValueError
  | x :: xs => Ok (fold_left Qmax xs x)
  end.

(** [r /= r.max()] at one point. *)
Definition normalised (cx cy rmax : Q) (x y : Z) : Q :=
  B64 (radius_at cx cy x y / rmax).

(** [1 - strength * (r**1.5)]. *)
Definition vignette_mask (cx cy rmax strength : Q) (x y : Z) : Q :=
  B64 (1 - B64 (strength * np_power (normalised cx cy rmax x y) (3 # 2))).

Definition vignette (img : Image) (strength : Q) : result Image :=
  let w := width img in
  let h := height img in
  let cx := B64 (Zq w / 2) in
  let cy := B64 (Zq h / 2) in
  rmax <-! np_max (radii w h cx cy) ;;
  let mask := vignette_mask cx cy rmax strength in
  Ok (build w h (fun x y =>
    map_px (fun v => finish (B32 (B64 (to_unit v * mask x y))))
      (getpixel img x y))).

(** One noise sample per channel, in the order of the array. *)
Definition noise_px (strength : Q) : M (Q * Q * Q) :=
  r <- uniform (- strength) strength ;;
  g <- uniform (- strength) strength ;;
  b <- uniform (- strength) strength ;;
  ret (r, g, b).

Definition add_noise (img : Image) (strength : Q) : M Image :=
  let w := width img in
  let h := height img in
  noise <- repeatM (Z.to_nat h) (repeatM (Z.to_nat w) (noise_px strength)) ;;
  ret (build w h (fun x y =>
    let '(nr, ng, nb) := get (0, 0, 0) noise x y in
    let p := getpixel img x y in
    (finish (B32 (to_unit (red p) + B32 nr)),
     finish (B32 (to_unit (green p) + B32 ng)),
     finish (B32 (to_unit (blue p) + B32 nb))))).

(** [src[ys_nn, xs_nn]] reads with numpy's index rule: [-n <= i < n],
    a negative index counting from the end. *)
Definition np_index (n i : Z) : result Z :=
  if (0 <=? i)%Z && (i <? n)%Z then Ok i
  else if (- n <=? i)%Z && (i <? 0)%Z then Ok (i + n)%Z
  else Raise IndexError.

Fixpoint sequence {A} (l : list (result A)) : result (list A) :=
  match l with
  | [] => Ok []
  | c :: rest => x <-! c ;; xs <-! sequence rest ;; Ok (x :: xs)
  end.

Definition build_checked (w h : Z) (f : Z -> Z -> result pixel) : result Image :=
  sequence (tabulate h (fun y => sequence (tabulate w (fun x => f x y)))).

(** The source coordinate of a destination coordinate, one axis:
    [np.clip(np.rint(src), 0, n-1).astype(np.int32)]. *)
Definition nearest (src : Q) (n : Z) : Z :=
  trunc (clip (Zq (rne src)) 0 (Zq (n - 1))).

Definition barrel_distort (img : Image) (k : Q) : result Image :=
  if Qle_bool k 0 then Ok img
  else
    let w := width img in
    let h := height img in
    let cx := B64 (Zq (w - 1) / 2) in
    let cy := B64 (Zq (h - 1) / 2) in
    (* a frame one pixel wide or high divides zero by zero: every
       coordinate is NaN, whose cast to [int32] is the most negative
       integer on x86, which no axis admits as an index; nothing below
       promises a result here *)
    if Qeq_bool cx 0 || Qeq_bool cy 0 then
      (if (0 <? w)%Z && (0 <? h)%Z then Raise IndexError else Ok img)
    else
      build_checked w h (fun xs ys =>
        let x := B64 (B64 (Zq xs - cx) / cx) in
        let y := B64 (B64 (Zq ys - cy) / cy) in
        let r2 := B64 (B64 (x * x) + B64 (y * y)) in
        let factor := B64 (1 + B64 (k * r2)) in
        let xd := B64 (x / factor) in
        let yd := B64 (y / factor) in
        let xs_src := B32 (B64 (B64 (xd * cx) + cx)) in
        let ys_src := B32 (B64 (B64 (yd * cy) + cy)) in
        yi <-! np_index h (nearest ys_src h) ;;
        xi <-! np_index w (nearest xs_src w) ;;
        Ok (getpixel img xi yi)).

Definition chroma_shift (img : Image) (shift_px : Z) : Image :=
  if (shift_px <=? 0)%Z then img
  else
    let '(r, g, b) := split img in
    let r := offset 0%Z r (- shift_px) 0 in
    let b := offset 0%Z b shift_px 0 in
    merge r g b.

Definition tear_band (w h max_shift : Z) (base : Image) : M Image :=
  th <- randint 4 (Z.max 6 (trunc (B64 (Zq h * lit (6 # 100))))) ;;
  ty <- randint 0 (h - th) ;;
  let band := crop black base (0, ty, w, ty + th)%Z in
  shift <- randint (- max_shift) max_shift ;;
  let band := offset black band shift 0 in
  ret (paste black base band (0, ty)%Z).

Definition tearing (img : Image) (max_shift : Z) (bands : Z * Z) : M Image :=
  if (max_shift <=? 0)%Z then ret img
  else
    let w := width img in
    let h := height img in
    let base := img in
    n <- randint (fst bands) (snd bands) ;;
    for_range (Z.to_nat n) (tear_band w h max_shift) base.

Definition flicker (img : Image) (low high : Q) : M Image :=
  factor <- uniform low high ;;
  ret (build (width img) (height img) (fun x y =>
    map_px (fun v => finish (B32 (to_unit v * B32 factor))) (getpixel img x y))).

(** [(1 - (r**1.8)) * strength]. *)
Definition glow_mask (cx cy rmax strength : Q) (x y : Z) : Q :=
  B64 (B64 (1 - np_power (normalised cx cy rmax x y) (lit (18 # 10))) * strength).

(** The glow of one channel of the background before it is clipped. *)
Definition glow_at (t : Z) (mask : Q) : Q := B32 (B64 (B64 (Zq t / 255) * mask)).

Definition crt_background (size : Z * Z) (tint : pixel) (strength : Q)
  : result Image :=
  let '(w, h) := size in
  base <-! Image_new w h BG ;;
  let cx := B64 (Zq w / 2) in
  let cy := B64 (Zq h / 2) in
  rmax <-! np_max (radii w h cx cy) ;;
  let mask := glow_mask cx cy rmax strength in
  let glow := build w h (fun x y =>
    map_px (fun t => finish (glow_at t (mask x y))) tint) in
  Ok (ImageChops_add base glow).

(** The glitch step of the loop body: the scripted kick on the frames
    of [CHROMA_GLITCH_FRAMES], a coin flip for tearing on the others. *)
Definition glitch (i : Z) (frame : Image) : M Image :=
  if existsb (Z.eqb i) CHROMA_GLITCH_FRAMES then
    let frame := chroma_shift frame CHROMA_SHIFT_PX in
    tearing frame TEAR_SHIFT_PX (2, 4)%Z
  else
    u <- random ;;
    if Qlt_le_dec u TEAR_PROB
    then tearing frame (TEAR_SHIFT_PX / 2)%Z TEAR_BANDS
    else ret frame.

(** The body of the loop of [render_sequence] for frame [i]. *)
Definition render_frame (size : Z * Z) (font : Font) (font_px : Z) (i : Z)
  : M Image :=
  let '(w, h) := size in
  frame <- lift (crt_background size CRT_BG_TINT CRT_BG_STRENGTH) ;;
  let lines :=
    [nth 0 TEXT_LINES String.EmptyString; nth 1 TEXT_LINES String.EmptyString] in
  let line_spacing := trunc (B64 (Zq font_px * lit (45 # 100))) in
  let '(x_list, y, widths, heights) :=
    center_text_block lines font w h line_spacing in
  let frame :=
    draw_text frame (nth 0 x_list 0%Z, y) (nth 0 lines String.EmptyString) font GREEN in
  let y := (y + (nth 0 heights 0 + line_spacing))%Z in
  let frame :=
    draw_text frame (nth 1 x_list 0%Z, y) (nth 1 lines String.EmptyString) font GREEN in
  let frame :=
    Image_blend frame (GaussianBlur BLOOM_RADIUS frame) BLOOM_GAIN in
  frame <- glitch i frame ;;
  let frame := apply_scanlines frame SCANLINE_OPACITY in
  frame <- lift (vignette frame VIGNETTE_STRENGTH) ;;
  frame <- add_noise frame NOISE_STRENGTH ;;
  frame <- flicker frame FLICKER_MIN FLICKER_MAX ;;
  frame <- lift (barrel_distort frame CURVATURE_K) ;;
  ret frame.

(** [for i in range(FRAMES): ...; frames.append(frame)]. *)
Fixpoint render_loop (size : Z * Z) (font : Font) (font_px : Z)
    (indices : list Z) (frames : list Image) : M (list Image) :=
  match indices with
  | [] => ret frames
  | i :: rest =>
      frame <- render_frame size font font_px i ;;
      render_loop size font font_px rest (frames ++ [frame])
  end.

(** What [imageio.mimsave] is called with. *)
Record Saved : Type := mkSaved {
  saved_path : String.string;
  saved_frames : list Image;
  saved_duration : Q;   (* seconds per frame *)
  saved_loop : Z        (* 0: loop forever *)
}.

Definition render_sequence (out_path : String.string) (size : Z * Z)
    (font_px : Z) : M Saved :=
  let font := load_font font_px in
  frames <- render_loop size font font_px (tabulate FRAMES (fun i => i)) [] ;;
  ret (mkSaved out_path frames (B64 (Zq DURATION_MS / 1000)) 0).

(** [rendered is s frames s']: the frames are those of the indices
    [is], in their order, each drawn from the state its predecessor
    left behind. *)
Inductive rendered (size : Z * Z) (font : Font) (font_px : Z)
  : list Z -> Rng -> list Image -> Rng -> Prop :=
| rendered_nil (s : Rng) : rendered size font font_px [] s [] s
| rendered_cons (i : Z) (rest : list Z) (s s1 s2 : Rng) (f : Image)
    (fs : list Image) :
    render_frame size font font_px i s = Ok (f, s1) ->
    rendered size font font_px rest s1 fs s2 ->
    rendered size font font_px (i :: rest) s (f :: fs) s2.

(** [main]: the banner, then the overlay, then the report on the
    terminal.  [os.makedirs(".", exist_ok=True)] finds the working
    directory in place and does nothing.  The result lists what was
    handed to the encoder and what was printed, in that order. *)
Definition main : M (list Saved * list String.string) :=
  banner <- render_sequence "connecting_banner_1200x480.gif"%string BANNER_SIZE 52 ;;
  overlay <- render_sequence "connecting_overlay_1920x1080.gif"%string OVERLAY_SIZE 84 ;;
  ret ([banner; overlay],
       ["Done:"%string;
        " - connecting_banner_1200x480.gif"%string;
        " - connecting_overlay_1920x1080.gif"%string]).

End Pipeline.

Arguments load_font_from {Font} truetype load_default paths px_size.
Arguments load_font {Font} truetype load_default px_size.
Arguments center_text_block {Font} textbbox lines font canvas_w canvas_h line_spacing.
Arguments render_frame np_power GaussianBlur Image_blend {Font} textbbox draw_text
  size font font_px i.
Arguments render_loop np_power GaussianBlur Image_blend {Font} textbbox draw_text
  size font font_px indices frames.
Arguments render_sequence np_power GaussianBlur Image_blend {Font} truetype
  load_default textbbox draw_text out_path size font_px.
Arguments rendered np_power GaussianBlur Image_blend {Font} textbbox draw_text
  size font font_px indices s frames s'.
Arguments main np_power GaussianBlur Image_blend {Font} truetype load_default
  textbbox draw_text.

(* ================================================================== *)
(** * Notions the specification speaks of *)
(* ================================================================== *)

Section Notions.
Import IEEE.
Local Open Scope Q_scope.

Definition uniform_frame (w h : Z) (p : pixel) : Image :=
  build w h (fun _ _ => p).

(** What [apply_scanlines] makes of a channel on an odd row. *)
Definition dimmed (opacity : Q) (v : Z) : Z :=
  finish (B32 (to_unit v * B32 (B64 (1 - opacity)))).

(** The brightness of a pixel and the average brightness of a row. *)
Definition brightness (p : pixel) : Q :=
  (Zq (red p) + Zq (green p) + Zq (blue p)) / 3.

Definition row_brightness (img : Image) (y : Z) : Q :=
  let row := nth (Z.to_nat y) img [] in
  fold_right Qplus 0 (map brightness row) / Zq (Z.of_nat (length row)).

End Notions.

(* ================================================================== *)
(** * Notions of the further properties *)
(* ================================================================== *)

(** No channel of [p] is brighter than the same channel of [q]. *)
Definition px_le (p q : pixel) : Prop :=
  red p <= red q /\ green p <= green q /\ blue p <= blue q.

(** Every channel of [p] lies above [lo] and at most at [hi] of the
    same channel of [q]. *)
Definition px_between (lo hi : Z -> Q) (p q : pixel) : Prop :=
  (lo (red q) < inject_Z (red p) <= hi (red q))%Q
  /\ (lo (green q) < inject_Z (green p) <= hi (green q))%Q
  /\ (lo (blue q) < inject_Z (blue p) <= hi (blue q))%Q.

(** Row [y] of [out] is row [y] of [img] turned around the frame. *)
Definition rows_rotated (img out : Image) : Prop :=
  same_size out img
  /\ forall y, 0 <= y < height img ->
       exists d, forall x, 0 <= x < width img ->
         getpixel out x y = getpixel img ((x - d) mod width img) y.

Section SourceCoordinates.
Import IEEE.
Local Open Scope Q_scope.

(** The source coordinates of [barrel_distort], one axis at a time. *)
Definition barrel_source_x (w h : Z) (k : Q) (xs ys : Z) : Z :=
  let cx := B64 (Zq (w - 1) / 2) in
  let cy := B64 (Zq (h - 1) / 2) in
  let x := B64 (B64 (Zq xs - cx) / cx) in
  let y := B64 (B64 (Zq ys - cy) / cy) in
  let r2 := B64 (B64 (x * x) + B64 (y * y)) in
  let factor := B64 (1 + B64 (k * r2)) in
  nearest (B32 (B64 (B64 (B64 (x / factor) * cx) + cx))) w.

Definition barrel_source_y (w h : Z) (k : Q) (xs ys : Z) : Z :=
  let cx := B64 (Zq (w - 1) / 2) in
  let cy := B64 (Zq (h - 1) / 2) in
  let x := B64 (B64 (Zq xs - cx) / cx) in
  let y := B64 (B64 (Zq ys - cy) / cy) in
  let r2 := B64 (B64 (x * x) + B64 (y * y)) in
  let factor := B64 (1 + B64 (k * r2)) in
  nearest (B32 (B64 (B64 (B64 (y / factor) * cy) + cy))) h.

End SourceCoordinates.

(* ================================================================== *)
(** * A small instance of the library interface *)
(* ================================================================== *)

(** Enough of a power function, a blur, a blend and a font to run the
    pipeline on concrete frames. *)
Module Sample.
Import IEEE.
Local Open Scope Q_scope.

Fixpoint ipow (x : Q) (n : nat) : Q :=
  match n with
  | O => 1
  | S k => B64 (x * ipow x k)
  end.

(** The fractional part of the exponent, bit by bit: the bit of weight
    [2^-i] contributes the [i]-th iterated square root of the base. *)
Fixpoint pow_frac (bits : nat) (root y acc : Q) : Q :=
  match bits with
  | O => acc
  | S n =>
      let root' := sqrt64 root in
      let y' := Qred (y * 2) in
      if Qle_bool 1 y'
      then pow_frac n root' (Qred (y' - 1)) (B64 (acc * root'))
      else pow_frac n root' y' acc
  end.

Definition power (x y : Q) : Q :=
  let n := Qfloor y in
  pow_frac 53 x (Qred (y - inject_Z n)) (ipow x (Z.to_nat n)).

(** A three tap horizontal box blur. *)
Definition blur (radius : Q) (img : Image) : Image :=
  let w := width img in
  build w (height img) (fun x y =>
    let at_ (dx : Z) := getpixel img (Z.max 0 (Z.min (w - 1) (x + dx))) y in
    let mean (f : pixel -> Z) := ((f (at_ (-1)) + f (at_ 0) + f (at_ 1)) / 3)%Z in
    (mean red, mean green, mean blue)).

(** Linear interpolation between two images, clipped to bytes. *)
Definition blend (a b : Image) (alpha : Q) : Image :=
  build (width a) (height a) (fun x y =>
    let p := getpixel a x y in
    let q := getpixel b x y in
    let mix (f : pixel -> Z) :=
      chop (trunc (B32 (inject_Z (f p) + B32 (B32 alpha * inject_Z (f q - f p))))) in
    (mix red, mix green, mix blue)).

(** A fixed pitch bitmap font: six by eleven pixels a character. *)
Definition Font : Type := unit.
Definition truetype (path : String.string) (px_size : Z) : option Font := None.
Definition load_default : Font := tt.

Definition textbbox (f : Font) (s : String.string) : Z * Z * Z * Z :=
  (0, 0, 6 * Z.of_nat (String.length s), 11)%Z.

(** The text as a filled box of its extent. *)
Definition draw_text (img : Image) (xy : Z * Z) (s : String.string)
    (f : Font) (color : pixel) : Image :=
  let '(x0, y0) := xy in
  let '(_, _, tw, th) := textbbox f s in
  build (width img) (height img) (fun x y =>
    if ((x0 <=? x) && (x <? x0 + tw) && (y0 <=? y) && (y <? y0 + th))%Z
    then color else getpixel img x y).

End Sample.

(* ================================================================== *)
(** * Rounding: monotone, and exact on the grid *)
(* ================================================================== *)

(** [lra] does not look through a division by the literal two. *)
Ltac lra_halves :=
  unfold Qdiv in *; change (/ 2)%Q with (1 # 2)%Q in *; lra.

Section Rounding.
Import IEEE.
Local Open Scope Q_scope.

Lemma pow2_pos e : 0 < pow2 e.
Proof. unfold pow2. apply Qpower_0_lt. reflexivity. Qed.

Lemma pow2_add a b : pow2 (a + b) == pow2 a * pow2 b.
Proof. unfold pow2. apply Qpower_plus. discriminate. Qed.

Lemma pow2_le a b : (a <= b)%Z -> pow2 a <= pow2 b.
Proof. intro H. unfold pow2. apply Qpower_le_compat_l; [exact H | discriminate]. Qed.

Lemma pow2_lt a b : (a < b)%Z -> pow2 a < pow2 b.
Proof. intro H. unfold pow2. apply Qpower_lt_compat_l; [exact H | reflexivity]. Qed.

Lemma pow2_lt_inv a b : pow2 a < pow2 b -> (a < b)%Z.
Proof. intro H. unfold pow2 in H. apply Qpower_lt_compat_l_inv with (q := 2); [exact H | reflexivity]. Qed.

Lemma pow2_nonneg_Z e : (0 <= e)%Z -> pow2 e == inject_Z (2 ^ e).
Proof. intro H. unfold pow2. rewrite Zpower_Qpower by exact H. reflexivity. Qed.

Lemma Qmake_le_iff (x : Q) (n : Z) (d : positive) :
  x <= n # d <-> x * inject_Z (Zpos d) <= inject_Z n.
Proof.
  rewrite (Qmake_Qdiv n d).
  assert (Hd : 0 < inject_Z (Zpos d)) by reflexivity.
  split; intro H.
  - apply (Qmult_le_r _ _ _ Hd) in H.
    setoid_replace (inject_Z n / inject_Z (Zpos d) * inject_Z (Zpos d))
      with (inject_Z n) in H; [exact H | field; discriminate].
  - apply Qle_shift_div_l; assumption.
Qed.

Lemma Qmake_lt_iff (x : Q) (n : Z) (d : positive) :
  n # d < x <-> inject_Z n < x * inject_Z (Zpos d).
Proof.
  rewrite (Qmake_Qdiv n d).
  assert (Hd : 0 < inject_Z (Zpos d)) by reflexivity.
  split; intro H.
  - apply (Qmult_lt_r _ _ _ Hd) in H.
    setoid_replace (inject_Z n / inject_Z (Zpos d) * inject_Z (Zpos d))
      with (inject_Z n) in H; [exact H | field; discriminate].
  - apply Qlt_shift_div_r; assumption.
Qed.

Lemma inject_Z_log2_bounds (n : Z) :
  (0 < n)%Z ->
  pow2 (Z.log2 n) <= inject_Z n /\ inject_Z n < pow2 (Z.log2 n + 1).
Proof.
  intro Hn. destruct (Z.log2_spec n Hn) as [Hlo Hhi].
  pose proof (Z.log2_nonneg n) as Hnn.
  rewrite !pow2_nonneg_Z by lia. rewrite <- Zle_Qle, <- Zlt_Qlt.
  split; [exact Hlo | exact Hhi].
Qed.

Lemma ilog2_spec (q : Q) :
  0 < q -> pow2 (ilog2 q) <= q /\ q < pow2 (ilog2 q + 1).
Proof.
  intro Hq. destruct q as [n d].
  assert (Hn : (0 < n)%Z).
  { unfold Qlt in Hq. simpl in Hq. lia. }
  destruct (inject_Z_log2_bounds n Hn) as [Hnlo Hnhi].
  destruct (inject_Z_log2_bounds (Zpos d) eq_refl) as [Hdlo Hdhi].
  unfold ilog2. cbn [Qnum Qden].
  set (a := Z.log2 n) in *. set (b := Z.log2 (Zpos d)) in *.
  assert (Hd : 0 < inject_Z (Zpos d)) by reflexivity.
  destruct (Qle_bool (pow2 (a - b)) (n # d)) eqn:Hc.
  - apply Qle_bool_iff in Hc. split; [exact Hc |].
    apply Qmake_lt_iff.
    apply Qlt_le_trans with (1 := Hnhi).
    replace (a + 1)%Z with ((a - b + 1) + b)%Z by ring.
    rewrite pow2_add.
    apply Qmult_le_l; [apply pow2_pos | exact Hdlo].
  - assert (Hlt : n # d < pow2 (a - b)).
    { apply Qnot_le_lt. intro H. apply Qle_bool_iff in H. congruence. }
    split.
    + apply Qmake_le_iff.
      apply Qle_trans with (2 := Hnlo).
      replace a with ((a - b - 1) + (b + 1))%Z at 2 by ring.
      rewrite pow2_add.
      apply Qmult_le_l; [apply pow2_pos | apply Qlt_le_weak; exact Hdhi].
    + replace (a - b - 1 + 1)%Z with (a - b)%Z by ring. exact Hlt.
Qed.

Lemma ilog2_mono (p q : Q) : 0 < p -> p <= q -> (ilog2 p <= ilog2 q)%Z.
Proof.
  intros Hp Hpq.
  assert (Hq : 0 < q) by (apply Qlt_le_trans with (1 := Hp); exact Hpq).
  destruct (ilog2_spec p Hp) as [H1 _].
  destruct (ilog2_spec q Hq) as [_ H2].
  assert (H : pow2 (ilog2 p) < pow2 (ilog2 q + 1)).
  { apply Qle_lt_trans with (1 := H1). apply Qle_lt_trans with (1 := Hpq). exact H2. }
  apply pow2_lt_inv in H. lia.
Qed.

(** [rne] against an integer bound. *)
Lemma rne_le_int (q : Q) (n : Z) : q <= inject_Z n -> (rne q <= n)%Z.
Proof.
  intro H. unfold rne.
  pose proof (Qfloor_le q) as Hf. pose proof (Qlt_floor q) as Hf'.
  assert (Hfn : (Qfloor q <= n)%Z).
  { rewrite <- (Qfloor_Z n). apply Qfloor_resp_le. exact H. }
  destruct (Z.eq_dec (Qfloor q) n) as [E | NE].
  - (* q is the integer n itself *)
    assert (Hq : q - inject_Z (Qfloor q) <= 0) by (rewrite E; lra).
    destruct (Qcompare_spec (q - inject_Z (Qfloor q)) (1 # 2)) as [H0 | H0 | H0];
      try lia; lra.
  - destruct (Qcompare (q - inject_Z (Qfloor q)) (1 # 2)); try lia;
      destruct (Z.even (Qfloor q)); lia.
Qed.

Lemma rne_ge_int (q : Q) (n : Z) : inject_Z n <= q -> (n <= rne q)%Z.
Proof.
  intro H. unfold rne.
  assert (Hfn : (n <= Qfloor q)%Z).
  { rewrite <- (Qfloor_Z n). apply Qfloor_resp_le. exact H. }
  destruct (Qcompare (q - inject_Z (Qfloor q)) (1 # 2)); try lia;
    destruct (Z.even (Qfloor q)); lia.
Qed.

Lemma rne_mono (p q : Q) : p <= q -> (rne p <= rne q)%Z.
Proof.
  intro H.
  pose proof (Qfloor_resp_le _ _ H) as Hf.
  destruct (Z.eq_dec (Qfloor p) (Qfloor q)) as [E | NE].
  - unfold rne. rewrite E.
    destruct (Qcompare_spec (p - inject_Z (Qfloor q)) (1 # 2)) as [H0 | H0 | H0];
      destruct (Qcompare_spec (q - inject_Z (Qfloor q)) (1 # 2)) as [H1 | H1 | H1];
      try lia; try (destruct (Z.even (Qfloor q)); lia); lra.
  - assert (Hlt : (Qfloor p + 1 <= Qfloor q)%Z) by lia.
    apply Z.le_trans with (Qfloor p + 1)%Z.
    + apply rne_le_int. pose proof (Qlt_floor p). lra.
    + apply Z.le_trans with (1 := Hlt). apply rne_ge_int. apply Qfloor_le.
Qed.

(** The rounded value of a positive rational lies on the grid of
    multiples of its unit in the last place; a grid point that bounds
    the rational bounds its rounding as well. *)
Section RoundPos.
Variables prec emin : Z.
Hypothesis prec_pos : (1 <= prec)%Z.

Lemma round_pos_le_grid (q : Q) (n : Z) :
  q <= inject_Z n * pow2 (ulp_exp prec emin q) ->
  round_pos prec emin q <= inject_Z n * pow2 (ulp_exp prec emin q).
Proof.
  intro H. unfold round_pos.
  set (ex := ulp_exp prec emin q) in *.
  apply Qmult_le_compat_r; [| apply Qlt_le_weak, pow2_pos].
  rewrite <- Zle_Qle. apply rne_le_int.
  apply Qle_shift_div_r; [apply pow2_pos | exact H].
Qed.

Lemma round_pos_ge_grid (q : Q) (n : Z) :
  inject_Z n * pow2 (ulp_exp prec emin q) <= q ->
  inject_Z n * pow2 (ulp_exp prec emin q) <= round_pos prec emin q.
Proof.
  intro H. unfold round_pos.
  set (ex := ulp_exp prec emin q) in *.
  apply Qmult_le_compat_r; [| apply Qlt_le_weak, pow2_pos].
  rewrite <- Zle_Qle. apply rne_ge_int.
  apply Qle_shift_div_l; [apply pow2_pos | exact H].
Qed.

Lemma pow2_on_grid (k ex : Z) :
  (ex <= k)%Z -> pow2 k == inject_Z (2 ^ (k - ex)) * pow2 ex.
Proof.
  intro H. rewrite <- pow2_nonneg_Z by lia. rewrite <- pow2_add.
  replace (k - ex + ex)%Z with k by ring. reflexivity.
Qed.

Lemma round_pos_nonneg (q : Q) : 0 < q -> 0 <= round_pos prec emin q.
Proof.
  intro Hq.
  pose proof (round_pos_ge_grid q 0) as H.
  rewrite Qmult_0_l in H. apply H. apply Qlt_le_weak. exact Hq.
Qed.

Lemma ulp_exp_mono (p q : Q) :
  0 < p -> p <= q -> (ulp_exp prec emin p <= ulp_exp prec emin q)%Z.
Proof.
  intros Hp Hpq. unfold ulp_exp.
  pose proof (ilog2_mono p q Hp Hpq). lia.
Qed.

Lemma round_pos_mono (p q : Q) :
  0 < p -> p <= q -> round_pos prec emin p <= round_pos prec emin q.
Proof.
  intros Hp Hpq.
  assert (Hq : 0 < q) by (apply Qlt_le_trans with (1 := Hp); exact Hpq).
  pose proof (ulp_exp_mono p q Hp Hpq) as Hex.
  destruct (Z.eq_dec (ulp_exp prec emin p) (ulp_exp prec emin q)) as [E | NE].
  - unfold round_pos. rewrite E.
    apply Qmult_le_compat_r; [| apply Qlt_le_weak, pow2_pos].
    rewrite <- Zle_Qle. apply rne_mono.
    apply Qmult_le_compat_r; [exact Hpq |].
    apply Qlt_le_weak, Qinv_lt_0_compat, pow2_pos.
  - (* the roundings are separated by the power of two that opens the
       binade of [q] *)
    assert (Hlt : (ulp_exp prec emin p < ulp_exp prec emin q)%Z) by lia.
    destruct (ilog2_spec p Hp) as [_ Hphi].
    destruct (ilog2_spec q Hq) as [Hqlo _].
    unfold ulp_exp in Hlt.
    assert (Hlog : (ilog2 p + 1 <= ilog2 q)%Z) by lia.
    apply Qle_trans with (pow2 (ilog2 q)).
    + rewrite (pow2_on_grid (ilog2 q) (ulp_exp prec emin p)) by (unfold ulp_exp; lia).
      apply round_pos_le_grid.
      rewrite <- pow2_on_grid by (unfold ulp_exp; lia).
      apply Qlt_le_weak. apply Qlt_le_trans with (1 := Hphi).
      apply pow2_le. exact Hlog.
    + rewrite (pow2_on_grid (ilog2 q) (ulp_exp prec emin q)) by (unfold ulp_exp; lia).
      apply round_pos_ge_grid.
      rewrite <- pow2_on_grid by (unfold ulp_exp; lia).
      exact Hqlo.
Qed.

Lemma round_nonneg (q : Q) : 0 <= q -> 0 <= round prec emin q.
Proof.
  intro H. unfold round.
  destruct (Qcompare_spec q 0) as [E | L | G].
  - apply Qle_refl.
  - lra.
  - rewrite Qred_correct. apply round_pos_nonneg. exact G.
Qed.

Lemma round_nonpos (q : Q) : q <= 0 -> round prec emin q <= 0.
Proof.
  intro H. unfold round.
  destruct (Qcompare_spec q 0) as [E | L | G].
  - apply Qle_refl.
  - rewrite Qred_correct.
    assert (H0 : 0 <= round_pos prec emin (- q)) by (apply round_pos_nonneg; lra).
    lra.
  - lra.
Qed.

(** Rounding is monotone. *)
Lemma round_mono (p q : Q) : p <= q -> round prec emin p <= round prec emin q.
Proof.
  intro H.
  destruct (Qlt_le_dec 0 p) as [Hp | Hp].
  - assert (Hq : 0 < q) by lra.
    unfold round.
    destruct (Qcompare_spec p 0) as [E | L | G]; try lra.
    destruct (Qcompare_spec q 0) as [E' | L' | G']; try lra.
    rewrite !Qred_correct. apply round_pos_mono; assumption.
  - destruct (Qlt_le_dec q 0) as [Hq | Hq].
    + unfold round.
      destruct (Qcompare_spec p 0) as [E | L | G]; try lra.
      destruct (Qcompare_spec q 0) as [E' | L' | G']; try lra.
      rewrite !Qred_correct.
      assert (Hm : round_pos prec emin (- q) <= round_pos prec emin (- p))
        by (apply round_pos_mono; lra).
      lra.
    + apply Qle_trans with 0; [apply round_nonpos | apply round_nonneg]; assumption.
Qed.

(** A value that rounding leaves alone (a float of the format) bounds
    the rounding of whatever it bounds. *)
Lemma round_le_float (q r : Q) :
  round prec emin r == r -> q <= r -> round prec emin q <= r.
Proof. intros Hr H. rewrite <- Hr. apply round_mono. exact H. Qed.

Lemma round_ge_float (q r : Q) :
  round prec emin r == r -> r <= q -> r <= round prec emin q.
Proof. intros Hr H. rewrite <- Hr. apply round_mono. exact H. Qed.

End RoundPos.

Lemma B32_mono (p q : Q) : p <= q -> B32 p <= B32 q.
Proof. apply round_mono. lia. Qed.

Lemma B64_mono (p q : Q) : p <= q -> B64 p <= B64 q.
Proof. apply round_mono. lia. Qed.

Lemma B32_0 : B32 0 = 0. Proof. reflexivity. Qed.
Lemma B32_1 : B32 1 = 1. Proof. vm_compute. reflexivity. Qed.
Lemma B32_255 : B32 255 = 255. Proof. vm_compute. reflexivity. Qed.
Lemma B64_0 : B64 0 = 0. Proof. reflexivity. Qed.
Lemma B64_1 : B64 1 = 1. Proof. vm_compute. reflexivity. Qed.

Lemma B32_unit (q : Q) : 0 <= q <= 1 -> 0 <= B32 q <= 1.
Proof.
  intros [H0 H1]. split.
  - rewrite <- B32_0. apply B32_mono. exact H0.
  - rewrite <- B32_1. apply B32_mono. exact H1.
Qed.

Lemma B64_unit (q : Q) : 0 <= q <= 1 -> 0 <= B64 q <= 1.
Proof.
  intros [H0 H1]. split.
  - rewrite <- B64_0. apply B64_mono. exact H0.
  - rewrite <- B64_1. apply B64_mono. exact H1.
Qed.

Lemma clip_bounds (x lo hi : Q) : lo <= hi -> lo <= clip x lo hi <= hi.
Proof.
  intro H. unfold clip. split.
  - apply Q.min_glb; [apply Q.le_max_r | exact H].
  - apply Q.le_min_r.
Qed.

Lemma clip_mono (x y lo hi : Q) : x <= y -> clip x lo hi <= clip y lo hi.
Proof.
  intro H. unfold clip.
  apply Q.min_le_compat_r. apply Q.max_le_compat_r. exact H.
Qed.

Lemma clip_id (x lo hi : Q) : lo <= x <= hi -> clip x lo hi == x.
Proof.
  intros [H0 H1]. unfold clip.
  rewrite (Q.max_l x lo) by exact H0. apply Q.min_l. exact H1.
Qed.

Lemma trunc_nonneg (x : Q) : 0 <= x -> trunc x = Qfloor x.
Proof.
  intro H. unfold trunc.
  destruct (Qle_bool 0 x) eqn:E; [reflexivity |].
  apply Qle_bool_iff in H. congruence.
Qed.

End Rounding.

(* ================================================================== *)
(** * Grids: basic facts *)
(* ================================================================== *)

Lemma tabulate_length {A} (n : Z) (f : Z -> A) :
  length (tabulate n f) = Z.to_nat n.
Proof. unfold tabulate. rewrite length_map, length_seq. reflexivity. Qed.

Lemma nth_tabulate {A} (n : Z) (f : Z -> A) (d : A) (i : Z) :
  0 <= i < n -> nth (Z.to_nat i) (tabulate n f) d = f i.
Proof.
  intro H. unfold tabulate.
  rewrite (nth_indep _ d (f 0)) by (rewrite length_map, length_seq; lia).
  rewrite (map_nth (fun i => f (Z.of_nat i)) (seq 0 (Z.to_nat n)) 0%nat).
  rewrite seq_nth by lia. simpl. f_equal. lia.
Qed.

Lemma in_tabulate {A} (n : Z) (f : Z -> A) (a : A) :
  In a (tabulate n f) -> exists i, 0 <= i < n /\ a = f i.
Proof.
  unfold tabulate. intro H. apply in_map_iff in H.
  destruct H as [k [E Hk]]. apply in_seq in Hk.
  exists (Z.of_nat k). split; [lia | symmetry; exact E].
Qed.

Lemma height_nonneg {A} (g : grid A) : 0 <= height g.
Proof. unfold height. lia. Qed.

Lemma width_nonneg {A} (g : grid A) : 0 <= width g.
Proof. unfold width. destruct g; lia. Qed.

Lemma width_empty {A} (g : grid A) : height g = 0 -> width g = 0.
Proof. destruct g; [reflexivity | unfold height; simpl; lia]. Qed.

Section GridFacts.
Context {A : Type} (dflt : A).

Lemma height_build (w h : Z) (f : Z -> Z -> A) :
  0 <= h -> height (build w h f) = h.
Proof. intro H. unfold height, build. rewrite tabulate_length. lia. Qed.

Lemma width_build (w h : Z) (f : Z -> Z -> A) :
  0 < h -> 0 <= w -> width (build w h f) = w.
Proof.
  intros Hh Hw. unfold width, build.
  destruct (tabulate h (fun y => tabulate w (fun x => f x y))) as [| r rest] eqn:E.
  - apply (f_equal (@length _)) in E. rewrite tabulate_length in E. simpl in E. lia.
  - assert (Hr : r = nth (Z.to_nat 0) (tabulate h (fun y => tabulate w (fun x => f x y))) [])
      by (rewrite E; reflexivity).
    rewrite nth_tabulate in Hr by lia. subst r. rewrite tabulate_length. lia.
Qed.

Lemma get_build (w h : Z) (f : Z -> Z -> A) (x y : Z) :
  0 <= x < w -> 0 <= y < h -> get dflt (build w h f) x y = f x y.
Proof.
  intros Hx Hy. unfold get, build.
  replace ((0 <=? x) && (0 <=? y)) with true
    by (symmetry; apply andb_true_iff; split; apply Z.leb_le; lia).
  rewrite (nth_tabulate h (fun y => tabulate w (fun x => f x y)) [] y) by lia.
  apply (nth_tabulate w (fun x => f x y)). lia.
Qed.

(** A grid rebuilt over the extent of another has that extent. *)
Lemma build_over_same_size {B} (g : grid B) (f : Z -> Z -> A) :
  same_size (build (width g) (height g) f) g.
Proof.
  pose proof (height_nonneg g). pose proof (width_nonneg g).
  split.
  - destruct (Z.eq_dec (height g) 0) as [E | NE].
    + rewrite E. rewrite (width_empty g E). reflexivity.
    + apply width_build; lia.
  - apply height_build. lia.
Qed.

Lemma same_size_refl (g : grid A) : same_size g g.
Proof. split; reflexivity. Qed.

Lemma offset_same_size (g : grid A) (dx dy : Z) : same_size (offset dflt g dx dy) g.
Proof. unfold offset. apply build_over_same_size. Qed.

Lemma paste_same_size (base band : grid A) (at_ : Z * Z) :
  same_size (paste dflt base band at_) base.
Proof. destruct at_ as [x0 y0]. unfold paste. apply build_over_same_size. Qed.

End GridFacts.

Lemma same_size_trans {A B C} (a : grid A) (b : grid B) (c : grid C) :
  same_size a b -> same_size b c -> same_size a c.
Proof. intros [H1 H2] [H3 H4]. split; congruence. Qed.

Lemma same_size_sym {A B} (a : grid A) (b : grid B) :
  same_size a b -> same_size b a.
Proof. intros [H1 H2]. split; congruence. Qed.

Lemma map_map_same_size {A B} (f : A -> B) (g : grid A) :
  same_size (map (map f) g) g.
Proof.
  split.
  - destruct g as [| r rest]; [reflexivity |]. unfold width. simpl.
    rewrite length_map. reflexivity.
  - unfold height. rewrite length_map. reflexivity.
Qed.

Lemma get_map_map {A B} (f : A -> B) (dA : A) (g : grid A) (x y : Z) :
  get (f dA) (map (map f) g) x y = f (get dA g x y).
Proof.
  unfold get. destruct ((0 <=? x) && (0 <=? y)); [| reflexivity].
  change (@nil B) with (map f []).
  rewrite (map_nth (map f) g []). apply map_nth.
Qed.

(** Displayable channels. *)
Lemma black_displayable : px_displayable black.
Proof. unfold px_displayable, displayable, black, red, green, blue; simpl. lia. Qed.

Lemma getpixel_displayable (img : Image) (x y : Z) :
  in_range img -> px_displayable (getpixel img x y).
Proof.
  intro H. unfold getpixel, get.
  destruct ((0 <=? x) && (0 <=? y)); [| apply black_displayable].
  destruct (nth_in_or_default (Z.to_nat y) img []) as [Hin | E].
  - unfold in_range in H. rewrite Forall_forall in H. specialize (H _ Hin).
    destruct (nth_in_or_default (Z.to_nat x) (nth (Z.to_nat y) img []) black) as [Hin' | E'].
    + rewrite Forall_forall in H. apply H. exact Hin'.
    + rewrite E'. apply black_displayable.
  - rewrite E. destruct (Z.to_nat x); apply black_displayable.
Qed.

Lemma in_range_build (w h : Z) (f : Z -> Z -> pixel) :
  (forall x y, 0 <= x < w -> 0 <= y < h -> px_displayable (f x y)) ->
  in_range (build w h f).
Proof.
  intro H. unfold in_range, build.
  apply Forall_forall. intros r Hr. apply in_tabulate in Hr.
  destruct Hr as [y [Hy ->]].
  apply Forall_forall. intros p Hp. apply in_tabulate in Hp.
  destruct Hp as [x [Hx ->]]. apply H; assumption.
Qed.

(* ================================================================== *)
(** * The monad of draws and the helpers of the stages *)
(* ================================================================== *)

Lemma bind_ok {A B} (c : M A) (k : A -> M B) (s s'' : Rng) (b : B) :
  bind c k s = Ok (b, s'') ->
  exists a s', c s = Ok (a, s') /\ k a s' = Ok (b, s'').
Proof.
  unfold bind. intro H. destruct (c s) as [[a s'] | e]; [| discriminate].
  exists a, s'. split; [reflexivity | exact H].
Qed.

Lemma ret_ok {A} (a b : A) (s s' : Rng) :
  ret a s = Ok (b, s') -> b = a /\ s' = s.
Proof. unfold ret. intro H. inversion H. split; reflexivity. Qed.

Lemma lift_ok {A} (c : result A) (s s' : Rng) (a : A) :
  lift c s = Ok (a, s') -> c = Ok a /\ s' = s.
Proof.
  unfold lift. destruct c as [a0 | e]; intro H; [| discriminate].
  inversion H. split; reflexivity.
Qed.

Lemma total_ret {A} (a : A) : total (ret a).
Proof. intro s. exists a, s. reflexivity. Qed.

Lemma total_bind {A B} (c : M A) (k : A -> M B) :
  total c -> (forall a, total (k a)) -> total (bind c k).
Proof.
  intros Hc Hk s. destruct (Hc s) as [a [s' E]].
  destruct (Hk a s') as [b [s'' E']].
  exists b, s''. unfold bind. rewrite E. exact E'.
Qed.

Lemma total_draw : total draw.
Proof. intro s. eexists. eexists. reflexivity. Qed.

Lemma total_random : total random.
Proof. apply total_bind; [apply total_draw | intro; apply total_ret]. Qed.

Lemma total_uniform (a b : Q) : total (uniform a b).
Proof. apply total_bind; [apply total_random | intro; apply total_ret]. Qed.

Lemma total_repeatM {A} (n : nat) (c : M A) : total c -> total (repeatM n c).
Proof.
  intro Hc. induction n as [| n IH]; simpl.
  - apply total_ret.
  - apply total_bind; [exact Hc | intro x].
    apply total_bind; [exact IH | intro xs; apply total_ret].
Qed.

(** [randint] returns exactly when its range is not empty, and then a
    value of the range. *)
Lemma randint_ok (a b : Z) (s : Rng) :
  a <= b -> exists v, randint a b s = Ok (v, advance s) /\ a <= v <= b.
Proof.
  intro H. unfold randint.
  replace (a <=? b) with true by (symmetry; apply Z.leb_le; exact H).
  exists (a + tape s (pos s) mod (b - a + 1)). split; [reflexivity |].
  pose proof (Z.mod_pos_bound (tape s (pos s)) (b - a + 1)). lia.
Qed.

Lemma randint_empty (a b : Z) (s : Rng) :
  b < a -> randint a b s = Raise ValueError.
Proof.
  intro H. unfold randint.
  replace (a <=? b) with false by (symmetry; apply Z.leb_gt; exact H).
  reflexivity.
Qed.

Lemma randint_inv (a b v : Z) (s s' : Rng) :
  randint a b s = Ok (v, s') -> a <= v <= b /\ s' = advance s.
Proof.
  intro H. destruct (Z_le_gt_dec a b) as [Hab | Hab].
  - destruct (randint_ok a b s Hab) as [v' [E Hv]].
    rewrite E in H. inversion H. subst. split; [exact Hv | reflexivity].
  - rewrite randint_empty in H by lia. discriminate.
Qed.

Section StageFacts.
Import IEEE.
Local Open Scope Q_scope.

(** The tail of every numeric stage lands on a byte: after the clip the
    cast never wraps. *)
Lemma finish_displayable (x : Q) : displayable (finish x).
Proof.
  unfold finish, to_byte.
  destruct (clip_bounds x 0 1) as [H0 H1]; [discriminate |].
  set (c := clip x 0 1) in *.
  assert (Hlo : 0 <= B32 (c * 255)).
  { rewrite <- B32_0. apply B32_mono. lra. }
  assert (Hhi : B32 (c * 255) <= 255).
  { rewrite <- B32_255 at 2. apply B32_mono. lra. }
  rewrite trunc_nonneg by exact Hlo.
  split.
  - change 0%Z with (Qfloor 0). apply Qfloor_resp_le. exact Hlo.
  - change 255%Z with (Qfloor 255). apply Qfloor_resp_le. exact Hhi.
Qed.

Lemma map_px_finish_displayable (f : Z -> Q) (p : pixel) :
  px_displayable (map_px (fun v => finish (f v)) p).
Proof.
  unfold px_displayable, map_px. cbn [red green blue fst snd].
  split; [| split]; apply finish_displayable.
Qed.

(** [sequence] returns the list of the values when every element is one. *)
Lemma sequence_ok {A} (l : list (result A)) (out : list A) :
  sequence l = Ok out -> l = map Ok out.
Proof.
  revert out. induction l as [| c rest IH]; intros out H; simpl in H.
  - inversion H. reflexivity.
  - destruct c as [x | e]; simpl in H; [| discriminate].
    destruct (sequence rest) as [xs | e]; simpl in H; [| discriminate].
    inversion H. simpl. f_equal. apply IH. reflexivity.
Qed.

Lemma sequence_map_Ok {A} (l : list A) : sequence (map Ok l) = Ok l.
Proof.
  induction l as [| x xs IH]; simpl; [reflexivity |]. rewrite IH. reflexivity.
Qed.

Lemma sequence_tabulate_ok {A} (n : Z) (f : Z -> result A) (g : Z -> A) :
  (forall i, (0 <= i < n)%Z -> f i = Ok (g i)) ->
  sequence (tabulate n f) = Ok (tabulate n g).
Proof.
  intro H. unfold tabulate.
  rewrite <- sequence_map_Ok. f_equal. rewrite map_map.
  apply map_ext_in. intros k Hk. apply in_seq in Hk. apply H. lia.
Qed.

Lemma build_checked_ok (w h : Z) (f : Z -> Z -> result pixel) (g : Z -> Z -> pixel) :
  (forall x y, (0 <= x < w)%Z -> (0 <= y < h)%Z -> f x y = Ok (g x y)) ->
  build_checked w h f = Ok (build w h g).
Proof.
  intro H. unfold build_checked, build.
  apply sequence_tabulate_ok. intros y Hy.
  apply sequence_tabulate_ok. intros x Hx. apply H; assumption.
Qed.

Lemma build_checked_inv (w h : Z) (f : Z -> Z -> result pixel) (out : Image) :
  build_checked w h f = Ok out ->
  exists g, out = build w h g /\
    forall x y, (0 <= x < w)%Z -> (0 <= y < h)%Z -> f x y = Ok (g x y).
Proof.
  intro H.
  exists (fun x y => match f x y with Ok p => p | Raise _ => black end).
  assert (Hall : forall x y, (0 <= x < w)%Z -> (0 <= y < h)%Z ->
                   exists p, f x y = Ok p).
  { intros x y Hx Hy. unfold build_checked in H.
    apply sequence_ok in H.
    assert (Hrow : nth (Z.to_nat y) (tabulate h (fun y => sequence (tabulate w (fun x => f x y)))) (Ok [])
                   = nth (Z.to_nat y) (map Ok out) (Ok [])) by (rewrite H; reflexivity).
    rewrite nth_tabulate in Hrow by lia.
    rewrite (map_nth Ok out []) in Hrow.
    apply sequence_ok in Hrow.
    assert (Hpx : nth (Z.to_nat x) (tabulate w (fun x => f x y)) (Ok black)
                  = nth (Z.to_nat x) (map Ok (nth (Z.to_nat y) out [])) (Ok black))
      by (rewrite Hrow; reflexivity).
    rewrite nth_tabulate in Hpx by lia.
    rewrite (map_nth Ok _ black) in Hpx. eexists. exact Hpx. }
  assert (Hg : forall x y, (0 <= x < w)%Z -> (0 <= y < h)%Z ->
             f x y = Ok (match f x y with Ok p => p | Raise _ => black end)).
  { intros x y Hx Hy. destruct (Hall x y Hx Hy) as [p E]. rewrite E. reflexivity. }
  split; [| exact Hg].
  rewrite (build_checked_ok w h f _ Hg) in H. inversion H. reflexivity.
Qed.

End StageFacts.

(* ================================================================== *)
(** * Every stage keeps the extent of the frame *)
(* ================================================================== *)

Section Extent.
Import IEEE.

Variable np_power : Q -> Q -> Q.

Lemma apply_scanlines_same_size (img : Image) (opacity : Q) :
  same_size (apply_scanlines img opacity) img.
Proof. unfold apply_scanlines. apply build_over_same_size. Qed.

Lemma np_max_ok (l : list Q) : l <> [] -> exists m, np_max l = Ok m.
Proof. destruct l as [| x xs]; [congruence | intros _; eexists; reflexivity]. Qed.

Lemma radii_nonempty (w h : Z) (cx cy : Q) :
  0 < w -> 0 < h -> radii w h cx cy <> [].
Proof.
  intros Hw Hh. unfold radii, tabulate.
  destruct (Z.to_nat h) as [| h'] eqn:Eh; [lia |].
  destruct (Z.to_nat w) as [| w'] eqn:Ew; [lia |].
  simpl. discriminate.
Qed.

Lemma radii_empty (w h : Z) (cx cy : Q) :
  w <= 0 \/ h <= 0 -> radii w h cx cy = [].
Proof.
  intros H. unfold radii, tabulate.
  destruct H as [H | H].
  - replace (Z.to_nat w) with 0%nat by lia. simpl.
    induction (seq 0 (Z.to_nat h)) as [| a l IH]; [reflexivity | exact IH].
  - replace (Z.to_nat h) with 0%nat by lia. reflexivity.
Qed.

Lemma vignette_same_size (img out : Image) (strength : Q) :
  vignette np_power img strength = Ok out -> same_size out img.
Proof.
  unfold vignette. intro H.
  destruct (np_max _) as [rmax | e]; simpl in H; [| discriminate].
  inversion H. apply build_over_same_size.
Qed.

(** The vignette needs a pixel to measure a radius on. *)
Lemma vignette_defined (img : Image) (strength : Q) :
  0 < width img -> 0 < height img ->
  exists out, vignette np_power img strength = Ok out.
Proof.
  intros Hw Hh. unfold vignette.
  destruct (np_max_ok _ (radii_nonempty (width img) (height img)
              (B64 (Zq (width img) / 2)) (B64 (Zq (height img) / 2)) Hw Hh)) as [m E].
  rewrite E. simpl. eexists. reflexivity.
Qed.

Lemma total_add_noise (img : Image) (strength : Q) : total (add_noise img strength).
Proof.
  unfold add_noise. apply total_bind; [| intro; apply total_ret].
  apply total_repeatM, total_repeatM. unfold noise_px.
  repeat (apply total_bind; [apply total_uniform | intro]). apply total_ret.
Qed.

Lemma add_noise_same_size (img out : Image) (strength : Q) (s s' : Rng) :
  add_noise img strength s = Ok (out, s') -> same_size out img.
Proof.
  unfold add_noise. intro H. apply bind_ok in H.
  destruct H as [noise [s1 [_ H]]]. apply ret_ok in H. destruct H as [-> _].
  apply build_over_same_size.
Qed.

Lemma total_flicker (img : Image) (low high : Q) : total (flicker img low high).
Proof.
  unfold flicker. apply total_bind; [apply total_uniform | intro; apply total_ret].
Qed.

Lemma flicker_same_size (img out : Image) (low high : Q) (s s' : Rng) :
  flicker img low high s = Ok (out, s') -> same_size out img.
Proof.
  unfold flicker. intro H. apply bind_ok in H.
  destruct H as [factor [s1 [_ H]]]. apply ret_ok in H. destruct H as [-> _].
  apply build_over_same_size.
Qed.

Lemma barrel_distort_same_size (img out : Image) (k : Q) :
  barrel_distort img k = Ok out -> same_size out img.
Proof.
  unfold barrel_distort. intro H.
  destruct (Qle_bool k 0).
  { inversion H. apply same_size_refl. }
  destruct (Qeq_bool _ 0 || Qeq_bool _ 0).
  { destruct ((0 <? width img) && (0 <? height img)); [discriminate |].
    inversion H. apply same_size_refl. }
  apply build_checked_inv in H. destruct H as [g [-> _]].
  apply build_over_same_size.
Qed.

Lemma chroma_shift_same_size (img : Image) (shift_px : Z) :
  same_size (chroma_shift img shift_px) img.
Proof.
  unfold chroma_shift. destruct (shift_px <=? 0); [apply same_size_refl |].
  unfold split, merge.
  eapply same_size_trans; [apply build_over_same_size |].
  eapply same_size_trans; [apply offset_same_size |].
  apply map_map_same_size.
Qed.

Lemma tear_band_same_size (w h max_shift : Z) (base out : Image) (s s' : Rng) :
  tear_band w h max_shift base s = Ok (out, s') -> same_size out base.
Proof.
  unfold tear_band. intro H.
  apply bind_ok in H. destruct H as [th [s1 [_ H]]].
  apply bind_ok in H. destruct H as [ty [s2 [_ H]]].
  apply bind_ok in H. destruct H as [shift [s3 [_ H]]].
  apply ret_ok in H. destruct H as [-> _]. apply paste_same_size.
Qed.

Lemma for_range_invariant {A} (P : A -> Prop) (body : A -> M A) :
  (forall a b s s', P a -> body a s = Ok (b, s') -> P b) ->
  forall n a b s s', P a -> for_range n body a s = Ok (b, s') -> P b.
Proof.
  intros Hbody n. induction n as [| n IH]; intros a b s s' Ha H; simpl in H.
  - inversion H. subst. exact Ha.
  - apply bind_ok in H. destruct H as [a1 [s1 [E H]]].
    eapply IH; [| exact H]. eapply Hbody; eassumption.
Qed.

Lemma tearing_same_size (img out : Image) (max_shift : Z) (bands : Z * Z)
    (s s' : Rng) :
  tearing img max_shift bands s = Ok (out, s') -> same_size out img.
Proof.
  unfold tearing. intro H.
  destruct (max_shift <=? 0).
  { apply ret_ok in H. destruct H as [-> _]. apply same_size_refl. }
  apply bind_ok in H. destruct H as [n [s1 [_ H]]].
  revert H.
  apply (for_range_invariant (fun b => same_size b img)).
  - intros a b t t' Ha Hb. apply tear_band_same_size in Hb.
    eapply same_size_trans; eassumption.
  - apply same_size_refl.
Qed.

End Extent.

(* ================================================================== *)
(** * Every stage keeps the channels displayable *)
(* ================================================================== *)

Section Range.
Import IEEE.

Variable np_power : Q -> Q -> Q.

Lemma rbind_ok {A B} (c : result A) (k : A -> result B) (b : B) :
  rbind c k = Ok b -> exists a, c = Ok a /\ k a = Ok b.
Proof.
  destruct c as [a | e]; simpl; intro H; [| discriminate].
  exists a. split; [reflexivity | exact H].
Qed.

Lemma apply_scanlines_in_range (img : Image) (opacity : Q) :
  in_range (apply_scanlines img opacity).
Proof.
  unfold apply_scanlines. apply in_range_build. intros x y _ _.
  apply map_px_finish_displayable.
Qed.

Lemma vignette_in_range (img out : Image) (strength : Q) :
  vignette np_power img strength = Ok out -> in_range out.
Proof.
  unfold vignette. intro H.
  destruct (np_max _) as [rmax | e]; simpl in H; [| discriminate].
  inversion H. apply in_range_build. intros x y _ _.
  apply map_px_finish_displayable.
Qed.

Lemma add_noise_in_range (img out : Image) (strength : Q) (s s' : Rng) :
  add_noise img strength s = Ok (out, s') -> in_range out.
Proof.
  unfold add_noise. intro H. apply bind_ok in H.
  destruct H as [noise [s1 [_ H]]]. apply ret_ok in H. destruct H as [-> _].
  apply in_range_build. intros x y _ _.
  destruct (get _ noise x y) as [[nr ng] nb].
  unfold px_displayable. cbn [red green blue fst snd].
  split; [| split]; apply finish_displayable.
Qed.

Lemma flicker_in_range (img out : Image) (low high : Q) (s s' : Rng) :
  flicker img low high s = Ok (out, s') -> in_range out.
Proof.
  unfold flicker. intro H. apply bind_ok in H.
  destruct H as [factor [s1 [_ H]]]. apply ret_ok in H. destruct H as [-> _].
  apply in_range_build. intros x y _ _.
  apply map_px_finish_displayable.
Qed.

Lemma barrel_distort_in_range (img out : Image) (k : Q) :
  in_range img -> barrel_distort img k = Ok out -> in_range out.
Proof.
  intros Himg H. unfold barrel_distort in H.
  destruct (Qle_bool k 0).
  { inversion H. subst. exact Himg. }
  destruct (Qeq_bool _ 0 || Qeq_bool _ 0).
  { destruct ((0 <? width img) && (0 <? height img)); [discriminate |].
    inversion H. subst. exact Himg. }
  apply build_checked_inv in H. destruct H as [g [-> Hg]].
  apply in_range_build. intros x y Hx Hy.
  specialize (Hg x y Hx Hy).
  apply rbind_ok in Hg. destruct Hg as [yi [_ Hg]].
  apply rbind_ok in Hg. destruct Hg as [xi [_ Hg]].
  inversion Hg. apply getpixel_displayable. exact Himg.
Qed.

Lemma get_band_displayable (f : pixel -> Z) (img : Image) (x y : Z) :
  (forall p, px_displayable p -> displayable (f p)) ->
  f black = 0 ->
  in_range img -> displayable (get 0 (map (map f) img) x y).
Proof.
  intros Hf H0 Himg. rewrite <- H0. rewrite get_map_map.
  apply Hf. apply (getpixel_displayable img x y Himg).
Qed.

Lemma get_offset {A} (d : A) (g : grid A) (dx dy x y : Z) :
  0 <= x < width g -> 0 <= y < height g ->
  get d (offset d g dx dy) x y
  = get d g ((x - dx) mod width g) ((y - dy) mod height g).
Proof.
  intros Hx Hy. unfold offset.
  apply (get_build d (width g) (height g)
           (fun x y => get d g ((x - dx) mod width g) ((y - dy) mod height g)));
    assumption.
Qed.

Lemma chroma_shift_in_range (img : Image) (shift_px : Z) :
  in_range img -> in_range (chroma_shift img shift_px).
Proof.
  intro Himg. unfold chroma_shift.
  destruct (shift_px <=? 0); [exact Himg |].
  unfold split, merge. apply in_range_build. intros x y Hx Hy.
  destruct (offset_same_size 0 (map (map red) img) (- shift_px) 0) as [Ew Eh].
  rewrite Ew in Hx. rewrite Eh in Hy.
  destruct (map_map_same_size red img) as [Ew1 Eh1].
  destruct (map_map_same_size blue img) as [Ew2 Eh2].
  unfold px_displayable. cbn [red green blue fst snd].
  split; [| split].
  - rewrite get_offset by assumption.
    apply get_band_displayable; [intros p Hp; apply Hp | reflexivity | exact Himg].
  - apply get_band_displayable; [intros p Hp; apply Hp | reflexivity | exact Himg].
  - rewrite get_offset by (rewrite ?Ew2, ?Eh2, <- ?Ew1, <- ?Eh1; assumption).
    apply get_band_displayable; [intros p Hp; apply Hp | reflexivity | exact Himg].
Qed.

Lemma crop_in_range (img : Image) (box : Z * Z * Z * Z) :
  in_range img -> in_range (crop black img box).
Proof.
  intro H. destruct box as [[[l u] r] b]. unfold crop.
  apply in_range_build. intros x y _ _. apply (getpixel_displayable img _ _ H).
Qed.

Lemma offset_in_range (img : Image) (dx dy : Z) :
  in_range img -> in_range (offset black img dx dy).
Proof.
  intro H. unfold offset.
  apply in_range_build. intros x y _ _. apply (getpixel_displayable img _ _ H).
Qed.

Lemma paste_in_range (base band : Image) (at_ : Z * Z) :
  in_range base -> in_range band -> in_range (paste black base band at_).
Proof.
  intros Hb Hd. destruct at_ as [x0 y0]. unfold paste.
  apply in_range_build. intros x y _ _.
  destruct (_ && _).
  - apply (getpixel_displayable band _ _ Hd).
  - apply (getpixel_displayable base _ _ Hb).
Qed.

Lemma tear_band_in_range (w h max_shift : Z) (base out : Image) (s s' : Rng) :
  in_range base -> tear_band w h max_shift base s = Ok (out, s') -> in_range out.
Proof.
  intro Hb. unfold tear_band. intro H.
  apply bind_ok in H. destruct H as [th [s1 [_ H]]].
  apply bind_ok in H. destruct H as [ty [s2 [_ H]]].
  apply bind_ok in H. destruct H as [shift [s3 [_ H]]].
  apply ret_ok in H. destruct H as [-> _].
  apply paste_in_range; [exact Hb |].
  apply offset_in_range, crop_in_range. exact Hb.
Qed.

Lemma tearing_in_range (img out : Image) (max_shift : Z) (bands : Z * Z)
    (s s' : Rng) :
  in_range img -> tearing img max_shift bands s = Ok (out, s') -> in_range out.
Proof.
  intro Himg. unfold tearing. intro H.
  destruct (max_shift <=? 0).
  { apply ret_ok in H. destruct H as [-> _]. exact Himg. }
  apply bind_ok in H. destruct H as [n [s1 [_ H]]].
  revert H.
  apply (for_range_invariant in_range); [| exact Himg].
  intros a b t t' Ha Hb. eapply tear_band_in_range; eassumption.
Qed.

End Range.

(* ================================================================== *)
(** * When the fallible stages return *)
(* ================================================================== *)

Section Defined.
Import IEEE.
Local Open Scope Q_scope.

Lemma pow2_le_inv (a b : Z) : pow2 a <= pow2 b -> (a <= b)%Z.
Proof.
  intro H. destruct (Z_le_gt_dec a b) as [L | G]; [exact L |].
  assert (Hlt : pow2 b < pow2 a) by (apply pow2_lt; lia). lra.
Qed.

Lemma ilog2_pow2 (k : Z) : ilog2 (pow2 k) = k.
Proof.
  destruct (ilog2_spec (pow2 k) (pow2_pos k)) as [Hlo Hhi].
  apply pow2_le_inv in Hlo. apply pow2_lt_inv in Hhi. lia.
Qed.

(** Powers of two are floats. *)
Lemma round_pow2 (prec emin k : Z) :
  (1 <= prec)%Z -> (emin <= k)%Z -> round prec emin (pow2 k) == pow2 k.
Proof.
  intros Hp Hk. unfold round.
  pose proof (pow2_pos k) as Hpos.
  destruct (Qcompare_spec (pow2 k) 0) as [E | L | G]; try lra.
  rewrite Qred_correct.
  assert (Hex : (ulp_exp prec emin (pow2 k) <= k)%Z).
  { unfold ulp_exp. rewrite ilog2_pow2. lia. }
  pose proof (pow2_on_grid k _ Hex) as Hgrid.
  apply Qle_antisym.
  - rewrite Hgrid at 2. apply round_pos_le_grid. rewrite <- Hgrid. apply Qle_refl.
  - rewrite Hgrid at 1. apply round_pos_ge_grid. rewrite <- Hgrid. apply Qle_refl.
Qed.

Lemma lit_006_le_half : lit (6 # 100) <= 1 # 2.
Proof. vm_compute. discriminate. Qed.

Lemma lit_006_nonneg : 0 <= lit (6 # 100).
Proof. vm_compute. discriminate. Qed.

(** [int(h * 0.06)] stays below [h]. *)
Lemma band_fraction_le (h : Z) :
  (1 <= h)%Z -> (trunc (B64 (Zq h * lit (6 # 100))) <= h)%Z.
Proof.
  intro Hh. unfold Zq.
  assert (Hq : 0 < inject_Z h) by (change 0 with (inject_Z 0); rewrite <- Zlt_Qlt; lia).
  destruct (ilog2_spec _ Hq) as [Hlo Hhi].
  set (e := ilog2 (inject_Z h)) in *.
  assert (He : (0 <= e)%Z).
  { assert (H1 : pow2 0 < pow2 (e + 1)).
    { apply Qle_lt_trans with (2 := Hhi). change (pow2 0) with 1.
      change 1 with (inject_Z 1). rewrite <- Zle_Qle. lia. }
    apply pow2_lt_inv in H1. lia. }
  pose proof lit_006_le_half as Hc. pose proof lit_006_nonneg as Hc0.
  set (c := lit (6 # 100)) in *.
  assert (Hprod : inject_Z h * c <= pow2 e).
  { replace (e + 1)%Z with (1 + e)%Z in Hhi by ring. rewrite pow2_add in Hhi.
    change (pow2 1) with 2 in Hhi.
    apply Qle_trans with (inject_Z h * (1 # 2)).
    - apply Qmult_le_l; [exact Hq | exact Hc].
    - lra. }
  assert (Hb : B64 (inject_Z h * c) <= pow2 e).
  { apply round_le_float; [lia | apply round_pow2; lia | exact Hprod]. }
  assert (Hb0 : 0 <= B64 (inject_Z h * c)).
  { apply round_nonneg. apply Qmult_le_0_compat; lra. }
  rewrite trunc_nonneg by exact Hb0.
  apply Z.le_trans with (Qfloor (inject_Z h)); [| rewrite Qfloor_Z; lia].
  apply Qfloor_resp_le. lra.
Qed.

Lemma for_range_total {A} (body : A -> M A) (n : nat) (a : A) :
  (forall a, total (body a)) -> total (for_range n body a).
Proof.
  intro Hb. revert a. induction n as [| n IH]; intro a; simpl.
  - apply total_ret.
  - apply total_bind; [apply Hb | exact IH].
Qed.

Lemma total_randint (a b : Z) : (a <= b)%Z -> total (randint a b).
Proof.
  intros H s. destruct (randint_ok a b s H) as [v [E _]]. eexists. eexists. exact E.
Qed.

(** A band fits a frame of six rows or more. *)
Lemma total_tear_band (w h max_shift : Z) (base : Image) :
  (6 <= h)%Z -> (0 < max_shift)%Z -> total (tear_band w h max_shift base).
Proof.
  intros Hh Hs s. unfold tear_band.
  pose proof (band_fraction_le h ltac:(lia)) as Hf.
  set (hi := Z.max 6 (trunc (B64 (Zq h * lit (6 # 100))))) in *.
  assert (Hhi : (4 <= hi <= h)%Z) by (unfold hi; lia).
  destruct (randint_ok 4 hi s ltac:(lia)) as [th [E1 Hth]].
  destruct (randint_ok 0 (h - th) (advance s) ltac:(lia)) as [ty [E2 Hty]].
  destruct (randint_ok (- max_shift) max_shift (advance (advance s)) ltac:(lia))
    as [sh [E3 Hsh]].
  eexists. eexists. unfold bind. rewrite E1, E2, E3. reflexivity.
Qed.

Lemma tearing_defined (img : Image) (max_shift : Z) (bands : Z * Z) :
  (6 <= height img)%Z -> (fst bands <= snd bands)%Z ->
  total (tearing img max_shift bands).
Proof.
  intros Hh Hb. unfold tearing.
  destruct (max_shift <=? 0)%Z eqn:E; [apply total_ret |].
  apply Z.leb_gt in E.
  apply total_bind; [apply total_randint; exact Hb | intro n].
  apply for_range_total. intro a. apply total_tear_band; assumption.
Qed.

(** No band fits a frame of fewer than four rows: the draw of the
    vertical position has an empty range. *)
Lemma tearing_raises_when_short (img : Image) (max_shift : Z) (bands : Z * Z)
    (s : Rng) :
  (height img < 4)%Z -> (0 < max_shift)%Z ->
  (1 <= fst bands <= snd bands)%Z ->
  tearing img max_shift bands s = Raise ValueError.
Proof.
  intros Hh Hs Hb. unfold tearing.
  replace (max_shift <=? 0)%Z with false by (symmetry; apply Z.leb_gt; exact Hs).
  destruct (randint_ok (fst bands) (snd bands) s ltac:(lia)) as [n [E Hn]].
  unfold bind at 1. rewrite E.
  destruct (Z.to_nat n) as [| k] eqn:Ek; [lia |].
  simpl. unfold bind at 1. unfold tear_band.
  set (hi := Z.max 6 (trunc (B64 (Zq (height img) * lit (6 # 100))))).
  destruct (randint_ok 4 hi (advance s) ltac:(unfold hi; lia)) as [th [E1 Hth]].
  unfold bind at 1. rewrite E1.
  unfold bind at 1. rewrite randint_empty by lia. reflexivity.
Qed.

Lemma nearest_bounds (src : Q) (n : Z) :
  (1 <= n)%Z -> (0 <= nearest src n < n)%Z.
Proof.
  intro Hn. unfold nearest, Zq.
  assert (Hle : 0 <= inject_Z (n - 1)).
  { change 0 with (inject_Z 0). rewrite <- Zle_Qle. lia. }
  destruct (clip_bounds (inject_Z (rne src)) 0 (inject_Z (n - 1)) Hle) as [H0 H1].
  rewrite trunc_nonneg by exact H0.
  split.
  - change 0%Z with (Qfloor 0). apply Qfloor_resp_le. exact H0.
  - apply Z.le_lt_trans with (Qfloor (inject_Z (n - 1))); [| rewrite Qfloor_Z; lia].
    apply Qfloor_resp_le. exact H1.
Qed.

Lemma np_index_ok (n i : Z) : (0 <= i < n)%Z -> np_index n i = Ok i.
Proof.
  intro H. unfold np_index.
  replace ((0 <=? i)%Z && (i <? n)%Z) with true; [reflexivity |].
  symmetry. apply andb_true_iff. split; [apply Z.leb_le | apply Z.ltb_lt]; lia.
Qed.

Lemma half_extent_nonzero (n : Z) :
  (2 <= n)%Z -> Qeq_bool (B64 (Zq (n - 1) / 2)) 0 = false.
Proof.
  intro Hn.
  assert (H : (1 # 2) <= B64 (Zq (n - 1) / 2)).
  { apply round_ge_float; [lia | vm_compute; reflexivity |].
    unfold Zq. apply Qle_shift_div_l; [reflexivity |].
    apply Qle_trans with (inject_Z 1); [discriminate |].
    rewrite <- Zle_Qle. lia. }
  destruct (Qeq_bool (B64 (Zq (n - 1) / 2)) 0) eqn:E; [| reflexivity].
  apply Qeq_bool_iff in E. lra.
Qed.

(** The clipped nearest-neighbour coordinates are valid indices: on a
    frame at least two pixels wide and high the distortion returns. *)
Lemma barrel_distort_defined (img : Image) (k : Q) :
  (2 <= width img)%Z -> (2 <= height img)%Z ->
  exists out, barrel_distort img k = Ok out.
Proof.
  intros Hw Hh. unfold barrel_distort.
  destruct (Qle_bool k 0); [eexists; reflexivity |].
  rewrite (half_extent_nonzero _ Hw), (half_extent_nonzero _ Hh). cbn [orb].
  eexists. apply build_checked_ok. intros x y Hx Hy.
  rewrite np_index_ok by (apply nearest_bounds; lia). cbn [rbind].
  rewrite np_index_ok by (apply nearest_bounds; lia). cbn [rbind].
  reflexivity.
Qed.

End Defined.

(* ================================================================== *)
(** * The rounded square root *)
(* ================================================================== *)

Section SqrtFacts.
Import IEEE.
Local Open Scope Q_scope.

Variables prec emin : Z.
Hypothesis prec_pos : (1 <= prec)%Z.

Lemma sqrt_pos_unfold (q : Q) :
  sqrt_pos prec emin q = inject_Z (sqrt_mant (sqrt_scaled prec emin q)) * pow2 (sqrt_exp prec emin q).
Proof. reflexivity. Qed.

Lemma sqrt_mant_between (s : Q) :
  (Z.sqrt (Qfloor s) <= sqrt_mant s <= Z.sqrt (Qfloor s) + 1)%Z.
Proof.
  unfold sqrt_mant.
  destruct (Qcompare _ _); try lia. destruct (Z.even _); lia.
Qed.

Lemma inject_Z_square (n : Z) : inject_Z (n * n) == inject_Z n * inject_Z n.
Proof. rewrite inject_Z_mult. reflexivity. Qed.

(** Below a square the mantissa stays below its root. *)
Lemma sqrt_mant_le (s : Q) (n : Z) :
  (0 <= n)%Z -> 0 <= s -> s < inject_Z (n * n) -> (sqrt_mant s <= n)%Z.
Proof.
  intros Hn Hs H.
  pose proof (sqrt_mant_between s) as [_ Hhi].
  assert (Hf : (0 <= Qfloor s)%Z).
  { change 0%Z with (Qfloor 0). apply Qfloor_resp_le. exact Hs. }
  assert (Hlt : (Qfloor s < n * n)%Z).
  { rewrite Zlt_Qlt. apply Qle_lt_trans with (2 := H). apply Qfloor_le. }
  assert (Hsq : (Z.sqrt (Qfloor s) < n)%Z).
  { apply Z.sqrt_lt_square; lia. }
  lia.
Qed.

(** From a square on the mantissa is at least its root. *)
Lemma sqrt_mant_ge (s : Q) (n : Z) :
  (0 <= n)%Z -> inject_Z (n * n) <= s -> (n <= sqrt_mant s)%Z.
Proof.
  intros Hn H.
  pose proof (sqrt_mant_between s) as [Hlo _].
  assert (Hle : (n * n <= Qfloor s)%Z).
  { rewrite <- (Qfloor_Z (n * n)). apply Qfloor_resp_le. exact H. }
  assert (Hsq : (n <= Z.sqrt (Qfloor s))%Z).
  { apply Z.sqrt_le_square; lia. }
  lia.
Qed.

Lemma sqrt_mant_mono (s t : Q) : 0 <= s -> s <= t -> (sqrt_mant s <= sqrt_mant t)%Z.
Proof.
  intros Hs Hst.
  assert (Hf : (0 <= Qfloor s)%Z).
  { change 0%Z with (Qfloor 0). apply Qfloor_resp_le. exact Hs. }
  pose proof (Qfloor_resp_le _ _ Hst) as Hfl.
  pose proof (Z.sqrt_le_mono _ _ Hfl) as Hm.
  pose proof (sqrt_mant_between s) as [_ Hs1].
  pose proof (sqrt_mant_between t) as [Ht0 _].
  destruct (Z.eq_dec (Z.sqrt (Qfloor s)) (Z.sqrt (Qfloor t))) as [E | NE]; [| lia].
  unfold sqrt_mant. rewrite E.
  set (mid := inject_Z (2 * Z.sqrt (Qfloor t) + 1) / 2).
  destruct (Qcompare_spec s (mid * mid)) as [H1 | H1 | H1];
    destruct (Qcompare_spec t (mid * mid)) as [H2 | H2 | H2];
    try lia; try (destruct (Z.even _); lia); lra.
Qed.

Lemma pow2_double (k : Z) : pow2 (2 * k) == pow2 k * pow2 k.
Proof. replace (2 * k)%Z with (k + k)%Z by ring. apply pow2_add. Qed.

Lemma pow2_square_on_grid (k ex : Z) :
  (ex <= k)%Z ->
  pow2 (2 * k) / pow2 (2 * ex) == inject_Z (2 ^ (k - ex) * 2 ^ (k - ex)).
Proof.
  intro H. rewrite inject_Z_mult.
  rewrite (pow2_double k), (pow2_double ex).
  rewrite (pow2_on_grid k ex H).
  pose proof (pow2_pos ex) as Hp.
  field. lra.
Qed.

Lemma sqrt_exp_mono (p q : Q) :
  0 < p -> p <= q -> (sqrt_exp prec emin p <= sqrt_exp prec emin q)%Z.
Proof.
  intros Hp Hpq. unfold sqrt_exp.
  pose proof (ilog2_mono p q Hp Hpq) as H.
  pose proof (Z.div_le_mono _ _ 2 ltac:(lia) H). lia.
Qed.

Lemma sqrt_scaled_nonneg (q : Q) : 0 < q -> 0 <= sqrt_scaled prec emin q.
Proof.
  intro Hq. unfold sqrt_scaled.
  apply Qle_shift_div_l; [apply pow2_pos | lra].
Qed.

(** The root of a positive rational is at most the power of two that
    closes its binade pair, and at least the one that opens it. *)
Lemma sqrt_pos_le_pow2 (q : Q) (k : Z) :
  0 < q -> (sqrt_exp prec emin q <= k)%Z -> q < pow2 (2 * k) ->
  sqrt_pos prec emin q <= pow2 k.
Proof.
  intros Hq Hk Hlt. rewrite sqrt_pos_unfold.
  rewrite (pow2_on_grid k (sqrt_exp prec emin q) Hk).
  apply Qmult_le_compat_r; [| apply Qlt_le_weak, pow2_pos].
  rewrite <- Zle_Qle.
  apply sqrt_mant_le.
  - apply Z.pow_nonneg. lia.
  - apply sqrt_scaled_nonneg. exact Hq.
  - rewrite <- (pow2_square_on_grid k (sqrt_exp prec emin q) Hk).
    unfold sqrt_scaled.
    apply Qmult_lt_r; [apply Qinv_lt_0_compat, pow2_pos | exact Hlt].
Qed.

Lemma sqrt_pos_ge_pow2 (q : Q) (k : Z) :
  0 < q -> (sqrt_exp prec emin q <= k)%Z -> pow2 (2 * k) <= q ->
  pow2 k <= sqrt_pos prec emin q.
Proof.
  intros Hq Hk Hle. rewrite sqrt_pos_unfold.
  rewrite (pow2_on_grid k (sqrt_exp prec emin q) Hk).
  apply Qmult_le_compat_r; [| apply Qlt_le_weak, pow2_pos].
  rewrite <- Zle_Qle.
  apply sqrt_mant_ge.
  - apply Z.pow_nonneg. lia.
  - rewrite <- (pow2_square_on_grid k (sqrt_exp prec emin q) Hk).
    unfold sqrt_scaled.
    apply Qmult_le_compat_r; [exact Hle |].
    apply Qlt_le_weak, Qinv_lt_0_compat, pow2_pos.
Qed.

Lemma sqrt_pos_nonneg (q : Q) : 0 <= sqrt_pos prec emin q.
Proof.
  rewrite sqrt_pos_unfold.
  apply Qmult_le_0_compat; [| apply Qlt_le_weak, pow2_pos].
  change 0 with (inject_Z 0). rewrite <- Zle_Qle.
  pose proof (sqrt_mant_between (sqrt_scaled prec emin q)) as [H _].
  pose proof (Z.sqrt_nonneg (Qfloor (sqrt_scaled prec emin q))). lia.
Qed.

Lemma sqrt_pos_mono (p q : Q) :
  0 < p -> p <= q -> sqrt_pos prec emin p <= sqrt_pos prec emin q.
Proof.
  intros Hp Hpq.
  assert (Hq : 0 < q) by lra.
  pose proof (sqrt_exp_mono p q Hp Hpq) as Hex.
  destruct (Z.eq_dec (sqrt_exp prec emin p) (sqrt_exp prec emin q)) as [E | NE].
  - rewrite !sqrt_pos_unfold. rewrite E.
    apply Qmult_le_compat_r; [| apply Qlt_le_weak, pow2_pos].
    rewrite <- Zle_Qle. apply sqrt_mant_mono.
    + apply sqrt_scaled_nonneg. exact Hp.
    + unfold sqrt_scaled. rewrite E.
      apply Qmult_le_compat_r; [exact Hpq |].
      apply Qlt_le_weak, Qinv_lt_0_compat, pow2_pos.
  - assert (Hlt : (sqrt_exp prec emin p < sqrt_exp prec emin q)%Z) by lia.
    destruct (ilog2_spec p Hp) as [_ Hphi].
    destruct (ilog2_spec q Hq) as [Hqlo _].
    unfold sqrt_exp in Hlt.
    pose proof (Z.div_mod (ilog2 p) 2 ltac:(lia)) as Dp.
    pose proof (Z.mod_pos_bound (ilog2 p) 2 ltac:(lia)) as Mp.
    pose proof (Z.div_mod (ilog2 q) 2 ltac:(lia)) as Dq.
    pose proof (Z.mod_pos_bound (ilog2 q) 2 ltac:(lia)) as Mq.
    set (k := (ilog2 q / 2)%Z) in *.
    apply Qle_trans with (pow2 k).
    + apply sqrt_pos_le_pow2; [exact Hp | unfold sqrt_exp; lia |].
      apply Qlt_le_trans with (1 := Hphi). apply pow2_le. lia.
    + apply sqrt_pos_ge_pow2; [exact Hq | unfold sqrt_exp; fold k; lia |].
      apply Qle_trans with (2 := Hqlo). apply pow2_le. lia.
Qed.

End SqrtFacts.

Section Sqrt64Facts.
Import IEEE.
Local Open Scope Q_scope.

Lemma sqrt64_nonneg (q : Q) : 0 <= sqrt64 q.
Proof.
  unfold sqrt64. destruct (Qcompare q 0); try apply Qle_refl.
  rewrite Qred_correct. apply sqrt_pos_nonneg.
Qed.

Lemma sqrt64_mono (p q : Q) : p <= q -> sqrt64 p <= sqrt64 q.
Proof.
  intro H. unfold sqrt64.
  destruct (Qcompare_spec p 0) as [E | L | G];
    destruct (Qcompare_spec q 0) as [E' | L' | G']; try lra;
    try apply Qle_refl;
    try (rewrite Qred_correct; apply sqrt_pos_nonneg).
  rewrite !Qred_correct. apply sqrt_pos_mono; [lia | exact G | exact H].
Qed.

Lemma sqrt64_1 : sqrt64 1 = 1.
Proof. vm_compute. reflexivity. Qed.

Lemma sqrt64_quarter : sqrt64 (1 # 4) = 1 # 2.
Proof. vm_compute. reflexivity. Qed.

Lemma sqrt64_unit (q : Q) : q <= 1 -> 0 <= sqrt64 q <= 1.
Proof.
  intro H. split; [apply sqrt64_nonneg |].
  rewrite <- sqrt64_1. apply sqrt64_mono. exact H.
Qed.

End Sqrt64Facts.

(* ================================================================== *)
(** * How far rounding moves a value *)
(* ================================================================== *)

Section RoundError.
Import IEEE.
Local Open Scope Q_scope.

Lemma rne_error (s : Q) :
  s - (1 # 2) <= inject_Z (rne s) <= s + (1 # 2).
Proof.
  unfold rne. pose proof (Qfloor_le s) as Hlo. pose proof (Qlt_floor s) as Hhi.
  rewrite inject_Z_plus in Hhi. change (inject_Z 1) with 1 in Hhi.
  destruct (Qcompare_spec (s - inject_Z (Qfloor s)) (1 # 2)) as [E | L | G].
  - destruct (Z.even (Qfloor s)).
    + split; lra.
    + rewrite inject_Z_plus. change (inject_Z 1) with 1. split; lra.
  - split; lra.
  - rewrite inject_Z_plus. change (inject_Z 1) with 1. split; lra.
Qed.

Variables prec emin : Z.

Lemma round_pos_error (q : Q) :
  0 < q ->
  q - pow2 (ulp_exp prec emin q) * (1 # 2)
  <= round_pos prec emin q
  <= q + pow2 (ulp_exp prec emin q) * (1 # 2).
Proof.
  intro Hq. unfold round_pos.
  set (ex := ulp_exp prec emin q).
  pose proof (pow2_pos ex) as HP.
  pose proof (rne_error (q / pow2 ex)) as [Hlo Hhi].
  assert (E : q / pow2 ex * pow2 ex == q) by (field; lra).
  set (r := inject_Z (rne (q / pow2 ex))) in *.
  set (sc := q / pow2 ex) in *.
  set (P := pow2 ex) in *.
  split; nra.
Qed.

Lemma ulp_bound (q : Q) :
  0 < q ->
  pow2 (ulp_exp prec emin q) <= q * pow2 (1 - prec) + pow2 emin.
Proof.
  intro Hq. unfold ulp_exp.
  destruct (ilog2_spec q Hq) as [Hlo _].
  pose proof (pow2_pos emin) as He. pose proof (pow2_pos (1 - prec)) as Hp.
  destruct (Z.max_spec (ilog2 q - prec + 1) emin) as [[_ ->] | [_ ->]].
  - nra.
  - replace (ilog2 q - prec + 1)%Z with (ilog2 q + (1 - prec))%Z by ring.
    rewrite pow2_add. nra.
Qed.

(** Rounding moves a non-negative value by at most half a unit in the
    last place: a relative [2^-prec], or half the smallest subnormal. *)
Lemma round_error (q : Q) :
  0 <= q ->
  q - (q * pow2 (- prec) + pow2 (emin - 1))
  <= round prec emin q
  <= q + (q * pow2 (- prec) + pow2 (emin - 1)).
Proof.
  intro Hq. unfold round.
  pose proof (pow2_pos (- prec)) as Hu. pose proof (pow2_pos (emin - 1)) as He.
  destruct (Qcompare_spec q 0) as [E | L | G].
  - rewrite E. split; nra.
  - lra.
  - rewrite Qred_correct.
    pose proof (round_pos_error q G) as [Hlo Hhi].
    pose proof (ulp_bound q G) as Hb.
    assert (E1 : pow2 (1 - prec) == 2 * pow2 (- prec)).
    { replace (1 - prec)%Z with (1 + - prec)%Z by ring. rewrite pow2_add. reflexivity. }
    assert (E2 : pow2 emin == 2 * pow2 (emin - 1)).
    { replace emin with (1 + (emin - 1))%Z at 1 by ring. rewrite pow2_add. reflexivity. }
    rewrite E1, E2 in Hb.
    set (P := pow2 (ulp_exp prec emin q)) in *.
    set (u := pow2 (- prec)) in *. set (eta := pow2 (emin - 1)) in *.
    split; nra.
Qed.

End RoundError.

Section Closeness.
Import IEEE.
Local Open Scope Q_scope.

(** For the values of the pipeline a coarse form is enough: either
    format keeps a non-negative [q] within [(q + 1) * eps]. *)

Lemma B32_close (q : Q) :
  0 <= q -> q - (q + 1) * eps <= B32 q <= q + (q + 1) * eps.
Proof.
  intro Hq. pose proof (round_error 24 (-149) q Hq) as [Hlo Hhi].
  fold B32 in Hlo, Hhi.
  assert (U : pow2 (Z.opp 24) == eps) by reflexivity.
  assert (E : pow2 (-149 - 1) <= eps) by (vm_compute; discriminate).
  rewrite U in Hlo, Hhi. unfold eps in *. split; lra.
Qed.

Lemma B64_close (q : Q) :
  0 <= q -> q - (q + 1) * eps <= B64 q <= q + (q + 1) * eps.
Proof.
  intro Hq. pose proof (round_error 53 (-1074) q Hq) as [Hlo Hhi].
  fold B64 in Hlo, Hhi.
  assert (U : pow2 (Z.opp 53) <= eps) by (vm_compute; discriminate).
  assert (E : pow2 (-1074 - 1) <= eps) by (vm_compute; discriminate).
  pose proof (pow2_pos (Z.opp 53)) as Hu0.
  set (u := pow2 (Z.opp 53)) in *. set (eta := pow2 (-1074 - 1)) in *.
  assert (Hqu : q * u <= q * eps).
  { apply Qmult_le_compat_nonneg; split; lra. }
  unfold eps in *. split; lra.
Qed.

End Closeness.

(* ================================================================== *)
(** * The sample library keeps the contracts *)
(* ================================================================== *)

Module SampleFacts.
Import IEEE Sample.
Local Open Scope Q_scope.

Lemma ipow_unit (x : Q) (n : nat) : 0 <= x <= 1 -> 0 <= ipow x n <= 1.
Proof.
  intros [H0 H1]. induction n as [| n IH]; cbn [ipow].
  - split; discriminate.
  - destruct IH as [I0 I1]. apply B64_unit. split.
    + apply Qmult_le_0_compat; assumption.
    + apply Qle_trans with (1 * ipow x n); [| lra].
      apply Qmult_le_compat_r; assumption.
Qed.

Lemma pow_frac_unit (bits : nat) (root y acc : Q) :
  0 <= root <= 1 -> 0 <= acc <= 1 -> 0 <= pow_frac bits root y acc <= 1.
Proof.
  revert root y acc. induction bits as [| n IH]; intros root y acc Hr Ha;
    cbn [pow_frac].
  - exact Ha.
  - pose proof (sqrt64_unit root (proj2 Hr)) as Hs.
    cbv zeta. destruct (Qle_bool 1 (Qred (y * 2))).
    + apply IH; [exact Hs |]. apply B64_unit.
      destruct Ha as [A0 A1]. destruct Hs as [S0 S1]. split.
      * apply Qmult_le_0_compat; assumption.
      * apply Qle_trans with (1 * sqrt64 root); [| lra].
        apply Qmult_le_compat_r; assumption.
    + apply IH; assumption.
Qed.

(** The contract the pipeline relies on: a base of the unit interval
    has its powers in the unit interval. *)
Lemma power_unit (x y : Q) : 0 <= x <= 1 -> 0 <= power x y <= 1.
Proof.
  intro H. unfold power. apply pow_frac_unit; [exact H |]. apply ipow_unit. exact H.
Qed.

Lemma blur_same_size (radius : Q) (img : Image) : same_size (blur radius img) img.
Proof. unfold blur. apply build_over_same_size. Qed.

Lemma blend_same_size (a b : Image) (alpha : Q) : same_size (blend a b alpha) a.
Proof. unfold blend. apply build_over_same_size. Qed.

Lemma draw_text_same_size (img : Image) (xy : Z * Z) (s : String.string)
    (f : Font) (color : pixel) :
  same_size (draw_text img xy s f color) img.
Proof.
  destruct xy as [x0 y0]. unfold draw_text, textbbox.
  apply build_over_same_size.
Qed.

Lemma chop_displayable (v : Z) : displayable (chop v).
Proof. unfold displayable, chop. lia. Qed.

Lemma blend_in_range (a b : Image) (alpha : Q) : in_range (blend a b alpha).
Proof.
  unfold blend. apply in_range_build. intros x y _ _.
  unfold px_displayable. cbn [red green blue fst snd].
  split; [| split]; apply chop_displayable.
Qed.

End SampleFacts.

(* ================================================================== *)
(** * The radial masks *)
(* ================================================================== *)

(** Rounding and the rounded root respect the equality of rationals. *)
#[global] Instance B32_proper : Proper (Qeq ==> Qeq) IEEE.B32.
Proof.
  intros p q E. apply Qle_antisym; apply B32_mono; rewrite E; apply Qle_refl.
Qed.

#[global] Instance B64_proper : Proper (Qeq ==> Qeq) IEEE.B64.
Proof.
  intros p q E. apply Qle_antisym; apply B64_mono; rewrite E; apply Qle_refl.
Qed.

#[global] Instance sqrt64_proper : Proper (Qeq ==> Qeq) IEEE.sqrt64.
Proof.
  intros p q E. apply Qle_antisym; apply sqrt64_mono; rewrite E; apply Qle_refl.
Qed.

Section Radial.
Import IEEE.
Local Open Scope Q_scope.

Lemma Qopp_opp_eq (q : Q) : - - q = q.
Proof. destruct q as [n d]. unfold Qopp. simpl. rewrite Z.opp_involutive. reflexivity. Qed.

Lemma round_opp (prec emin : Z) (q : Q) :
  round prec emin (- q) == - round prec emin q.
Proof.
  unfold round.
  destruct (Qcompare_spec q 0) as [E | L | G];
    destruct (Qcompare_spec (- q) 0) as [E' | L' | G']; try lra.
  - rewrite !Qred_correct. lra.
  - rewrite Qopp_opp_eq. rewrite !Qred_correct. reflexivity.
Qed.

(** A positive rational on the grid of its own binade is a float. *)
Lemma round_on_grid (prec emin : Z) (q : Q) (n : Z) :
  0 < q -> q == inject_Z n * pow2 (ulp_exp prec emin q) ->
  round prec emin q == q.
Proof.
  intros Hq Hn. unfold round.
  destruct (Qcompare_spec q 0) as [E | L | G]; try lra.
  rewrite Qred_correct. apply Qle_antisym.
  - rewrite Hn at 2. apply round_pos_le_grid. rewrite <- Hn. apply Qle_refl.
  - rewrite Hn at 1. apply round_pos_ge_grid. rewrite <- Hn. apply Qle_refl.
Qed.

(** Half of a size is a [float64]. *)
Lemma half_exact (w : Z) :
  (0 < w < 2 ^ 53)%Z -> B64 (Zq w / 2) == Zq w / 2.
Proof.
  intros [H0 H1]. unfold Zq.
  assert (Hq : 0 < inject_Z w / 2).
  { apply Qlt_shift_div_l; [reflexivity |]. rewrite Qmult_0_l.
    change 0 with (inject_Z 0). rewrite <- Zlt_Qlt. exact H0. }
  destruct (ilog2_spec _ Hq) as [Hlo _].
  assert (Hlt : inject_Z w / 2 < pow2 52).
  { apply Qlt_shift_div_r; [reflexivity |].
    rewrite pow2_nonneg_Z by lia.
    change 2 with (inject_Z 2).
    rewrite <- inject_Z_mult. rewrite <- Zlt_Qlt. lia. }
  assert (He : (ilog2 (inject_Z w / 2) < 52)%Z).
  { apply pow2_lt_inv. apply Qle_lt_trans with (1 := Hlo). exact Hlt. }
  set (ex := ulp_exp 53 (-1074) (inject_Z w / 2)).
  assert (Hex : (ex <= -1)%Z) by (unfold ex, ulp_exp; lia).
  apply (round_on_grid 53 (-1074) _ (w * 2 ^ (-1 - ex))); [exact Hq |].
  fold ex. rewrite inject_Z_mult.
  rewrite <- Qmult_assoc. rewrite <- (pow2_on_grid (-1) ex Hex).
  change (pow2 (-1)) with (1 # 2). field.
Qed.

Lemma Qmax_absorb (a b : Q) : b <= a -> Qmax a b = a.
Proof.
  intro H. unfold Qmax, GenericMinMax.gmax.
  destruct (Qcompare_spec a b) as [E | L | G]; try reflexivity. lra.
Qed.

Lemma fold_max_head (l : list Q) (a : Q) :
  (forall b, In b l -> b <= a) -> fold_left Qmax l a = a.
Proof.
  induction l as [| b l IH]; intro H; simpl; [reflexivity |].
  rewrite Qmax_absorb by (apply H; left; reflexivity).
  apply IH. intros c Hc. apply H. right. exact Hc.
Qed.

Lemma square_le (a c : Q) : - c <= a <= c -> a * a <= c * c.
Proof. intros [H0 H1]. nra. Qed.

(** On a grid whose centre is [(cx, cy)] with [x <= 2 cx] and
    [y <= 2 cy] throughout, no pixel is farther from the centre than
    the corner pixel [(0, 0)]. *)
Lemma radius_at_corner_max (cx cy : Q) (x y : Z) :
  0 <= Zq x <= 2 * cx -> 0 <= Zq y <= 2 * cy ->
  radius_at cx cy x y <= radius_at cx cy 0 0.
Proof.
  intros Hx Hy. unfold radius_at.
  apply sqrt64_mono. apply B64_mono.
  assert (Hsq : forall c v, 0 <= Zq v <= 2 * c ->
            B64 (B64 (Zq v - c) * B64 (Zq v - c))
            <= B64 (B64 (Zq 0 - c) * B64 (Zq 0 - c))).
  { intros c v Hv. apply B64_mono.
    assert (E0 : B64 (Zq 0 - c) == - B64 c).
    { assert (E : Zq 0 - c == - c) by (unfold Zq; ring).
      rewrite E. apply round_opp. }
    rewrite E0.
    setoid_replace (- B64 c * - B64 c) with (B64 c * B64 c) by ring.
    apply square_le. split.
    - rewrite <- E0. apply B64_mono. unfold Zq in *.
      change (inject_Z 0) with 0. lra.
    - apply B64_mono. lra. }
  pose proof (Hsq cx x Hx). pose proof (Hsq cy y Hy). lra.
Qed.

Lemma in_radii (w h : Z) (cx cy r : Q) :
  In r (radii w h cx cy) ->
  exists x y, (0 <= x < w)%Z /\ (0 <= y < h)%Z /\ r = radius_at cx cy x y.
Proof.
  unfold radii. intro H. apply in_concat in H.
  destruct H as [row [Hrow Hr]].
  apply in_tabulate in Hrow. destruct Hrow as [y [Hy ->]].
  apply in_tabulate in Hr. destruct Hr as [x [Hx ->]].
  exists x, y. split; [exact Hx | split; [exact Hy | reflexivity]].
Qed.

Lemma radii_head (w h : Z) (cx cy : Q) :
  (0 < w)%Z -> (0 < h)%Z ->
  exists rest, radii w h cx cy = radius_at cx cy 0 0 :: rest
               /\ forall r, In r rest -> In r (radii w h cx cy).
Proof.
  intros Hw Hh. unfold radii, tabulate.
  destruct (Z.to_nat h) as [| h'] eqn:Eh; [lia |].
  destruct (Z.to_nat w) as [| w'] eqn:Ew; [lia |].
  cbn [seq map concat app].
  eexists. split; [reflexivity |].
  intros r Hr. right. exact Hr.
Qed.

(** [r.max()] is the distance of the corner pixel, and it is not zero. *)
Lemma rmax_is_corner (w h : Z) :
  (0 < w < 2 ^ 53)%Z -> (0 < h < 2 ^ 53)%Z ->
  np_max (radii w h (B64 (Zq w / 2)) (B64 (Zq h / 2)))
  = Ok (radius_at (B64 (Zq w / 2)) (B64 (Zq h / 2)) 0 0).
Proof.
  intros Hw Hh.
  destruct (radii_head w h (B64 (Zq w / 2)) (B64 (Zq h / 2))) as [rest [E Hin]];
    try lia.
  rewrite E. unfold np_max. f_equal.
  apply fold_max_head. intros b Hb.
  apply Hin in Hb. apply in_radii in Hb.
  destruct Hb as [x [y [Hx [Hy ->]]]].
  pose proof (half_exact w Hw) as Ew. pose proof (half_exact h Hh) as Eh'.
  apply radius_at_corner_max.
  - unfold Zq in *. rewrite Ew.
    assert (H1 : inject_Z 0 <= inject_Z x) by (rewrite <- Zle_Qle; lia).
    assert (H2 : inject_Z x <= inject_Z w) by (rewrite <- Zle_Qle; lia).
    change (inject_Z 0) with 0 in H1. split; [exact H1 |].
    setoid_replace (2 * (inject_Z w / 2)) with (inject_Z w) by field. exact H2.
  - unfold Zq in *. rewrite Eh'.
    assert (H1 : inject_Z 0 <= inject_Z y) by (rewrite <- Zle_Qle; lia).
    assert (H2 : inject_Z y <= inject_Z h) by (rewrite <- Zle_Qle; lia).
    change (inject_Z 0) with 0 in H1. split; [exact H1 |].
    setoid_replace (2 * (inject_Z h / 2)) with (inject_Z h) by field. exact H2.
Qed.

Lemma corner_radius_positive (w h : Z) :
  (0 < w < 2 ^ 53)%Z ->
  (1 # 2) <= radius_at (B64 (Zq w / 2)) (B64 (Zq h / 2)) 0 0.
Proof.
  intros Hw. unfold radius_at.
  rewrite <- sqrt64_quarter. apply sqrt64_mono.
  assert (Hq : forall a, (1 # 4) <= a -> (1 # 4) <= B64 a).
  { intros a Ha. apply round_ge_float; [lia | vm_compute; reflexivity | exact Ha]. }
  assert (Hn : forall a, 0 <= B64 (a * a)).
  { intro a. apply round_nonneg. nra. }
  apply Hq.
  assert (Hx : (1 # 4) <= B64 (B64 (Zq 0 - B64 (Zq w / 2)) * B64 (Zq 0 - B64 (Zq w / 2)))).
  { apply Hq.
    assert (Hd : B64 (Zq 0 - B64 (Zq w / 2)) <= - (1 # 2)).
    { apply round_le_float; [lia | vm_compute; reflexivity |].
      rewrite (half_exact w Hw). unfold Zq.
      assert (H1 : inject_Z 1 <= inject_Z w) by (rewrite <- Zle_Qle; lia).
      change (inject_Z 1) with 1 in H1. change (inject_Z 0) with 0. lra_halves. }
    nra. }
  pose proof (Hn (B64 (Zq 0 - B64 (Zq h / 2)))). lra.
Qed.

End Radial.

(* ================================================================== *)
(** * The background glow *)
(* ================================================================== *)

Section Background.
Import IEEE.
Local Open Scope Q_scope.

Variable np_power : Q -> Q -> Q.

Lemma Image_new_ok (w h : Z) (c : pixel) :
  (0 <= w)%Z -> (0 <= h)%Z -> Image_new w h c = Ok (build w h (fun _ _ => c)).
Proof.
  intros Hw Hh. unfold Image_new.
  replace ((w <? 0)%Z || (h <? 0)%Z) with false; [reflexivity |].
  symmetry. apply orb_false_iff. split; apply Z.ltb_ge; assumption.
Qed.

Lemma crt_background_eq (w h : Z) (tint : pixel) (strength rmax : Q) :
  (0 <= w)%Z -> (0 <= h)%Z ->
  np_max (radii w h (B64 (Zq w / 2)) (B64 (Zq h / 2))) = Ok rmax ->
  crt_background np_power (w, h) tint strength
  = Ok (ImageChops_add (build w h (fun _ _ => BG))
          (build w h (fun x y =>
             map_px (fun t =>
               finish (glow_at t
                 (glow_mask np_power (B64 (Zq w / 2)) (B64 (Zq h / 2)) rmax
                    strength x y))) tint))).
Proof.
  intros Hw Hh E. unfold crt_background.
  rewrite Image_new_ok by assumption. cbn [rbind].
  rewrite E. reflexivity.
Qed.

Lemma chop_id (v : Z) : displayable v -> chop (0 + v) = v.
Proof. unfold displayable, chop. lia. Qed.

Lemma ImageChops_add_same_size (a b : Image) : same_size (ImageChops_add a b) a.
Proof. unfold ImageChops_add. apply build_over_same_size. Qed.

Lemma ImageChops_add_in_range (a b : Image) : in_range (ImageChops_add a b).
Proof.
  unfold ImageChops_add. apply in_range_build. intros x y _ _.
  unfold px_displayable. cbn [red green blue fst snd].
  split; [| split]; unfold displayable, chop; lia.
Qed.

(** Adding over black leaves the glow as it is. *)
Lemma add_over_black (w h : Z) (g : Z -> Z -> pixel) (x y : Z) :
  (0 <= x < w)%Z -> (0 <= y < h)%Z -> px_displayable (g x y) ->
  getpixel (ImageChops_add (build w h (fun _ _ => BG)) (build w h g)) x y = g x y.
Proof.
  intros Hx Hy Hg. unfold ImageChops_add, getpixel.
  rewrite (width_build w h) by lia. rewrite (height_build w h) by lia.
  rewrite (get_build black w h) by assumption.
  rewrite (get_build black w h (fun _ _ => BG)) by assumption.
  rewrite (get_build black w h g) by assumption.
  destruct Hg as [Hr [Hg Hb]].
  unfold BG. cbn [red green blue fst snd].
  rewrite !chop_id by assumption.
  destruct (g x y) as [[r gg] b]. reflexivity.
Qed.

Lemma crt_background_defined (w h : Z) (tint : pixel) (strength : Q) :
  (0 < w)%Z -> (0 < h)%Z ->
  exists img, crt_background np_power (w, h) tint strength = Ok img
              /\ width img = w /\ height img = h /\ in_range img.
Proof.
  intros Hw Hh.
  destruct (np_max_ok _ (radii_nonempty w h (B64 (Zq w / 2)) (B64 (Zq h / 2)) Hw Hh))
    as [rmax E].
  eexists. split; [apply (crt_background_eq w h tint strength rmax); try lia; exact E |].
  destruct (ImageChops_add_same_size (build w h (fun _ _ => BG))
              (build w h (fun x y =>
                 map_px (fun t =>
                   finish (glow_at t
                     (glow_mask np_power (B64 (Zq w / 2)) (B64 (Zq h / 2)) rmax
                        strength x y))) tint))) as [Ew Eh].
  rewrite Ew, Eh. rewrite width_build, height_build by lia.
  repeat split. apply ImageChops_add_in_range.
Qed.

(** The background needs a pixel: an empty size has no farthest one. *)
Lemma crt_background_empty (w h : Z) (tint : pixel) (strength : Q) :
  (w <= 0)%Z \/ (h <= 0)%Z ->
  crt_background np_power (w, h) tint strength = Raise ValueError.
Proof.
  intro H. unfold crt_background, Image_new.
  destruct ((w <? 0)%Z || (h <? 0)%Z); [reflexivity |]. cbn [rbind].
  rewrite radii_empty by exact H. reflexivity.
Qed.

Section Bounds.
Hypothesis np_power_unit :
  forall r y, 0 <= r <= 1 -> 0 <= y -> 0 <= np_power r y <= 1.

Variables (cx cy rmax strength : Q) (x y : Z).
Hypothesis rmax_pos : 0 < rmax.
Hypothesis radius_le : radius_at cx cy x y <= rmax.

Lemma radius_at_nonneg : 0 <= radius_at cx cy x y.
Proof. unfold radius_at. apply sqrt64_nonneg. Qed.

Lemma normalised_unit : 0 <= normalised cx cy rmax x y <= 1.
Proof.
  unfold normalised. apply B64_unit. pose proof radius_at_nonneg. split.
  - apply Qle_shift_div_l; [exact rmax_pos | lra].
  - apply Qle_shift_div_r; [exact rmax_pos | lra].
Qed.

Lemma falloff_unit :
  0 <= B64 (1 - np_power (normalised cx cy rmax x y) (lit (18 # 10))) <= 1.
Proof.
  apply B64_unit.
  assert (Hy : 0 <= lit (18 # 10)) by (vm_compute; discriminate).
  pose proof (np_power_unit _ _ normalised_unit Hy). lra.
Qed.

Lemma glow_mask_le_1 : strength <= 1 -> glow_mask np_power cx cy rmax strength x y <= 1.
Proof.
  intro Hs. unfold glow_mask.
  apply round_le_float; [lia | vm_compute; reflexivity |].
  pose proof falloff_unit. nra.
Qed.

Lemma glow_mask_nonneg : 0 <= strength -> 0 <= glow_mask np_power cx cy rmax strength x y.
Proof.
  intro Hs. unfold glow_mask. apply round_nonneg.
  pose proof falloff_unit. nra.
Qed.

Lemma tint_unit (t : Z) : displayable t -> 0 <= B64 (Zq t / 255) <= 1.
Proof.
  intros [H0 H1]. apply B64_unit. unfold Zq.
  assert (A : inject_Z 0 <= inject_Z t) by (rewrite <- Zle_Qle; exact H0).
  assert (B : inject_Z t <= inject_Z 255) by (rewrite <- Zle_Qle; exact H1).
  change (inject_Z 0) with 0 in A. change (inject_Z 255) with 255 in B.
  split.
  - apply Qle_shift_div_l; [reflexivity | lra].
  - apply Qle_shift_div_r; [reflexivity | lra].
Qed.

(** The glow never saturates, and with a non-negative strength the
    clip leaves it alone altogether. *)
Lemma glow_at_le_1 (t : Z) (mask : Q) :
  displayable t -> mask <= 1 -> glow_at t mask <= 1.
Proof.
  intros Ht Hm. unfold glow_at. pose proof (tint_unit t Ht) as Hu.
  rewrite <- B32_1. apply B32_mono. rewrite <- B64_1. apply B64_mono. nra.
Qed.

Lemma glow_at_nonneg (t : Z) (mask : Q) :
  displayable t -> 0 <= mask -> 0 <= glow_at t mask.
Proof.
  intros Ht Hm. unfold glow_at. pose proof (tint_unit t Ht) as Hu.
  rewrite <- B32_0. apply B32_mono. rewrite <- B64_0. apply B64_mono. nra.
Qed.

End Bounds.

End Background.

(* ================================================================== *)
(** * The sequence renderer *)
(* ================================================================== *)

Lemma bind_eq {A B} (c : M A) (k : A -> M B) (s s' : Rng) (a : A) :
  c s = Ok (a, s') -> bind c k s = k a s'.
Proof. intro H. unfold bind. rewrite H. reflexivity. Qed.

Lemma lift_eq {A} (c : result A) (a : A) (s : Rng) :
  c = Ok a -> lift c s = Ok (a, s).
Proof. intros ->. reflexivity. Qed.

Section Render.
Import IEEE.

Variable np_power : Q -> Q -> Q.
Variable GaussianBlur : Q -> Image -> Image.
Variable Image_blend : Image -> Image -> Q -> Image.
Variable Font : Type.
Variable truetype : String.string -> Z -> option Font.
Variable load_default : Font.
Variable textbbox : Font -> String.string -> Z * Z * Z * Z.
Variable draw_text : Image -> Z * Z -> String.string -> Font -> pixel -> Image.

(** What the embedding asks of Pillow: blurring, blending with an image
    of the same size and drawing text keep the size of the image. *)
Hypothesis GaussianBlur_same_size :
  forall radius img, same_size (GaussianBlur radius img) img.
Hypothesis Image_blend_same_size :
  forall a b alpha, same_size b a -> same_size (Image_blend a b alpha) a.
Hypothesis draw_text_same_size :
  forall img xy s font color, same_size (draw_text img xy s font color) img.

Lemma rendered_length size font font_px indices s frames s' :
  rendered np_power GaussianBlur Image_blend textbbox draw_text
    size font font_px indices s frames s' ->
  length frames = length indices.
Proof. induction 1; simpl; congruence. Qed.

Lemma glitch_ok (i : Z) (frame : Image) (s : Rng) :
  6 <= height frame ->
  exists out s', glitch i frame s = Ok (out, s') /\ same_size out frame.
Proof.
  intro Hh. unfold glitch.
  destruct (existsb (Z.eqb i) CHROMA_GLITCH_FRAMES).
  - destruct (chroma_shift_same_size frame CHROMA_SHIFT_PX) as [Ew Eh].
    destruct (tearing_defined (chroma_shift frame CHROMA_SHIFT_PX) TEAR_SHIFT_PX (2, 4)
                ltac:(lia) ltac:(simpl; lia) s) as [out [s' E]].
    exists out, s'. split; [exact E |].
    eapply same_size_trans; [eapply tearing_same_size; exact E |].
    split; assumption.
  - destruct (total_random s) as [u [s1 Eu]].
    rewrite (bind_eq _ _ _ _ _ Eu).
    destruct (Qlt_le_dec u TEAR_PROB).
    + destruct (tearing_defined frame (TEAR_SHIFT_PX / 2) TEAR_BANDS
                  Hh ltac:(simpl; lia) s1) as [out [s' E]].
      exists out, s'. split; [exact E |]. eapply tearing_same_size; exact E.
    + exists frame, s1. split; [reflexivity | apply same_size_refl].
Qed.

Lemma render_frame_ok (w h : Z) (font : Font) (font_px i : Z) (s : Rng) :
  2 <= w -> 6 <= h ->
  exists frame s',
    render_frame np_power GaussianBlur Image_blend textbbox draw_text
      (w, h) font font_px i s = Ok (frame, s')
    /\ width frame = w /\ height frame = h /\ in_range frame.
Proof.
  intros Hw Hh. unfold render_frame.
  destruct (crt_background_defined np_power w h CRT_BG_TINT CRT_BG_STRENGTH
              ltac:(lia) ltac:(lia)) as [bg [Ebg [Wbg [Hbg _]]]].
  rewrite (bind_eq _ _ s s bg (lift_eq _ _ _ Ebg)).
  unfold center_text_block. cbv beta iota zeta.
  match goal with
  | |- context [glitch i ?f] => set (lit_frame := f)
  end.
  assert (S0 : same_size lit_frame bg).
  { unfold lit_frame.
    eapply same_size_trans; [apply Image_blend_same_size, GaussianBlur_same_size |].
    eapply same_size_trans; apply draw_text_same_size. }
  destruct S0 as [W0 H0].
  destruct (glitch_ok i lit_frame s ltac:(lia)) as [g [s1 [Eg [W1 H1]]]].
  rewrite (bind_eq _ _ _ _ _ Eg).
  destruct (apply_scanlines_same_size g SCANLINE_OPACITY) as [W2 H2].
  set (scan := apply_scanlines g SCANLINE_OPACITY) in *.
  destruct (vignette_defined np_power scan VIGNETTE_STRENGTH ltac:(lia) ltac:(lia))
    as [v Ev].
  destruct (vignette_same_size _ _ _ _ Ev) as [W3 H3].
  rewrite (bind_eq _ _ s1 s1 v (lift_eq _ _ _ Ev)).
  destruct (total_add_noise v NOISE_STRENGTH s1) as [n [s2 En]].
  destruct (add_noise_same_size _ _ _ _ _ En) as [W4 H4].
  rewrite (bind_eq _ _ _ _ _ En).
  destruct (total_flicker n FLICKER_MIN FLICKER_MAX s2) as [f [s3 Ef]].
  destruct (flicker_same_size _ _ _ _ _ _ Ef) as [W5 H5].
  pose proof (flicker_in_range _ _ _ _ _ _ Ef) as R5.
  rewrite (bind_eq _ _ _ _ _ Ef).
  destruct (barrel_distort_defined f CURVATURE_K ltac:(lia) ltac:(lia)) as [b Eb].
  destruct (barrel_distort_same_size _ _ _ Eb) as [W6 H6].
  rewrite (bind_eq _ _ s3 s3 b (lift_eq _ _ _ Eb)).
  exists b, s3. split; [reflexivity |].
  split; [lia | split; [lia |]].
  eapply barrel_distort_in_range; eassumption.
Qed.

(** On a size of fewer than four rows the kick of frame 0 has no room
    for a band: the loop raises before it has a single frame. *)
Lemma render_frame_raises_when_short (w h : Z) (font : Font) (font_px : Z)
    (s : Rng) :
  0 < w -> 0 < h < 4 ->
  render_frame np_power GaussianBlur Image_blend textbbox draw_text
    (w, h) font font_px 0 s = Raise ValueError.
Proof.
  intros Hw Hh. unfold render_frame.
  destruct (crt_background_defined np_power w h CRT_BG_TINT CRT_BG_STRENGTH
              ltac:(lia) ltac:(lia)) as [bg [Ebg [Wbg [Hbg _]]]].
  rewrite (bind_eq _ _ s s bg (lift_eq _ _ _ Ebg)).
  unfold center_text_block. cbv beta iota zeta.
  match goal with
  | |- context [glitch 0 ?f] => set (lit_frame := f)
  end.
  assert (S0 : same_size lit_frame bg).
  { unfold lit_frame.
    eapply same_size_trans; [apply Image_blend_same_size, GaussianBlur_same_size |].
    eapply same_size_trans; apply draw_text_same_size. }
  destruct S0 as [W0 H0].
  destruct (chroma_shift_same_size lit_frame CHROMA_SHIFT_PX) as [W1 H1].
  unfold bind at 1. unfold glitch. cbn [existsb CHROMA_GLITCH_FRAMES Z.eqb orb].
  rewrite tearing_raises_when_short; [reflexivity | lia | reflexivity | simpl; lia].
Qed.

Lemma render_sequence_raises_when_short (out_path : String.string)
    (w h font_px : Z) (s : Rng) :
  0 < w -> 0 < h < 4 ->
  render_sequence np_power GaussianBlur Image_blend truetype load_default
    textbbox draw_text out_path (w, h) font_px s = Raise ValueError.
Proof.
  intros Hw Hh. unfold render_sequence.
  change (tabulate FRAMES (fun i => i)) with (0 :: tabulate 47 (fun i => i + 1)).
  unfold bind at 1. cbn [render_loop]. unfold bind at 1.
  rewrite render_frame_raises_when_short by assumption. reflexivity.
Qed.

Lemma render_loop_ok (w h : Z) (font : Font) (font_px : Z) (indices : list Z) :
  2 <= w -> 6 <= h ->
  forall (frames : list Image) (s : Rng),
  exists new s',
    render_loop np_power GaussianBlur Image_blend textbbox draw_text
      (w, h) font font_px indices frames s = Ok (frames ++ new, s')
    /\ rendered np_power GaussianBlur Image_blend textbbox draw_text
         (w, h) font font_px indices s new s'
    /\ Forall (fun f => width f = w /\ height f = h /\ in_range f) new.
Proof.
  intros Hw Hh. induction indices as [| i rest IH]; intros frames s.
  - exists [], s. rewrite app_nil_r. repeat split; constructor.
  - destruct (render_frame_ok w h font font_px i s Hw Hh) as [f [s1 [Ef Hf]]].
    destruct (IH (frames ++ [f]) s1) as [new [s2 [El [Hr Hall]]]].
    exists (f :: new), s2. split; [| split].
    + cbn [render_loop]. rewrite (bind_eq _ _ _ _ _ Ef).
      rewrite El. rewrite <- app_assoc. reflexivity.
    + econstructor; eassumption.
    + constructor; assumption.
Qed.

Lemma render_sequence_ok (out_path : String.string) (w h font_px : Z) (s : Rng) :
  2 <= w -> 6 <= h ->
  exists frames s',
    render_sequence np_power GaussianBlur Image_blend truetype load_default
      textbbox draw_text out_path (w, h) font_px s
    = Ok (mkSaved out_path frames (B64 (Zq DURATION_MS / 1000)) 0, s')
    /\ rendered np_power GaussianBlur Image_blend textbbox draw_text
         (w, h) (load_font truetype load_default font_px) font_px
         (tabulate FRAMES (fun i => i)) s frames s'
    /\ Forall (fun f => width f = w /\ height f = h /\ in_range f) frames.
Proof.
  intros Hw Hh. unfold render_sequence.
  destruct (render_loop_ok w h (load_font truetype load_default font_px) font_px
              (tabulate FRAMES (fun i => i)) Hw Hh [] s) as [new [s' [El [Hr Hall]]]].
  exists new, s'. split; [| split; assumption].
  rewrite (bind_eq _ _ _ _ _ El). reflexivity.
Qed.

End Render.

(* ================================================================== *)
(** * The properties of the specification *)
(* ================================================================== *)

(** ** Short circuits (C6) *)

(** C6.  A stage whose parameter disables it hands its input back:
    barrel distortion with coefficient 0, tearing with a maximal shift
    of 0 or less (without touching the random generator), and the
    chroma shift with a shift of 0. *)
Theorem disabling_short_circuits (img : Image) (max_shift : Z) (bands : Z * Z)
    (s : Rng) :
  max_shift <= 0 ->
  barrel_distort img 0 = Ok img
  /\ tearing img max_shift bands s = Ok (img, s)
  /\ chroma_shift img 0 = img.
Proof.
  intro H. split; [reflexivity | split; [| reflexivity]].
  unfold tearing.
  replace (max_shift <=? 0) with true by (symmetry; apply Z.leb_le; exact H).
  reflexivity.
Qed.

Lemma disabling_short_circuits_witness :
  barrel_distort [[(1, 2, 3); (4, 5, 6)]] 0 = Ok [[(1, 2, 3); (4, 5, 6)]]
  /\ tearing [[(1, 2, 3); (4, 5, 6)]] (-2) (1, 3) (mkRng (fun _ => 0) 0)
     = Ok ([[(1, 2, 3); (4, 5, 6)]], mkRng (fun _ => 0) 0)
  /\ chroma_shift [[(1, 2, 3); (4, 5, 6)]] 0 = [[(1, 2, 3); (4, 5, 6)]].
Proof.
  apply (disabling_short_circuits [[(1, 2, 3); (4, 5, 6)]] (-2) (1, 3)
           (mkRng (fun _ => 0) 0)).
  lia.
Defined.

(** ** The chroma shift wraps around (C10) *)

Lemma get_band (f : pixel -> Z) (img : Image) (x y : Z) :
  f black = 0 -> get 0 (map (map f) img) x y = f (getpixel img x y).
Proof. intro H. rewrite <- H. apply get_map_map. Qed.

(** C10.  With a shift of one pixel or more the red channel of column
    [c] is the red channel of the input at column [(c + shift) mod w],
    the blue channel that of column [(c - shift) mod w], and the green
    channel is the input's own: what leaves the frame at one edge comes
    back in at the other. *)
Theorem chroma_shift_wraps (img : Image) (shift_px c y : Z) :
  1 <= shift_px -> 0 <= c < width img -> 0 <= y < height img ->
  red (getpixel (chroma_shift img shift_px) c y)
  = red (getpixel img ((c + shift_px) mod width img) y)
  /\ blue (getpixel (chroma_shift img shift_px) c y)
     = blue (getpixel img ((c - shift_px) mod width img) y)
  /\ green (getpixel (chroma_shift img shift_px) c y)
     = green (getpixel img c y).
Proof.
  intros Hs Hc Hy. unfold chroma_shift.
  replace (shift_px <=? 0) with false by (symmetry; apply Z.leb_gt; lia).
  unfold split, merge, getpixel.
  destruct (offset_same_size 0 (map (map red) img) (- shift_px) 0) as [Ew Eh].
  destruct (map_map_same_size red img) as [Ew1 Eh1].
  destruct (map_map_same_size blue img) as [Ew2 Eh2].
  rewrite (get_build black) by (rewrite ?Ew, ?Eh, ?Ew1, ?Eh1; assumption).
  cbn [red green blue fst snd].
  rewrite !get_offset by (rewrite ?Ew1, ?Eh1, ?Ew2, ?Eh2; assumption).
  rewrite Ew1, Eh1, Ew2, Eh2.
  rewrite !get_band by reflexivity.
  replace (c - - shift_px) with (c + shift_px) by ring.
  replace (y - 0) with y by ring.
  rewrite (Z.mod_small y (height img)) by assumption.
  repeat split.
Qed.

Lemma chroma_shift_wraps_witness :
  red (getpixel (chroma_shift [[(1, 2, 3); (4, 5, 6); (7, 8, 9)]] 1) 2 0)
  = red (getpixel [[(1, 2, 3); (4, 5, 6); (7, 8, 9)]] ((2 + 1) mod 3) 0)
  /\ blue (getpixel (chroma_shift [[(1, 2, 3); (4, 5, 6); (7, 8, 9)]] 1) 2 0)
     = blue (getpixel [[(1, 2, 3); (4, 5, 6); (7, 8, 9)]] ((2 - 1) mod 3) 0)
  /\ green (getpixel (chroma_shift [[(1, 2, 3); (4, 5, 6); (7, 8, 9)]] 1) 2 0)
     = green (getpixel [[(1, 2, 3); (4, 5, 6); (7, 8, 9)]] 2 0).
Proof.
  apply (chroma_shift_wraps [[(1, 2, 3); (4, 5, 6); (7, 8, 9)]] 1 2 0);
    unfold width, height; simpl length; lia.
Defined.

(** ** Tearing on a short frame (C8) *)


(** ** The frame duration (C9) *)


Section Claims.
Import IEEE.

Variable np_power : Q -> Q -> Q.
Variable GaussianBlur : Q -> Image -> Image.
Variable Image_blend : Image -> Image -> Q -> Image.
Variable Font : Type.
Variable truetype : String.string -> Z -> option Font.
Variable load_default : Font.
Variable textbbox : Font -> String.string -> Z * Z * Z * Z.
Variable draw_text : Image -> Z * Z -> String.string -> Font -> pixel -> Image.



(** C1 (amended).  For every output size at least two pixels wide and
    six high, and every font size, the renderer returns, with exactly
    [FRAMES] = 48 frames, which are the frames of the indices 0..47 in
    that order, whatever the random generator delivers. *)
Theorem render_sequence_frame_count :
  (forall radius img, same_size (GaussianBlur radius img) img) ->
  (forall a b alpha, same_size b a -> same_size (Image_blend a b alpha) a) ->
  (forall img xy s font color, same_size (draw_text img xy s font color) img) ->
  forall out_path w h font_px s,
    2 <= w -> 6 <= h ->
    exists saved s',
      render_sequence np_power GaussianBlur Image_blend truetype load_default
        textbbox draw_text out_path (w, h) font_px s = Ok (saved, s')
      /\ Z.of_nat (length (saved_frames saved)) = FRAMES
      /\ length (saved_frames saved) = 48%nat
      /\ rendered np_power GaussianBlur Image_blend textbbox draw_text
           (w, h) (load_font truetype load_default font_px) font_px
           (map Z.of_nat (seq 0 48)) s (saved_frames saved) s'
      /\ Forall (fun f => width f = w /\ height f = h) (saved_frames saved).
Proof.
  intros Hblur Hblend Hdraw out_path w h font_px s Hw Hh.
  destruct (render_sequence_ok np_power GaussianBlur Image_blend Font truetype
              load_default textbbox draw_text Hblur Hblend Hdraw
              out_path w h font_px s Hw Hh) as [frames [s' [E [Hr Hall]]]].
  eexists. exists s'. split; [exact E |]. cbn [saved_frames].
  pose proof (rendered_length _ _ _ _ _ _ _ _ _ _ _ _ _ Hr) as Hlen.
  change (length (tabulate FRAMES (fun i => i))) with 48%nat in Hlen.
  split; [rewrite Hlen; reflexivity |].
  split; [exact Hlen |].
  split; [exact Hr |].
  eapply Forall_impl; [| exact Hall]. intros f [A [B _]]. split; assumption.
Qed.

End Claims.


(** C1, as stated, fails: on an output size of 8 by 3 the renderer
    raises [ValueError] in the tearing of the first frame and produces
    no frame at all. *)
Lemma render_sequence_raises_on_short_size :
  render_sequence Sample.power Sample.blur Sample.blend Sample.truetype
    Sample.load_default Sample.textbbox Sample.draw_text
    "out.gif"%string (8, 3) 52 (mkRng (fun _ => 0) 0)
  = Raise ValueError.
Proof. vm_compute. reflexivity. Qed.

(** C1 (amended) at the banner of the program, with the sample library. *)
Lemma render_sequence_frame_count_witness :
  exists saved s',
    render_sequence Sample.power Sample.blur Sample.blend Sample.truetype
      Sample.load_default Sample.textbbox Sample.draw_text
      "connecting_banner_1200x480.gif"%string (1200, 480) 52 (mkRng (fun _ => 0) 0)
    = Ok (saved, s')
    /\ Z.of_nat (length (saved_frames saved)) = FRAMES
    /\ length (saved_frames saved) = 48%nat
    /\ rendered Sample.power Sample.blur Sample.blend
         Sample.textbbox Sample.draw_text (1200, 480)
         (load_font Sample.truetype Sample.load_default 52) 52
         (map Z.of_nat (seq 0 48)) (mkRng (fun _ => 0) 0) (saved_frames saved) s'
    /\ Forall (fun f => width f = 1200 /\ height f = 480) (saved_frames saved).
Proof.
  apply (render_sequence_frame_count Sample.power Sample.blur Sample.blend
           Sample.Font Sample.truetype Sample.load_default Sample.textbbox
           Sample.draw_text SampleFacts.blur_same_size
           (fun a b alpha _ => SampleFacts.blend_same_size a b alpha)
           SampleFacts.draw_text_same_size); lia.
Defined.

(** ** The scripted kick and the coin flip (C4) *)

Lemma TEAR_PROB_half : TEAR_PROB = (1 # 2)%Q.
Proof. vm_compute. reflexivity. Qed.

Lemma random_bits_bounds (k : Z) : 0 <= random_bits k < 2 ^ 53.
Proof. unfold random_bits. apply Z.mod_pos_bound. reflexivity. Qed.

Lemma random_below_half (k : Z) :
  (inject_Z (random_bits k) / inject_Z (2 ^ 53) < 1 # 2)%Q
  <-> random_bits k < 2 ^ 52.
Proof.
  pose proof (random_bits_bounds k) as Hk.
  set (b := random_bits k) in *.
  assert (Hpos : (0 < inject_Z (2 ^ 53))%Q) by reflexivity.
  split; intro H.
  - apply (Qmult_lt_r _ _ _ Hpos) in H.
    setoid_replace (inject_Z b / inject_Z (2 ^ 53) * inject_Z (2 ^ 53))%Q
      with (inject_Z b) in H by (field; discriminate).
    setoid_replace ((1 # 2) * inject_Z (2 ^ 53))%Q with (inject_Z (2 ^ 52)) in H
      by reflexivity.
    rewrite <- Zlt_Qlt in H. exact H.
  - apply Qlt_shift_div_r; [exact Hpos |].
    setoid_replace ((1 # 2) * inject_Z (2 ^ 53))%Q with (inject_Z (2 ^ 52))
      by reflexivity.
    rewrite <- Zlt_Qlt. exact H.
Qed.



(** ** Dimensions (C2) and range (C3) *)

(** C2.  Every stage of the effects pipeline returns a frame of the
    width and height of its input; the blur and the blend of the bloom
    are Pillow's, which keep the size.  The stages that can raise keep
    the size whenever they return, and they do return on frames that
    are not too small. *)
Theorem stages_keep_dimensions :
  forall (np_power : Q -> Q -> Q) (GaussianBlur : Q -> Image -> Image)
         (Image_blend : Image -> Image -> Q -> Image),
  (forall radius img, same_size (GaussianBlur radius img) img) ->
  (forall a b alpha, same_size b a -> same_size (Image_blend a b alpha) a) ->
  forall img : Image,
    (forall opacity, same_size (apply_scanlines img opacity) img)
    /\ (forall radius gain,
          same_size (add_bloom_simple GaussianBlur Image_blend img radius gain) img)
    /\ (forall strength out,
          vignette np_power img strength = Ok out -> same_size out img)
    /\ (forall strength s,
          exists out s', add_noise img strength s = Ok (out, s')
                         /\ same_size out img)
    /\ (forall k out, barrel_distort img k = Ok out -> same_size out img)
    /\ (forall shift_px, same_size (chroma_shift img shift_px) img)
    /\ (forall max_shift bands s out s',
          tearing img max_shift bands s = Ok (out, s') -> same_size out img)
    /\ (forall low high s,
          exists out s', flicker img low high s = Ok (out, s')
                         /\ same_size out img)
    /\ (0 < width img -> 0 < height img ->
        forall strength, exists out, vignette np_power img strength = Ok out)
    /\ (2 <= width img -> 2 <= height img ->
        forall k, exists out, barrel_distort img k = Ok out)
    /\ (6 <= height img ->
        forall max_shift bands s, fst bands <= snd bands ->
        exists out s', tearing img max_shift bands s = Ok (out, s')).
Proof.
  intros np_power GaussianBlur Image_blend Hblur Hblend img.
  split; [intro; apply apply_scanlines_same_size |].
  split; [intros; unfold add_bloom_simple; apply Hblend, Hblur |].
  split; [intros strength out; apply vignette_same_size |].
  split.
  { intros strength s. destruct (total_add_noise img strength s) as [out [s' E]].
    exists out, s'. split; [exact E | eapply add_noise_same_size; exact E]. }
  split; [intros k out; apply barrel_distort_same_size |].
  split; [intro; apply chroma_shift_same_size |].
  split; [intros max_shift bands s out s'; apply tearing_same_size |].
  split.
  { intros low high s. destruct (total_flicker img low high s) as [out [s' E]].
    exists out, s'. split; [exact E | eapply flicker_same_size; exact E]. }
  split; [intros Hw Hh strength; apply vignette_defined; assumption |].
  split; [intros Hw Hh k; apply barrel_distort_defined; assumption |].
  intros Hh max_shift bands s Hb. apply tearing_defined; assumption.
Qed.

(** C3.  Every stage of the effects pipeline returns a frame whose
    channels all lie in 0..255, for every input frame with channels in
    that range (the numeric stages for any input at all): each ends in
    a clip to [0, 1] whose scaling by 255 never leaves 0..255, so the
    cast to bytes never wraps.  The blend of the bloom is Pillow's,
    which returns bytes. *)
Theorem stages_keep_channels_in_range :
  forall (np_power : Q -> Q -> Q) (GaussianBlur : Q -> Image -> Image)
         (Image_blend : Image -> Image -> Q -> Image),
  (forall a b alpha, in_range (Image_blend a b alpha)) ->
  forall img : Image,
    in_range img ->
    (forall opacity, in_range (apply_scanlines img opacity))
    /\ (forall radius gain,
          in_range (add_bloom_simple GaussianBlur Image_blend img radius gain))
    /\ (forall strength out,
          vignette np_power img strength = Ok out -> in_range out)
    /\ (forall strength s,
          exists out s', add_noise img strength s = Ok (out, s') /\ in_range out)
    /\ (forall k out, barrel_distort img k = Ok out -> in_range out)
    /\ (forall shift_px, in_range (chroma_shift img shift_px))
    /\ (forall max_shift bands s out s',
          tearing img max_shift bands s = Ok (out, s') -> in_range out)
    /\ (forall low high s,
          exists out s', flicker img low high s = Ok (out, s') /\ in_range out).
Proof.
  intros np_power GaussianBlur Image_blend Hblend img Himg.
  split; [intro; apply apply_scanlines_in_range |].
  split; [intros; unfold add_bloom_simple; apply Hblend |].
  split; [intros strength out; apply vignette_in_range |].
  split.
  { intros strength s. destruct (total_add_noise img strength s) as [out [s' E]].
    exists out, s'. split; [exact E | eapply add_noise_in_range; exact E]. }
  split; [intros k out; apply barrel_distort_in_range; exact Himg |].
  split; [intro; apply chroma_shift_in_range; exact Himg |].
  split; [intros max_shift bands s out s'; apply tearing_in_range; exact Himg |].
  intros low high s. destruct (total_flicker img low high s) as [out [s' E]].
  exists out, s'. split; [exact E | eapply flicker_in_range; exact E].
Qed.

(** C2 and C3 on a frame of two pixels, with the sample library. *)
Lemma stages_keep_dimensions_witness :
  same_size (apply_scanlines [[(10, 20, 30); (200, 100, 0)]] SCANLINE_OPACITY)
    [[(10, 20, 30); (200, 100, 0)]]
  /\ same_size (add_bloom_simple Sample.blur Sample.blend
                  [[(10, 20, 30); (200, 100, 0)]] BLOOM_RADIUS BLOOM_GAIN)
       [[(10, 20, 30); (200, 100, 0)]]
  /\ same_size (chroma_shift [[(10, 20, 30); (200, 100, 0)]] CHROMA_SHIFT_PX)
       [[(10, 20, 30); (200, 100, 0)]].
Proof.
  destruct (stages_keep_dimensions Sample.power Sample.blur Sample.blend
              SampleFacts.blur_same_size
              (fun a b alpha _ => SampleFacts.blend_same_size a b alpha)
              [[(10, 20, 30); (200, 100, 0)]])
    as [H1 [H2 [_ [_ [_ [H6 _]]]]]].
  split; [apply H1 | split; [apply H2 | apply H6]].
Defined.

Lemma stages_keep_channels_in_range_witness :
  in_range (apply_scanlines [[(10, 20, 30); (200, 100, 0)]] SCANLINE_OPACITY)
  /\ in_range (add_bloom_simple Sample.blur Sample.blend
                 [[(10, 20, 30); (200, 100, 0)]] BLOOM_RADIUS BLOOM_GAIN)
  /\ in_range (chroma_shift [[(10, 20, 30); (200, 100, 0)]] CHROMA_SHIFT_PX).
Proof.
  destruct (stages_keep_channels_in_range Sample.power Sample.blur Sample.blend
              SampleFacts.blend_in_range [[(10, 20, 30); (200, 100, 0)]])
    as [H1 [H2 [_ [_ [_ [H6 _]]]]]].
  - repeat constructor; unfold displayable; cbn [red green blue fst snd]; lia.
  - split; [apply H1 | split; [apply H2 | apply H6]].
Defined.

(* ================================================================== *)
(** * Scanlines on a uniform frame (C5) *)
(* ================================================================== *)

Section Scanlines.
Import IEEE.
Local Open Scope Q_scope.

(** Bytes survive the way to [float32] and back. *)
Lemma byte_roundtrip (v : Z) :
  displayable v -> finish (B32 (to_unit v * 1)) = v.
Proof.
  intro Hv.
  assert (H : forallb (fun v => (finish (B32 (to_unit v * 1)) =? v)%Z)
                (tabulate 256 (fun i => i)) = true) by (vm_compute; reflexivity).
  rewrite forallb_forall in H. apply Z.eqb_eq. apply H.
  unfold tabulate. apply in_map_iff. exists (Z.to_nat v).
  unfold displayable in Hv. split; [lia | apply in_seq; lia].
Qed.

Lemma finish_mono (p q : Q) : p <= q -> (finish p <= finish q)%Z.
Proof.
  intro H. unfold finish, to_byte.
  assert (Hb : forall x, 0 <= B32 (clip x 0 1 * 255)).
  { intro x. destruct (clip_bounds x 0 1) as [H0 _]; [discriminate |].
    apply (round_nonneg 24 (-149)). lra. }
  rewrite !trunc_nonneg by apply Hb.
  apply Qfloor_resp_le. apply B32_mono.
  pose proof (clip_mono p q 0 1 H). lra.
Qed.

Lemma to_unit_unit (v : Z) : displayable v -> 0 <= to_unit v <= 1.
Proof.
  intros [H0 H1]. unfold to_unit. apply B32_unit. unfold Zq.
  assert (A : inject_Z 0 <= inject_Z v) by (rewrite <- Zle_Qle; exact H0).
  assert (B : inject_Z v <= inject_Z 255) by (rewrite <- Zle_Qle; exact H1).
  change (inject_Z 0) with 0 in A. change (inject_Z 255) with 255 in B.
  split.
  - apply Qle_shift_div_l; [reflexivity | lra].
  - apply Qle_shift_div_r; [reflexivity | lra].
Qed.

Lemma dim_factor_unit (opacity : Q) :
  0 <= opacity <= 1 -> 0 <= B32 (B64 (1 - opacity)) <= 1.
Proof. intro H. apply B32_unit, B64_unit. lra. Qed.

(** An odd row is never brighter than an even one. *)
Lemma dimmed_le (opacity : Q) (v : Z) :
  displayable v -> 0 <= opacity <= 1 -> (0 <= dimmed opacity v <= v)%Z.
Proof.
  intros Hv Ho. split; [apply finish_displayable |].
  rewrite <- (byte_roundtrip v Hv) at 2. unfold dimmed.
  apply finish_mono, B32_mono.
  pose proof (to_unit_unit v Hv). pose proof (dim_factor_unit opacity Ho). nra.
Qed.

(** An odd row is [(1 - opacity) * v] cut down to a whole number, up
    to the rounding of the four [float32] operations on the way. *)
Lemma dimmed_close (opacity : Q) (v : Z) :
  displayable v -> 0 <= opacity <= 1 ->
  (1 - opacity) * Zq v - 1 - (1 # 1000) < Zq (dimmed opacity v)
  /\ Zq (dimmed opacity v) <= (1 - opacity) * Zq v + (1 # 1000).
Proof.
  intros Hv Ho. unfold dimmed, finish, to_byte.
  assert (Ha : 0 <= Zq v / 255 <= 1).
  { destruct Hv as [H0 H1]. unfold Zq.
    assert (A : inject_Z 0 <= inject_Z v) by (rewrite <- Zle_Qle; exact H0).
    assert (B : inject_Z v <= inject_Z 255) by (rewrite <- Zle_Qle; exact H1).
    change (inject_Z 0) with 0 in A. change (inject_Z 255) with 255 in B.
    split.
    - apply Qle_shift_div_l; [reflexivity | lra].
    - apply Qle_shift_div_r; [reflexivity | lra]. }
  assert (Ev : Zq v == 255 * (Zq v / 255)) by (field; discriminate).
  pose proof (to_unit_unit v Hv) as Hx1.
  unfold to_unit in *.
  pose proof (B32_close (Zq v / 255) (proj1 Ha)) as Cx1.
  set (a := Zq v / 255) in *. set (x1 := B32 a) in *.
  assert (Hb : 0 <= 1 - opacity <= 1) by lra.
  pose proof (B64_unit _ Hb) as Hm64.
  pose proof (B64_close _ (proj1 Hb)) as Cm64.
  set (b := 1 - opacity) in *. set (m64 := B64 b) in *.
  pose proof (B32_unit _ Hm64) as Hm.
  pose proof (B32_close _ (proj1 Hm64)) as Cm.
  set (m := B32 m64) in *.
  assert (HP : 0 <= x1 * m <= 1) by nra.
  pose proof (B32_unit _ HP) as Hx2.
  pose proof (B32_close _ (proj1 HP)) as Cx2.
  set (x2 := B32 (x1 * m)) in *.
  pose proof (clip_id x2 0 1 Hx2) as Ec.
  set (c := clip x2 0 1) in *.
  assert (Hq : 0 <= c * 255) by lra.
  pose proof (B32_close _ Hq) as Cx3.
  assert (Hx3 : 0 <= B32 (c * 255)) by (apply (round_nonneg 24 (-149)); exact Hq).
  set (x3 := B32 (c * 255)) in *.
  rewrite trunc_nonneg by exact Hx3.
  pose proof (Qfloor_le x3) as Flo. pose proof (Qlt_floor x3) as Fhi.
  rewrite inject_Z_plus in Fhi. change (inject_Z 1) with 1 in Fhi.
  change (Zq (Qfloor x3)) with (inject_Z (Qfloor x3)).
  set (out := inject_Z (Qfloor x3)) in *.
  unfold eps in *.
  assert (D1 : - (4 # 16777216) <= x1 * (m - b) <= 4 # 16777216) by nra.
  assert (D2 : - (2 # 16777216) <= b * (x1 - a) <= 2 # 16777216) by nra.
  assert (E : x1 * m - a * b == x1 * (m - b) + b * (x1 - a)) by ring.
  assert (ET : b * Zq v == 255 * (a * b)) by (rewrite Ev at 1; ring).
  rewrite ET.
  set (T := a * b) in *. set (P := x1 * m) in *.
  set (d1 := x1 * (m - b)) in *. set (d2 := b * (x1 - a)) in *.
  clearbody T P d1 d2 out x3 c x2 m m64 x1.
  split; lra.
Qed.

End Scanlines.

Section ScanlinesClaim.
Import IEEE.
Local Open Scope Q_scope.

Lemma sum_brightness_const (l : list pixel) (c : pixel) :
  (forall p, In p l -> p = c) ->
  fold_right Qplus 0 (map brightness l)
  == Zq (Z.of_nat (length l)) * brightness c.
Proof.
  induction l as [| p l IH]; intro H.
  - simpl. unfold Zq. ring.
  - cbn [map fold_right length]. rewrite IH by (intros q Hq; apply H; right; exact Hq).
    rewrite (H p) by (left; reflexivity).
    rewrite Nat2Z.inj_succ. unfold Z.succ, Zq. rewrite inject_Z_plus.
    change (inject_Z 1) with 1. ring.
Qed.

Lemma row_brightness_const (img : Image) (y : Z) (c : pixel) :
  nth (Z.to_nat y) img [] <> [] ->
  (forall p, In p (nth (Z.to_nat y) img []) -> p = c) ->
  row_brightness img y == brightness c.
Proof.
  intros Hne Hall. unfold row_brightness.
  rewrite (sum_brightness_const _ c Hall).
  set (row := nth (Z.to_nat y) img []) in *.
  assert (Hlen : ~ Zq (Z.of_nat (length row)) == 0).
  { unfold Zq. change 0 with (inject_Z 0). rewrite inject_Z_injective.
    destruct row; [congruence | simpl; lia]. }
  field. exact Hlen.
Qed.

Lemma brightness_grey (v : Z) : brightness (v, v, v) == Zq v.
Proof. unfold brightness. cbn [red green blue fst snd]. field. Qed.

Lemma scanlines_uniform_row (w h : Z) (p : pixel) (opacity : Q) (y : Z) :
  (0 < w)%Z -> (0 <= y < h)%Z ->
  let out := apply_scanlines (uniform_frame w h p) opacity in
  let c := map_px (fun v =>
             finish (B32 (to_unit v
                          * (if Z.odd y then B32 (B64 (1 - opacity)) else 1)))) p in
  (forall x, (0 <= x < w)%Z -> getpixel out x y = c)
  /\ row_brightness out y == brightness c.
Proof.
  intros Hw Hy out c.
  assert (Ew : width (uniform_frame w h p) = w)
    by (unfold uniform_frame; apply width_build; lia).
  assert (Eh : height (uniform_frame w h p) = h)
    by (unfold uniform_frame; apply height_build; lia).
  assert (Hin : forall x, (0 <= x < w)%Z -> getpixel (uniform_frame w h p) x y = p).
  { intros x Hx. unfold getpixel, uniform_frame.
    apply (get_build black w h (fun _ _ => p)); assumption. }
  assert (Hrow : nth (Z.to_nat y) out []
                 = tabulate w (fun x =>
                     map_px (fun v =>
                       finish (B32 (to_unit v
                         * (if Z.odd y then B32 (B64 (1 - opacity)) else 1))))
                       (getpixel (uniform_frame w h p) x y))).
  { unfold out, apply_scanlines. rewrite Ew, Eh. unfold build.
    rewrite (nth_tabulate h _ [] y) by assumption. reflexivity. }
  split.
  - intros x Hx. unfold getpixel, get.
    replace ((0 <=? x)%Z && (0 <=? y)%Z) with true
      by (symmetry; apply andb_true_iff; split; apply Z.leb_le; lia).
    rewrite Hrow. rewrite (nth_tabulate w _ black x) by assumption.
    rewrite Hin by assumption. reflexivity.
  - apply row_brightness_const.
    + rewrite Hrow. intro E. apply (f_equal (@length _)) in E.
      rewrite tabulate_length in E. simpl in E. lia.
    + intros q Hq. rewrite Hrow in Hq. apply in_tabulate in Hq.
      destruct Hq as [x [Hx ->]]. rewrite Hin by assumption. reflexivity.
Qed.




End ScanlinesClaim.

(* ================================================================== *)
(** * The background glow (C7) *)
(* ================================================================== *)

Section GlowClaim.
Import IEEE.
Local Open Scope Q_scope.

(** Equal rationals round to the same float, as a term. *)
Lemma round_eq_of_Qeq (prec emin : Z) (p q : Q) :
  (1 <= prec)%Z -> p == q -> round prec emin p = round prec emin q.
Proof.
  intros Hp E. unfold round.
  rewrite (Qcompare_comp p q E 0 0 (Qeq_refl 0)).
  destruct (Qcompare_spec q 0) as [E0 | L | G]; [reflexivity | |].
  - apply Qred_complete.
    assert (H : round_pos prec emin (- p) == round_pos prec emin (- q)).
    { apply Qle_antisym; apply round_pos_mono; try exact Hp; lra. }
    rewrite H. reflexivity.
  - apply Qred_complete.
    apply Qle_antisym; apply round_pos_mono; try exact Hp; lra.
Qed.

Lemma round_zero (prec emin : Z) (q : Q) : q == 0 -> round prec emin q = 0.
Proof.
  intro E. unfold round.
  rewrite (Qcompare_comp q 0 E 0 0 (Qeq_refl 0)). reflexivity.
Qed.

(** Inside the unit interval the clip of [finish] does nothing. *)
Lemma finish_unclipped (x : Q) : 0 <= x <= 1 -> finish x = to_byte x.
Proof.
  intro H. unfold finish, to_byte. f_equal.
  apply round_eq_of_Qeq; [lia |].
  rewrite (clip_id x 0 1 H). reflexivity.
Qed.

Lemma pixel_radius_le_corner (w h x y : Z) :
  (0 < w < 2 ^ 53)%Z -> (0 < h < 2 ^ 53)%Z ->
  (0 <= x < w)%Z -> (0 <= y < h)%Z ->
  radius_at (B64 (Zq w / 2)) (B64 (Zq h / 2)) x y
  <= radius_at (B64 (Zq w / 2)) (B64 (Zq h / 2)) 0 0.
Proof.
  intros Hw Hh Hx Hy.
  assert (Hside : forall n k, (0 < n < 2 ^ 53)%Z -> (0 <= k < n)%Z ->
            0 <= Zq k <= 2 * B64 (Zq n / 2)).
  { intros n k Hn Hk. rewrite (half_exact n Hn). unfold Zq.
    assert (H1 : inject_Z 0 <= inject_Z k) by (rewrite <- Zle_Qle; lia).
    assert (H2 : inject_Z k <= inject_Z n) by (rewrite <- Zle_Qle; lia).
    change (inject_Z 0) with 0 in H1. split; [exact H1 |].
    setoid_replace (2 * (inject_Z n / 2)) with (inject_Z n) by field. exact H2. }
  apply radius_at_corner_max; apply Hside; assumption.
Qed.

(** At the centre pixel of a frame of even width and height the
    distance is zero. *)
Lemma centre_radius_zero (w h : Z) :
  (0 < w < 2 ^ 53)%Z -> (0 < h < 2 ^ 53)%Z ->
  Z.even w = true -> Z.even h = true ->
  radius_at (B64 (Zq w / 2)) (B64 (Zq h / 2)) (w / 2) (h / 2) = 0.
Proof.
  intros Hw Hh Ew Eh.
  assert (Hmid : forall n, (0 < n < 2 ^ 53)%Z -> Z.even n = true ->
            B64 (Zq (n / 2) - B64 (Zq n / 2)) = 0).
  { intros n Hn En. apply round_zero. rewrite (half_exact n Hn).
    apply Z.even_spec in En. destruct En as [k ->].
    rewrite Z.mul_comm, Z.div_mul by lia.
    unfold Zq. rewrite inject_Z_mult. change (inject_Z 2) with 2. field. }
  unfold radius_at. rewrite (Hmid w Hw Ew), (Hmid h Hh Eh).
  vm_compute. reflexivity.
Qed.



End GlowClaim.

(* ================================================================== *)
(** * Further properties: fonts, text layout and the entry point *)
(* ================================================================== *)

Section FontsAndLayout.

Context {Font : Type}.
Variable truetype : String.string -> Z -> option Font.
Variable load_default : Font.
Variable textbbox : Font -> String.string -> Z * Z * Z * Z.

Lemma load_font_from_first (pre : list String.string) (p : String.string)
    (post : list String.string) (px_size : Z) (f : Font) :
  Forall (fun q => truetype q px_size = None) pre ->
  truetype p px_size = Some f ->
  load_font_from truetype load_default (pre ++ p :: post) px_size = f.
Proof.
  intros Hpre Hp. induction Hpre as [| q pre Hq _ IH]; cbn [app load_font_from].
  - rewrite Hp. reflexivity.
  - rewrite Hq. exact IH.
Qed.

Lemma load_font_from_none (paths : list String.string) (px_size : Z) :
  Forall (fun q => truetype q px_size = None) paths ->
  load_font_from truetype load_default paths px_size = load_default.
Proof.
  intro H. induction H as [| q paths Hq _ IH]; cbn [load_font_from].
  - reflexivity.
  - rewrite Hq. exact IH.
Qed.

(** X1.  [load_font] returns the font of the first path of [FONT_PATHS] that
    can be opened at the requested size, whatever the later paths would
    give, and the built-in default font when none can be opened. *)
Theorem load_font_takes_first_loadable (px_size : Z) :
  (forall pre p post f,
     FONT_PATHS = pre ++ p :: post ->
     Forall (fun q => truetype q px_size = None) pre ->
     truetype p px_size = Some f ->
     load_font truetype load_default px_size = f)
  /\ (Forall (fun q => truetype q px_size = None) FONT_PATHS ->
      load_font truetype load_default px_size = load_default).
Proof.
  split.
  - intros pre p post f E Hpre Hp. unfold load_font. rewrite E.
    apply load_font_from_first; assumption.
  - intro H. unfold load_font. apply load_font_from_none. exact H.
Qed.

Lemma floor_half_centres (room : Z) : 0 <= (room - room / 2) - room / 2 <= 1.
Proof. pose proof (Z.div_mod room 2 ltac:(lia)). pose proof (Z.mod_pos_bound room 2). lia. Qed.

(** X2.  [center_text_block] centres every line and the block as a whole:
    the three lists it returns have one entry per line, the width and
    height of a line are the extents of its bounding box, the margin
    left of a line and the margin right of it differ by at most one
    pixel (the odd pixel goes to the right), and so do the margin above
    the block and the margin below it, the block being as high as its
    lines and the spacing between them. *)
Theorem center_text_block_centres (lines : list String.string) (font : Font)
    (canvas_w canvas_h line_spacing : Z) :
  let '(x_list, y, widths, heights) :=
    center_text_block textbbox lines font canvas_w canvas_h line_spacing in
  length x_list = length lines
  /\ length widths = length lines
  /\ length heights = length lines
  /\ (forall i, (i < length lines)%nat ->
        let '(x0, y0, x1, y1) := textbbox font (nth i lines String.EmptyString) in
        nth i widths 0 = x1 - x0
        /\ nth i heights 0 = y1 - y0
        /\ 0 <= (canvas_w - nth i widths 0 - nth i x_list 0) - nth i x_list 0 <= 1)
  /\ (let total_h :=
        fold_right Z.add 0 heights
        + line_spacing * (Z.of_nat (length lines) - 1) in
      0 <= (canvas_h - total_h - y) - y <= 1).
Proof.
  unfold center_text_block. cbv zeta.
  rewrite !length_map.
  split; [reflexivity |]. split; [reflexivity |]. split; [reflexivity |].
  split.
  - intros i Hi.
    set (d := String.EmptyString).
    assert (Ew : forall k l, (k < length l)%nat ->
              nth k (map (fun '(x0, _, x1, _) => x1 - x0) (map (textbbox font) l)) 0
              = (let '(x0, _, x1, _) := textbbox font (nth k l d) in x1 - x0)).
    { intros k l Hk. rewrite map_map.
      rewrite (nth_indep _ 0 ((fun x => let '(x0, _, x1, _) := textbbox font x in x1 - x0) d))
        by (rewrite length_map; exact Hk).
      rewrite (map_nth (fun x => let '(x0, _, x1, _) := textbbox font x in x1 - x0)).
      reflexivity. }
    assert (Eh : forall k l, (k < length l)%nat ->
              nth k (map (fun '(_, y0, _, y1) => y1 - y0) (map (textbbox font) l)) 0
              = (let '(_, y0, _, y1) := textbbox font (nth k l d) in y1 - y0)).
    { intros k l Hk. rewrite map_map.
      rewrite (nth_indep _ 0 ((fun x => let '(_, y0, _, y1) := textbbox font x in y1 - y0) d))
        by (rewrite length_map; exact Hk).
      rewrite (map_nth (fun x => let '(_, y0, _, y1) := textbbox font x in y1 - y0)).
      reflexivity. }
    assert (Ex : forall k (ws : list Z), (k < length ws)%nat ->
              nth k (map (fun w => (canvas_w - w) / 2) ws) 0
              = (canvas_w - nth k ws 0) / 2).
    { intros k ws Hk.
      rewrite (nth_indep _ 0 ((fun w => (canvas_w - w) / 2) 0))
        by (rewrite length_map; exact Hk).
      apply (map_nth (fun w => (canvas_w - w) / 2)). }
    rewrite Ex by (rewrite !length_map; exact Hi).
    rewrite (Ew i lines Hi), (Eh i lines Hi).
    destruct (textbbox font (nth i lines d)) as [[[x0 y0] x1] y1].
    split; [reflexivity |]. split; [reflexivity |].
    apply floor_half_centres.
  - apply floor_half_centres.
Qed.

End FontsAndLayout.

Lemma load_font_takes_first_loadable_witness :
  load_font
    (fun p _ =>
       if String.eqb p "/Library/Fonts/Menlo.ttf"
          || String.eqb p "C:/Windows/Fonts/consola.ttf"
       then Some p else None)
    "built-in"%string 52
  = "/Library/Fonts/Menlo.ttf"%string.
Proof.
  apply (proj1 (load_font_takes_first_loadable _ _ 52)
           ["/usr/share/fonts/TTF/DejaVuSansMono.ttf"%string;
            "/usr/share/fonts/truetype/dejavu/DejaVuSansMono.ttf"%string]
           "/Library/Fonts/Menlo.ttf"%string
           ["C:/Windows/Fonts/consola.ttf"%string]).
  - reflexivity.
  - repeat constructor.
  - reflexivity.
Defined.

Section EntryPoint.
Import IEEE.

Variable np_power : Q -> Q -> Q.
Variable GaussianBlur : Q -> Image -> Image.
Variable Image_blend : Image -> Image -> Q -> Image.
Variable Font : Type.
Variable truetype : String.string -> Z -> option Font.
Variable load_default : Font.
Variable textbbox : Font -> String.string -> Z * Z * Z * Z.
Variable draw_text : Image -> Z * Z -> String.string -> Font -> pixel -> Image.

Lemma render_sequence_raises_when_empty (out_path : String.string)
    (w h font_px : Z) (s : Rng) :
  w <= 0 \/ h <= 0 ->
  render_sequence np_power GaussianBlur Image_blend truetype load_default
    textbbox draw_text out_path (w, h) font_px s = Raise ValueError.
Proof.
  intro H. unfold render_sequence.
  change (tabulate FRAMES (fun i => i)) with (0 :: tabulate 47 (fun i => i + 1)).
  unfold bind at 1. cbn [render_loop]. unfold bind at 1.
  unfold render_frame. unfold bind at 1.
  rewrite (crt_background_empty np_power w h CRT_BG_TINT CRT_BG_STRENGTH H).
  reflexivity.
Qed.

(** X3.  [render_sequence] raises [ValueError], whatever the random
    generator delivers, on every size that has no pixel (the background
    has no farthest pixel to normalise by) and on every size of fewer
    than four rows (the tearing of frame 0 has no room for a band);
    the encoder is never reached.  Pillow's blur, blend and text
    drawing are asked to keep the size of the image. *)
Theorem render_sequence_raises_on_small_sizes :
  (forall radius img, same_size (GaussianBlur radius img) img) ->
  (forall a b alpha, same_size b a -> same_size (Image_blend a b alpha) a) ->
  (forall img xy s font color, same_size (draw_text img xy s font color) img) ->
  forall out_path w h font_px s,
    w <= 0 \/ h < 4 ->
    render_sequence np_power GaussianBlur Image_blend truetype load_default
      textbbox draw_text out_path (w, h) font_px s = Raise ValueError.
Proof.
  intros Hblur Hblend Hdraw out_path w h font_px s H.
  destruct (Z_le_gt_dec w 0) as [Hw | Hw];
    [apply render_sequence_raises_when_empty; left; exact Hw |].
  destruct (Z_le_gt_dec h 0) as [Hh | Hh];
    [apply render_sequence_raises_when_empty; right; exact Hh |].
  apply render_sequence_raises_when_short; try assumption; lia.
Qed.

(** X4.  [main] renders the banner and then the overlay, the second from the
    state of the random generator the first has left, and reports both
    files.  Each file gets its own name, 48 frames of its own size
    (1200 by 480, then 1920 by 1080) with every channel a byte, the
    frame duration of 83 ms (in seconds, the float nearest to 0.083) and the flag for looping forever.  Pillow's
    blur, blend and text drawing are asked to keep the size of the
    image. *)
Theorem main_renders_banner_then_overlay :
  (forall radius img, same_size (GaussianBlur radius img) img) ->
  (forall a b alpha, same_size b a -> same_size (Image_blend a b alpha) a) ->
  (forall img xy s font color, same_size (draw_text img xy s font color) img) ->
  forall s : Rng,
  exists banner overlay s1 s2,
    render_sequence np_power GaussianBlur Image_blend truetype load_default
      textbbox draw_text "connecting_banner_1200x480.gif"%string (1200, 480) 52 s
    = Ok (banner, s1)
    /\ render_sequence np_power GaussianBlur Image_blend truetype load_default
         textbbox draw_text "connecting_overlay_1920x1080.gif"%string (1920, 1080) 84 s1
       = Ok (overlay, s2)
    /\ main np_power GaussianBlur Image_blend truetype load_default
         textbbox draw_text s
       = Ok (([banner; overlay],
              ["Done:"%string;
               " - connecting_banner_1200x480.gif"%string;
               " - connecting_overlay_1920x1080.gif"%string]), s2)
    /\ saved_path banner = "connecting_banner_1200x480.gif"%string
    /\ saved_path overlay = "connecting_overlay_1920x1080.gif"%string
    /\ length (saved_frames banner) = 48%nat
    /\ length (saved_frames overlay) = 48%nat
    /\ Forall (fun f => width f = 1200 /\ height f = 480 /\ in_range f)
         (saved_frames banner)
    /\ Forall (fun f => width f = 1920 /\ height f = 1080 /\ in_range f)
         (saved_frames overlay)
    /\ saved_duration banner = lit (83 # 1000)
    /\ saved_duration overlay = lit (83 # 1000)
    /\ saved_loop banner = 0 /\ saved_loop overlay = 0.
Proof.
  intros Hblur Hblend Hdraw s.
  destruct (render_sequence_ok np_power GaussianBlur Image_blend Font truetype
              load_default textbbox draw_text Hblur Hblend Hdraw
              "connecting_banner_1200x480.gif"%string 1200 480 52 s
              ltac:(lia) ltac:(lia)) as [fb [s1 [Eb [Rb Hb]]]].
  destruct (render_sequence_ok np_power GaussianBlur Image_blend Font truetype
              load_default textbbox draw_text Hblur Hblend Hdraw
              "connecting_overlay_1920x1080.gif"%string 1920 1080 84 s1
              ltac:(lia) ltac:(lia)) as [fo [s2 [Eo [Ro Ho]]]].
  eexists. eexists. exists s1, s2.
  split; [exact Eb |]. split; [exact Eo |].
  split.
  { unfold main. change BANNER_SIZE with (1200, 480). change OVERLAY_SIZE with (1920, 1080).
    rewrite (bind_eq _ _ _ _ _ Eb). rewrite (bind_eq _ _ _ _ _ Eo). reflexivity. }
  cbn [saved_path saved_frames saved_duration saved_loop].
  pose proof (rendered_length _ _ _ _ _ _ _ _ _ _ _ _ _ Rb) as Lb.
  pose proof (rendered_length _ _ _ _ _ _ _ _ _ _ _ _ _ Ro) as Lo.
  change (length (tabulate FRAMES (fun i => i))) with 48%nat in Lb, Lo.
  repeat (split; [first [reflexivity | assumption | (vm_compute; reflexivity)] |]).
  reflexivity.
Qed.

End EntryPoint.

(** With the sample library. *)
Lemma render_sequence_raises_on_small_sizes_witness :
  render_sequence Sample.power Sample.blur Sample.blend Sample.truetype
    Sample.load_default Sample.textbbox Sample.draw_text
    "out.gif"%string (0, 480) 52 (mkRng (fun _ => 0) 0)
  = Raise ValueError.
Proof.
  apply (render_sequence_raises_on_small_sizes Sample.power Sample.blur Sample.blend
           Sample.Font Sample.truetype Sample.load_default Sample.textbbox
           Sample.draw_text SampleFacts.blur_same_size
           (fun a b alpha _ => SampleFacts.blend_same_size a b alpha)
           SampleFacts.draw_text_same_size).
  left. lia.
Defined.

Lemma main_renders_banner_then_overlay_witness :
  exists saved s',
    main Sample.power Sample.blur Sample.blend Sample.truetype
      Sample.load_default Sample.textbbox Sample.draw_text (mkRng (fun _ => 0) 0)
    = Ok (saved, s').
Proof.
  destruct (main_renders_banner_then_overlay Sample.power Sample.blur Sample.blend
              Sample.Font Sample.truetype Sample.load_default Sample.textbbox
              Sample.draw_text SampleFacts.blur_same_size
              (fun a b alpha _ => SampleFacts.blend_same_size a b alpha)
              SampleFacts.draw_text_same_size (mkRng (fun _ => 0) 0))
    as [banner [overlay [s1 [s2 [_ [_ [E _]]]]]]].
  eexists. eexists. exact E.
Defined.

(* ================================================================== *)
(** * Further properties: the numeric stages, pixel by pixel *)
(* ================================================================== *)

Section Bytes.
Import IEEE.
Local Open Scope Q_scope.

Lemma in_bytes (v : Z) : displayable v -> In v (tabulate 256 (fun i => i)).
Proof.
  intro Hv. unfold tabulate. apply in_map_iff. exists (Z.to_nat v).
  unfold displayable in Hv. split; [lia | apply in_seq; lia].
Qed.

(** Bytes also survive the way through a [float64] product and back. *)
Lemma byte_roundtrip64 (v : Z) :
  displayable v -> finish (B32 (B64 (to_unit v * 1))) = v.
Proof.
  intro Hv.
  assert (H : forallb (fun v => (finish (B32 (B64 (to_unit v * 1))) =? v)%Z)
                (tabulate 256 (fun i => i)) = true) by (vm_compute; reflexivity).
  rewrite forallb_forall in H. apply Z.eqb_eq. apply H. apply in_bytes. exact Hv.
Qed.

Lemma finish_eq_of_Qeq (p q : Q) : p == q -> finish p = finish q.
Proof.
  intro E. apply Z.le_antisymm; apply finish_mono; rewrite E; apply Qle_refl.
Qed.

Lemma B32_eq_of_Qeq (p q : Q) : p == q -> B32 p = B32 q.
Proof. apply round_eq_of_Qeq. lia. Qed.

Lemma B64_eq_of_Qeq (p q : Q) : p == q -> B64 p = B64 q.
Proof. apply round_eq_of_Qeq. lia. Qed.

Lemma B64_zero (q : Q) : q == 0 -> B64 q = 0.
Proof. apply round_zero. Qed.

(** What is not positive is cut to black, what is one or more to white. *)
Lemma finish_nonpos (x : Q) : x <= 0 -> finish x = 0%Z.
Proof.
  intro H. apply Z.le_antisymm; [| apply finish_displayable].
  change (finish x <= finish 0)%Z. apply finish_mono. exact H.
Qed.

Lemma finish_ge_one (x : Q) : 1 <= x -> finish x = 255%Z.
Proof.
  intro H. apply Z.le_antisymm; [apply finish_displayable |].
  change 255%Z with (finish 1). apply finish_mono. exact H.
Qed.

Lemma to_unit_nonneg (v : Z) : displayable v -> 0 <= to_unit v.
Proof. intro H. apply (to_unit_unit v H). Qed.

Lemma to_unit_mono (u v : Z) : (u <= v)%Z -> to_unit u <= to_unit v.
Proof.
  intro H. unfold to_unit. apply B32_mono. unfold Zq.
  apply Qmult_le_compat_r; [rewrite <- Zle_Qle; exact H | discriminate].
Qed.

(** A channel scaled by a factor of at most one does not get brighter;
    scaled by a factor that is not positive it goes black. *)
Lemma scaled32_le (v : Z) (m : Q) :
  displayable v -> m <= 1 -> (finish (B32 (to_unit v * m)) <= v)%Z.
Proof.
  intros Hv Hm. rewrite <- (byte_roundtrip v Hv) at 2.
  apply finish_mono, B32_mono. pose proof (to_unit_nonneg v Hv). nra.
Qed.

Lemma scaled32_nonpos (v : Z) (m : Q) :
  displayable v -> m <= 0 -> finish (B32 (to_unit v * m)) = 0%Z.
Proof.
  intros Hv Hm. apply finish_nonpos. apply (round_nonpos 24 (-149)).
  pose proof (to_unit_nonneg v Hv). nra.
Qed.

Lemma scaled64_le (v : Z) (m : Q) :
  displayable v -> m <= 1 -> (finish (B32 (B64 (to_unit v * m))) <= v)%Z.
Proof.
  intros Hv Hm. rewrite <- (byte_roundtrip64 v Hv) at 2.
  apply finish_mono, B32_mono, B64_mono. pose proof (to_unit_nonneg v Hv). nra.
Qed.

Lemma px_le_map_px (f : Z -> Z) (p : pixel) :
  px_displayable p -> (forall v, displayable v -> (f v <= v)%Z) ->
  px_le (map_px f p) p.
Proof.
  intros [Hr [Hg Hb]] Hf. unfold px_le, map_px. cbn [red green blue fst snd].
  split; [| split]; apply Hf; assumption.
Qed.

Lemma map_px_id (f : Z -> Z) (p : pixel) :
  px_displayable p -> (forall v, displayable v -> f v = v) -> map_px f p = p.
Proof.
  intros [Hr [Hg Hb]] Hf. unfold map_px.
  rewrite (Hf _ Hr), (Hf _ Hg), (Hf _ Hb).
  destruct p as [[r g] b]. reflexivity.
Qed.

Lemma map_px_black (f : Z -> Z) (p : pixel) :
  px_displayable p -> (forall v, displayable v -> f v = 0%Z) -> map_px f p = black.
Proof.
  intros [Hr [Hg Hb]] Hf. unfold map_px.
  rewrite (Hf _ Hr), (Hf _ Hg), (Hf _ Hb). reflexivity.
Qed.

End Bytes.

Section ScanlinesAnyFrame.
Import IEEE.
Local Open Scope Q_scope.

Lemma getpixel_apply_scanlines (img : Image) (opacity : Q) (x y : Z) :
  (0 <= x < width img)%Z -> (0 <= y < height img)%Z ->
  getpixel (apply_scanlines img opacity) x y
  = map_px (fun v =>
      finish (B32 (to_unit v * (if Z.odd y then B32 (B64 (1 - opacity)) else 1))))
      (getpixel img x y).
Proof.
  intros Hx Hy. unfold apply_scanlines, getpixel.
  rewrite (get_build black) by assumption. reflexivity.
Qed.

Lemma dim_factor_le_1 (opacity : Q) : 0 <= opacity -> B32 (B64 (1 - opacity)) <= 1.
Proof.
  intro H. apply round_le_float; [lia | vm_compute; reflexivity |].
  apply round_le_float; [lia | vm_compute; reflexivity | lra].
Qed.

Lemma dim_factor_nonpos (opacity : Q) : 1 <= opacity -> B32 (B64 (1 - opacity)) <= 0.
Proof.
  intro H. apply (round_nonpos 24 (-149)). apply (round_nonpos 53 (-1074)). lra.
Qed.

Lemma dim_factor_zero_opacity (opacity : Q) : opacity == 0 -> B32 (B64 (1 - opacity)) = 1.
Proof.
  intro H. rewrite (B64_eq_of_Qeq (1 - opacity) 1) by (rewrite H; reflexivity).
  rewrite B64_1. apply B32_1.
Qed.

(** X5.  On any frame of bytes and for any opacity that is not negative,
    [apply_scanlines] hands back every pixel of an even row as it was
    and makes no channel of any pixel brighter. *)
Theorem scanlines_keep_even_rows_and_never_brighten (img : Image) (opacity : Q)
    (x y : Z) :
  in_range img -> 0 <= opacity ->
  (0 <= x < width img)%Z -> (0 <= y < height img)%Z ->
  (Z.even y = true ->
     getpixel (apply_scanlines img opacity) x y = getpixel img x y)
  /\ px_le (getpixel (apply_scanlines img opacity) x y) (getpixel img x y).
Proof.
  intros Himg Ho Hx Hy.
  pose proof (getpixel_displayable img x y Himg) as Hp.
  rewrite getpixel_apply_scanlines by assumption.
  split.
  - intro He. rewrite <- Z.negb_odd in He. apply negb_true_iff in He. rewrite He.
    apply map_px_id; [exact Hp |]. intros v Hv. apply byte_roundtrip. exact Hv.
  - apply px_le_map_px; [exact Hp |]. intros v Hv. apply scaled32_le; [exact Hv |].
    destruct (Z.odd y); [apply dim_factor_le_1; exact Ho | apply Qle_refl].
Qed.

(** X6.  The two ends of the opacity: at opacity 0 [apply_scanlines] hands
    back every pixel of a frame of bytes as it was, and at an opacity of
    1 or more every pixel of an odd row comes out black. *)
Theorem scanlines_at_the_ends_of_opacity (img : Image) (opacity : Q) (x y : Z) :
  in_range img ->
  (0 <= x < width img)%Z -> (0 <= y < height img)%Z ->
  (opacity == 0 ->
     getpixel (apply_scanlines img opacity) x y = getpixel img x y)
  /\ (1 <= opacity -> Z.odd y = true ->
        getpixel (apply_scanlines img opacity) x y = black).
Proof.
  intros Himg Hx Hy.
  pose proof (getpixel_displayable img x y Himg) as Hp.
  rewrite getpixel_apply_scanlines by assumption.
  split.
  - intro H0. rewrite (dim_factor_zero_opacity opacity H0).
    apply map_px_id; [exact Hp |]. intros v Hv.
    destruct (Z.odd y); apply byte_roundtrip; exact Hv.
  - intros H1 Hodd. rewrite Hodd.
    apply map_px_black; [exact Hp |]. intros v Hv.
    apply scaled32_nonpos; [exact Hv | apply dim_factor_nonpos; exact H1].
Qed.

End ScanlinesAnyFrame.

Lemma scanlines_keep_even_rows_and_never_brighten_witness :
  getpixel (apply_scanlines [[(10, 20, 30)]; [(200, 100, 0)]] SCANLINE_OPACITY) 0 0
  = getpixel [[(10, 20, 30)]; [(200, 100, 0)]] 0 0
  /\ px_le (getpixel (apply_scanlines [[(10, 20, 30)]; [(200, 100, 0)]] SCANLINE_OPACITY) 0 1)
       (getpixel [[(10, 20, 30)]; [(200, 100, 0)]] 0 1).
Proof.
  assert (R : in_range [[(10, 20, 30)]; [(200, 100, 0)]])
    by (repeat constructor; unfold displayable; cbn [red green blue fst snd]; lia).
  split.
  - apply (scanlines_keep_even_rows_and_never_brighten
             [[(10, 20, 30)]; [(200, 100, 0)]] SCANLINE_OPACITY 0 0 R);
      [vm_compute; discriminate | unfold width; simpl length; lia
       | unfold height; simpl length; lia | reflexivity].
  - apply (scanlines_keep_even_rows_and_never_brighten
             [[(10, 20, 30)]; [(200, 100, 0)]] SCANLINE_OPACITY 0 1 R);
      [vm_compute; discriminate | unfold width; simpl length; lia
       | unfold height; simpl length; lia].
Defined.

Lemma scanlines_at_the_ends_of_opacity_witness :
  getpixel (apply_scanlines [[(10, 20, 30)]; [(200, 100, 0)]] 0) 0 1 = (200, 100, 0)%Z
  /\ getpixel (apply_scanlines [[(10, 20, 30)]; [(200, 100, 0)]] 1) 0 1 = black.
Proof.
  assert (R : in_range [[(10, 20, 30)]; [(200, 100, 0)]])
    by (repeat constructor; unfold displayable; cbn [red green blue fst snd]; lia).
  split.
  - apply (scanlines_at_the_ends_of_opacity
             [[(10, 20, 30)]; [(200, 100, 0)]] 0 0 1 R);
      [unfold width; simpl length; lia | unfold height; simpl length; lia
       | reflexivity].
  - apply (scanlines_at_the_ends_of_opacity
             [[(10, 20, 30)]; [(200, 100, 0)]] 1 0 1 R);
      [unfold width; simpl length; lia | unfold height; simpl length; lia
       | discriminate | reflexivity].
Defined.

Section VignetteAnyFrame.
Import IEEE.
Local Open Scope Q_scope.

Variable np_power : Q -> Q -> Q.

Lemma scaled64_nonpos (v : Z) (m : Q) :
  displayable v -> m <= 0 -> finish (B32 (B64 (to_unit v * m))) = 0%Z.
Proof.
  intros Hv Hm. apply finish_nonpos.
  apply (round_nonpos 24 (-149)). apply (round_nonpos 53 (-1074)).
  pose proof (to_unit_nonneg v Hv). nra.
Qed.

Lemma scaled64_by_one (v : Z) (m : Q) :
  displayable v -> m == 1 -> finish (B32 (B64 (to_unit v * m))) = v.
Proof.
  intros Hv Hm. rewrite <- (byte_roundtrip64 v Hv) at 2.
  f_equal. f_equal. apply B64_eq_of_Qeq. rewrite Hm. reflexivity.
Qed.

Lemma vignette_eq (img : Image) (strength rmax : Q) :
  np_max (radii (width img) (height img)
            (B64 (Zq (width img) / 2)) (B64 (Zq (height img) / 2))) = Ok rmax ->
  vignette np_power img strength
  = Ok (build (width img) (height img) (fun x y =>
          map_px (fun v =>
            finish (B32 (B64 (to_unit v
              * vignette_mask np_power (B64 (Zq (width img) / 2))
                  (B64 (Zq (height img) / 2)) rmax strength x y))))
            (getpixel img x y))).
Proof. intro E. unfold vignette. rewrite E. reflexivity. Qed.

Lemma getpixel_vignette (img out : Image) (strength : Q) (x y : Z) :
  (0 < width img < 2 ^ 53)%Z -> (0 < height img < 2 ^ 53)%Z ->
  vignette np_power img strength = Ok out ->
  (0 <= x < width img)%Z -> (0 <= y < height img)%Z ->
  getpixel out x y
  = map_px (fun v =>
      finish (B32 (B64 (to_unit v
        * vignette_mask np_power (B64 (Zq (width img) / 2))
            (B64 (Zq (height img) / 2))
            (radius_at (B64 (Zq (width img) / 2)) (B64 (Zq (height img) / 2)) 0 0)
            strength x y))))
      (getpixel img x y).
Proof.
  intros Hw Hh E Hx Hy.
  rewrite (vignette_eq img strength _ (rmax_is_corner _ _ Hw Hh)) in E.
  inversion E. unfold getpixel at 1.
  rewrite (get_build black) by assumption. reflexivity.
Qed.

(** X7.  [vignette] raises exactly on a frame without a pixel, where the
    radii have no maximum to normalise by, and then it is [ValueError];
    on every other frame it returns. *)
Theorem vignette_raises_exactly_on_empty_frames (img : Image) (strength : Q) :
  (vignette np_power img strength = Raise ValueError
   <-> (width img = 0 \/ height img = 0)%Z)
  /\ ((0 < width img)%Z -> (0 < height img)%Z ->
      exists out, vignette np_power img strength = Ok out).
Proof.
  split; [| apply vignette_defined].
  pose proof (width_nonneg img) as Hw. pose proof (height_nonneg img) as Hh.
  split.
  - intro E.
    destruct (Z.eq_dec (width img) 0) as [Ew | Nw]; [left; exact Ew |].
    destruct (Z.eq_dec (height img) 0) as [Eh | Nh]; [right; exact Eh |].
    destruct (vignette_defined np_power img strength) as [out Eo]; try lia.
    rewrite Eo in E. discriminate.
  - intro H. unfold vignette. rewrite radii_empty by lia. reflexivity.
Qed.

(** X8.  With strength 0 [vignette] hands back every pixel of a frame of
    bytes as it was, whatever the power function returns. *)
Theorem vignette_of_strength_zero_is_identity (img : Image) (strength : Q) :
  in_range img -> strength == 0 ->
  (0 < width img)%Z -> (0 < height img)%Z ->
  exists out,
    vignette np_power img strength = Ok out
    /\ same_size out img
    /\ forall x y, (0 <= x < width img)%Z -> (0 <= y < height img)%Z ->
         getpixel out x y = getpixel img x y.
Proof.
  intros Himg Hs Hw Hh.
  destruct (np_max_ok _ (radii_nonempty (width img) (height img)
              (B64 (Zq (width img) / 2)) (B64 (Zq (height img) / 2)) Hw Hh))
    as [rmax E].
  eexists. split; [apply (vignette_eq img strength rmax E) |].
  split; [apply build_over_same_size |].
  intros x y Hx Hy. unfold getpixel at 1.
  rewrite (get_build black) by assumption.
  apply map_px_id; [apply getpixel_displayable; exact Himg |].
  intros v Hv. apply scaled64_by_one; [exact Hv |].
  unfold vignette_mask.
  rewrite (round_zero 53 (-1074) (strength * _)) by (rewrite Hs; ring).
  reflexivity.
Qed.

Section Contract.
Hypothesis np_power_unit :
  forall r y, 0 <= r <= 1 -> 0 <= y -> 0 <= np_power r y <= 1.

Lemma vignette_mask_le_1 (w h : Z) (strength : Q) (x y : Z) :
  (0 < w < 2 ^ 53)%Z -> (0 < h < 2 ^ 53)%Z ->
  (0 <= x < w)%Z -> (0 <= y < h)%Z -> 0 <= strength ->
  vignette_mask np_power (B64 (Zq w / 2)) (B64 (Zq h / 2))
    (radius_at (B64 (Zq w / 2)) (B64 (Zq h / 2)) 0 0) strength x y <= 1.
Proof.
  intros Hw Hh Hx Hy Hs. unfold vignette_mask.
  pose proof (corner_radius_positive w h Hw) as Hpos.
  pose proof (pixel_radius_le_corner w h x y Hw Hh Hx Hy) as Hle.
  set (cx := B64 (Zq w / 2)) in *. set (cy := B64 (Zq h / 2)) in *.
  set (rmax := radius_at cx cy 0 0) in *.
  assert (Hr : 0 < rmax) by lra.
  pose proof (normalised_unit cx cy rmax x y Hr Hle) as Hn.
  pose proof (np_power_unit _ (3 # 2) Hn ltac:(discriminate)) as Hp.
  apply round_le_float; [lia | vm_compute; reflexivity |].
  assert (H0 : 0 <= B64 (strength * np_power (normalised cx cy rmax x y) (3 # 2))).
  { apply (round_nonneg 53 (-1074)). nra. }
  lra.
Qed.

(** X9.  With a strength that is not negative [vignette] makes no channel of
    any pixel of a frame of bytes brighter.  The power function is
    asked to keep the unit interval. *)
Theorem vignette_never_brightens (img : Image) (strength : Q) :
  in_range img -> 0 <= strength ->
  (0 < width img < 2 ^ 53)%Z -> (0 < height img < 2 ^ 53)%Z ->
  exists out,
    vignette np_power img strength = Ok out
    /\ forall x y, (0 <= x < width img)%Z -> (0 <= y < height img)%Z ->
         px_le (getpixel out x y) (getpixel img x y).
Proof.
  intros Himg Hs Hw Hh.
  destruct (vignette_defined np_power img strength) as [out E]; try lia.
  exists out. split; [exact E |]. intros x y Hx Hy.
  rewrite (getpixel_vignette img out strength x y Hw Hh E Hx Hy).
  apply px_le_map_px; [apply getpixel_displayable; exact Himg |].
  intros v Hv. apply scaled64_le; [exact Hv |].
  apply vignette_mask_le_1; assumption.
Qed.

End Contract.

Lemma vignette_mask_at_zero_radius (cx cy rmax strength : Q) (x y : Z) :
  radius_at cx cy x y = 0 -> np_power 0 (3 # 2) == 0 ->
  vignette_mask np_power cx cy rmax strength x y = 1.
Proof.
  intros Hr Hp. unfold vignette_mask, normalised. rewrite Hr.
  rewrite (B64_zero (0 / rmax)) by (unfold Qdiv; ring).
  rewrite (B64_zero (strength * np_power 0 (3 # 2))) by (rewrite Hp; ring).
  reflexivity.
Qed.

Lemma vignette_mask_at_full_radius (cx cy rmax strength : Q) (x y : Z) :
  0 < rmax -> radius_at cx cy x y = rmax -> np_power 1 (3 # 2) == 1 ->
  vignette_mask np_power cx cy rmax strength x y = B64 (1 - B64 strength).
Proof.
  intros Hpos Hr Hp. unfold vignette_mask, normalised. rewrite Hr.
  rewrite (B64_eq_of_Qeq (rmax / rmax) 1) by (field; lra).
  rewrite B64_1.
  rewrite (B64_eq_of_Qeq (strength * np_power 1 (3 # 2)) strength)
    by (rewrite Hp; ring).
  reflexivity.
Qed.

(** X10.  Where [vignette] bites: the pixel at the centre of a frame of even
    width and height comes back as it was, and the corner pixel
    [(0, 0)], the farthest from the centre, is scaled by the [float64]
    value of [1 - strength]; at strength 1 it is black.  The power
    function is asked for [0^1.5 = 0] and [1^1.5 = 1]. *)
Theorem vignette_centre_and_corner (img : Image) (strength : Q) :
  np_power 0 (3 # 2) == 0 -> np_power 1 (3 # 2) == 1 ->
  in_range img ->
  (0 < width img < 2 ^ 53)%Z -> (0 < height img < 2 ^ 53)%Z ->
  exists out,
    vignette np_power img strength = Ok out
    /\ (Z.even (width img) = true -> Z.even (height img) = true ->
        getpixel out (width img / 2) (height img / 2)
        = getpixel img (width img / 2) (height img / 2))
    /\ getpixel out 0 0
       = map_px (fun v => finish (B32 (B64 (to_unit v * B64 (1 - B64 strength)))))
           (getpixel img 0 0)
    /\ (strength == 1 -> getpixel out 0 0 = black).
Proof.
  intros Hp0 Hp1 Himg Hw Hh.
  destruct (vignette_defined np_power img strength) as [out E]; try lia.
  exists out. split; [exact E |].
  pose proof (corner_radius_positive (width img) (height img) Hw) as Hpos.
  assert (Ecorner :
    vignette_mask np_power (B64 (Zq (width img) / 2)) (B64 (Zq (height img) / 2))
      (radius_at (B64 (Zq (width img) / 2)) (B64 (Zq (height img) / 2)) 0 0)
      strength 0 0
    = B64 (1 - B64 strength)).
  { apply vignette_mask_at_full_radius; [lra | reflexivity | exact Hp1]. }
  split; [| split].
  - intros Ew Eh.
    rewrite (getpixel_vignette img out strength _ _ Hw Hh E)
      by (split; [apply Z.div_pos | apply Z.div_lt_upper_bound]; lia).
    rewrite (vignette_mask_at_zero_radius _ _ _ strength _ _
               (centre_radius_zero _ _ Hw Hh Ew Eh) Hp0).
    apply map_px_id; [apply getpixel_displayable; exact Himg |].
    intros v Hv. apply byte_roundtrip64. exact Hv.
  - rewrite (getpixel_vignette img out strength 0 0 Hw Hh E) by lia.
    rewrite Ecorner. reflexivity.
  - intro H1.
    rewrite (getpixel_vignette img out strength 0 0 Hw Hh E) by lia.
    rewrite Ecorner.
    apply map_px_black; [apply getpixel_displayable; exact Himg |].
    intros v Hv. apply scaled64_nonpos; [exact Hv |].
    apply (round_nonpos 53 (-1074)).
    rewrite (B64_eq_of_Qeq strength 1 H1). rewrite B64_1. lra.
Qed.

End VignetteAnyFrame.

Lemma sample_frame_in_range : in_range [[(10, 20, 30); (200, 100, 0)]; [(0, 255, 7); (9, 9, 9)]].
Proof. repeat constructor; unfold displayable; cbn [red green blue fst snd]; lia. Qed.

Lemma vignette_of_strength_zero_is_identity_witness :
  exists out,
    vignette Sample.power [[(10, 20, 30); (200, 100, 0)]; [(0, 255, 7); (9, 9, 9)]] 0
    = Ok out
    /\ getpixel out 1 0 = (200, 100, 0).
Proof.
  destruct (vignette_of_strength_zero_is_identity Sample.power
              [[(10, 20, 30); (200, 100, 0)]; [(0, 255, 7); (9, 9, 9)]] 0
              sample_frame_in_range) as [out [E [_ H]]].
  - reflexivity.
  - unfold width; simpl length; lia.
  - unfold height; simpl length; lia.
  - exists out. split; [exact E |].
    apply (H 1 0); [unfold width | unfold height]; simpl length; lia.
Defined.

Lemma vignette_never_brightens_witness :
  exists out,
    vignette Sample.power [[(10, 20, 30); (200, 100, 0)]; [(0, 255, 7); (9, 9, 9)]]
      VIGNETTE_STRENGTH = Ok out
    /\ px_le (getpixel out 0 0) (10, 20, 30).
Proof.
  destruct (vignette_never_brightens Sample.power
              (fun r y Hr _ => SampleFacts.power_unit r y Hr)
              [[(10, 20, 30); (200, 100, 0)]; [(0, 255, 7); (9, 9, 9)]]
              VIGNETTE_STRENGTH sample_frame_in_range) as [out [E H]].
  - vm_compute. discriminate.
  - unfold width; simpl length; lia.
  - unfold height; simpl length; lia.
  - exists out. split; [exact E |].
    apply (H 0 0); [unfold width | unfold height]; simpl length; lia.
Defined.

Lemma vignette_centre_and_corner_witness :
  exists out,
    vignette Sample.power [[(10, 20, 30); (200, 100, 0)]; [(0, 255, 7); (9, 9, 9)]] 1
    = Ok out
    /\ getpixel out 1 1 = (9, 9, 9)
    /\ getpixel out 0 0 = black.
Proof.
  destruct (vignette_centre_and_corner Sample.power
              [[(10, 20, 30); (200, 100, 0)]; [(0, 255, 7); (9, 9, 9)]] 1)
    as [out [E [Hc [_ Hk]]]].
  - vm_compute. reflexivity.
  - vm_compute. reflexivity.
  - exact sample_frame_in_range.
  - unfold width; simpl length; lia.
  - unfold height; simpl length; lia.
  - exists out. split; [exact E |]. split.
    + apply (Hc eq_refl eq_refl).
    + apply Hk. reflexivity.
Defined.

Section Windows.
Import IEEE.
Local Open Scope Q_scope.

(** Rounding moves a value of magnitude at most [c] by at most
    [(c + 1) * eps], whatever its sign. *)
Lemma round_near (prec emin : Z) (q c : Q) :
  (forall p, 0 <= p -> p - (p + 1) * eps <= round prec emin p <= p + (p + 1) * eps) ->
  - c <= q <= c ->
  q - (c + 1) * eps <= round prec emin q <= q + (c + 1) * eps.
Proof.
  intros Hclose [Hlo Hhi].
  assert (He : 0 < eps) by reflexivity.
  destruct (Qlt_le_dec q 0) as [Hneg | Hpos].
  - pose proof (Hclose (- q) ltac:(lra)) as [H1 H2].
    rewrite round_opp in H1, H2.
    set (r := round prec emin q) in *. clearbody r.
    assert (Hm : (- q + 1) * eps <= (c + 1) * eps)
      by (apply Qmult_le_compat_r; lra).
    split; lra.
  - pose proof (Hclose q Hpos) as [H1 H2].
    assert (Hm : (q + 1) * eps <= (c + 1) * eps)
      by (apply Qmult_le_compat_r; lra).
    split; lra.
Qed.

Lemma B32_near (q c : Q) :
  - c <= q <= c -> q - (c + 1) * eps <= B32 q <= q + (c + 1) * eps.
Proof. apply round_near. exact B32_close. Qed.

Lemma B64_near (q c : Q) :
  - c <= q <= c -> q - (c + 1) * eps <= B64 q <= q + (c + 1) * eps.
Proof. apply round_near. exact B64_close. Qed.

Lemma clip_unit_le (z b : Q) : z <= b -> 0 <= b -> clip z 0 1 <= b.
Proof.
  intros Hz Hb. unfold clip.
  apply Qle_trans with (Qmax z 0); [apply Q.le_min_l |].
  apply Q.max_lub; assumption.
Qed.

Lemma clip_unit_ge (z b : Q) : b <= z -> b <= 1 -> b <= clip z 0 1.
Proof.
  intros Hz Hb. unfold clip.
  apply Q.min_glb; [| exact Hb].
  apply Qle_trans with (1 := Hz). apply Q.le_max_l.
Qed.

(** The byte that [finish] makes of a value known from above, or from
    below. *)
Lemma finish_upper (z b : Q) :
  z <= b -> 0 <= b -> Zq (finish z) <= 255 * b + 256 * eps.
Proof.
  intros Hz Hb. unfold finish, to_byte.
  destruct (clip_bounds z 0 1) as [C0 C1]; [discriminate |].
  pose proof (clip_unit_le z b Hz Hb) as Cb.
  set (c := clip z 0 1) in *. clearbody c.
  assert (Hq : 0 <= c * 255) by lra.
  pose proof (B32_close _ Hq) as [_ Hhi].
  assert (Hx : 0 <= B32 (c * 255)) by (apply (round_nonneg 24 (-149)); exact Hq).
  rewrite trunc_nonneg by exact Hx.
  pose proof (Qfloor_le (B32 (c * 255))) as Hfl.
  unfold Zq. set (out := inject_Z (Qfloor (B32 (c * 255)))) in *.
  set (r := B32 (c * 255)) in *. clearbody out r.
  unfold eps in *. lra.
Qed.

Lemma finish_lower (z b : Q) :
  b <= z -> b <= 1 -> 255 * b - 256 * eps - 1 < Zq (finish z).
Proof.
  intros Hz Hb. unfold finish, to_byte.
  destruct (clip_bounds z 0 1) as [C0 C1]; [discriminate |].
  pose proof (clip_unit_ge z b Hz Hb) as Cb.
  set (c := clip z 0 1) in *. clearbody c.
  assert (Hq : 0 <= c * 255) by lra.
  pose proof (B32_close _ Hq) as [Hlo _].
  assert (Hx : 0 <= B32 (c * 255)) by (apply (round_nonneg 24 (-149)); exact Hq).
  rewrite trunc_nonneg by exact Hx.
  pose proof (Qlt_floor (B32 (c * 255))) as Hfl.
  rewrite inject_Z_plus in Hfl. change (inject_Z 1) with 1 in Hfl.
  unfold Zq. set (out := inject_Z (Qfloor (B32 (c * 255)))) in *.
  set (r := B32 (c * 255)) in *. clearbody out r.
  unfold eps in *. lra.
Qed.

(** A byte on its way to the unit interval. *)
Lemma to_unit_near (v : Z) :
  displayable v ->
  0 <= Zq v / 255 <= 1
  /\ Zq v / 255 - 2 * eps <= to_unit v <= Zq v / 255 + 2 * eps
  /\ 0 <= to_unit v <= 1.
Proof.
  intro Hv.
  assert (Ha : 0 <= Zq v / 255 <= 1).
  { destruct Hv as [H0 H1]. unfold Zq.
    assert (A : inject_Z 0 <= inject_Z v) by (rewrite <- Zle_Qle; exact H0).
    assert (B : inject_Z v <= inject_Z 255) by (rewrite <- Zle_Qle; exact H1).
    change (inject_Z 0) with 0 in A. change (inject_Z 255) with 255 in B.
    split.
    - apply Qle_shift_div_l; [reflexivity | lra].
    - apply Qle_shift_div_r; [reflexivity | lra]. }
  split; [exact Ha |]. split; [| apply to_unit_unit; exact Hv].
  unfold to_unit. apply (B32_near _ 1). lra.
Qed.

(** [random.random()] lies in [0, 1). *)
Lemma random_inv (s s' : Rng) (u : Q) :
  random s = Ok (u, s') -> 0 <= u < 1 /\ s' = advance s.
Proof.
  unfold random, bind, draw, ret. intro H. inversion H. subst. clear H.
  split; [| reflexivity].
  pose proof (random_bits_bounds (tape s (pos s))) as [H0 H1].
  split.
  - apply Qle_shift_div_l; [reflexivity |]. rewrite Qmult_0_l.
    change 0 with (inject_Z 0). rewrite <- Zle_Qle. exact H0.
  - apply Qlt_shift_div_r; [reflexivity |]. rewrite Qmult_1_l.
    rewrite <- Zlt_Qlt. exact H1.
Qed.

Lemma uniform_inv (a b v : Q) (s s' : Rng) :
  uniform a b s = Ok (v, s') ->
  exists u, 0 <= u < 1 /\ v = B64 (a + B64 (B64 (b - a) * u)) /\ s' = advance s.
Proof.
  unfold uniform. intro H. apply bind_ok in H. destruct H as [u [s1 [Hu H]]].
  apply ret_ok in H. destruct H as [-> ->].
  apply random_inv in Hu. destruct Hu as [Hu ->].
  exists u. split; [exact Hu | split; reflexivity].
Qed.

(** Where a draw of [random.uniform(a, b)] can fall, for bounds of
    magnitude at most two. *)
Lemma uniform_window (a b v : Q) (s s' : Rng) :
  a <= b -> - 2 <= a -> b <= 2 -> b - a <= 2 ->
  uniform a b s = Ok (v, s') ->
  a - 4 * eps <= v <= b + 11 * eps.
Proof.
  intros Hab Ha Hb Hd H. apply uniform_inv in H.
  destruct H as [u [[U0 U1] [-> _]]].
  pose proof (B64_near (b - a) 2 ltac:(lra)) as [D1 D2].
  assert (D0 : 0 <= B64 (b - a)) by (apply (round_nonneg 53 (-1074)); lra).
  set (D := B64 (b - a)) in *. clearbody D.
  assert (HP : 0 <= D * u <= D) by (unfold eps in *; nra).
  assert (HD3 : D <= 3) by (unfold eps in *; lra).
  pose proof (B64_near (D * u) 3 ltac:(lra)) as [P1 P2].
  assert (P0 : 0 <= B64 (D * u)) by (apply (round_nonneg 53 (-1074)); lra).
  set (P := B64 (D * u)) in *. set (Du := D * u) in *. clearbody P Du.
  pose proof (B64_near (a + P) 3 ltac:(unfold eps in *; lra)) as [T1 T2].
  set (t := B64 (a + P)) in *. clearbody t.
  unfold eps in *. split; lra.
Qed.

Lemma uniform_nonneg (a b v : Q) (s s' : Rng) :
  0 <= a <= b -> uniform a b s = Ok (v, s') -> 0 <= v.
Proof.
  intros [Ha Hab] H. apply uniform_inv in H.
  destruct H as [u [[U0 U1] [-> _]]].
  apply (round_nonneg 53 (-1074)).
  assert (D0 : 0 <= B64 (b - a)) by (apply (round_nonneg 53 (-1074)); lra).
  assert (P0 : 0 <= B64 (B64 (b - a) * u)) by (apply (round_nonneg 53 (-1074)); nra).
  lra.
Qed.

(** Between equal bounds the draw does not matter. *)
Lemma uniform_point (a b c v : Q) (s s' : Rng) :
  a == c -> b == c -> uniform a b s = Ok (v, s') -> v = B64 c.
Proof.
  intros Ea Eb H. apply uniform_inv in H.
  destruct H as [u [_ [-> _]]].
  rewrite (B64_zero (b - a)) by (rewrite Ea, Eb; ring).
  rewrite (B64_zero (0 * u)) by ring.
  apply B64_eq_of_Qeq. rewrite Ea. ring.
Qed.

End Windows.

Lemma repeatM_Forall {A} (P : A -> Prop) (c : M A) :
  (forall s a s', c s = Ok (a, s') -> P a) ->
  forall n s l s', repeatM n c s = Ok (l, s') -> Forall P l.
Proof.
  intros Hc n. induction n as [| n IH]; intros s l s' H; cbn [repeatM] in H.
  - apply ret_ok in H. destruct H as [-> _]. constructor.
  - apply bind_ok in H. destruct H as [a [s1 [Ea H]]].
    apply bind_ok in H. destruct H as [xs [s2 [Exs H]]].
    apply ret_ok in H. destruct H as [-> _].
    constructor; [eapply Hc; exact Ea | eapply IH; exact Exs].
Qed.

Lemma get_Forall {A} (P : A -> Prop) (d : A) (g : grid A) (x y : Z) :
  P d -> Forall (Forall P) g -> P (get d g x y).
Proof.
  intros Hd Hg. unfold get.
  destruct ((0 <=? x) && (0 <=? y)); [| exact Hd].
  destruct (nth_in_or_default (Z.to_nat y) g []) as [Hin | E].
  - rewrite Forall_forall in Hg. specialize (Hg _ Hin).
    destruct (nth_in_or_default (Z.to_nat x) (nth (Z.to_nat y) g []) d) as [Hin' | E'].
    + rewrite Forall_forall in Hg. apply Hg. exact Hin'.
    + rewrite E'. exact Hd.
  - rewrite E. destruct (Z.to_nat x); exact Hd.
Qed.

Section NoiseAnyFrame.
Import IEEE.
Local Open Scope Q_scope.

(** The noise of a frame: every sample has the property every draw has. *)
Lemma add_noise_inv (P : Q -> Prop) (img out : Image) (strength : Q) (s s' : Rng) :
  (forall t v t', uniform (- strength) strength t = Ok (v, t') -> P v) ->
  P 0 ->
  add_noise img strength s = Ok (out, s') ->
  forall x y, (0 <= x < width img)%Z -> (0 <= y < height img)%Z ->
  exists nr ng nb,
    P nr /\ P ng /\ P nb
    /\ getpixel out x y
       = (finish (B32 (to_unit (red (getpixel img x y)) + B32 nr)),
          finish (B32 (to_unit (green (getpixel img x y)) + B32 ng)),
          finish (B32 (to_unit (blue (getpixel img x y)) + B32 nb))).
Proof.
  intros HP H0 H x y Hx Hy. unfold add_noise in H.
  apply bind_ok in H. destruct H as [noise [s1 [En H]]].
  apply ret_ok in H. destruct H as [-> _].
  assert (Hall : Forall (Forall (fun t : Q * Q * Q =>
                   P (fst (fst t)) /\ P (snd (fst t)) /\ P (snd t))) noise).
  { revert En. apply repeatM_Forall. intros t row t'.
    apply repeatM_Forall. intros t1 a t1' Ha. unfold noise_px in Ha.
    apply bind_ok in Ha. destruct Ha as [r [u1 [Er Ha]]].
    apply bind_ok in Ha. destruct Ha as [g [u2 [Eg Ha]]].
    apply bind_ok in Ha. destruct Ha as [b [u3 [Eb Ha]]].
    apply ret_ok in Ha. destruct Ha as [-> _]. cbn [fst snd].
    split; [eapply HP; exact Er | split; [eapply HP; exact Eg | eapply HP; exact Eb]]. }
  pose proof (get_Forall _ (0, 0, 0) noise x y (conj H0 (conj H0 H0)) Hall) as Hn.
  unfold getpixel at 1. rewrite (get_build black) by assumption.
  destruct (get (0, 0, 0) noise x y) as [[nr ng] nb]. cbn [fst snd] in Hn.
  exists nr, ng, nb. destruct Hn as [A [B C]].
  split; [exact A | split; [exact B | split; [exact C | reflexivity]]].
Qed.

Lemma noisy_channel_window (v : Z) (n strength : Q) :
  displayable v -> 0 <= strength <= 1 ->
  - strength - 4 * eps <= n <= strength + 11 * eps ->
  Zq v - 255 * strength - 1 - (1 # 1000)
  < Zq (finish (B32 (to_unit v + B32 n)))
  <= Zq v + 255 * strength + (1 # 1000).
Proof.
  intros Hv Hs Hn.
  destruct (to_unit_near v Hv) as [Ha [Hx Hx1]].
  assert (Ev : Zq v == 255 * (Zq v / 255)) by (field; discriminate).
  set (a := Zq v / 255) in *. set (x := to_unit v) in *. clearbody a x.
  pose proof (B32_near n 2 ltac:(unfold eps in *; lra)) as N.
  set (n32 := B32 n) in *. clearbody n32.
  pose proof (B32_near (x + n32) 3 ltac:(unfold eps in *; lra)) as Z0.
  set (z := B32 (x + n32)) in *. clearbody z.
  pose proof (finish_upper z (a + strength + 20 * eps)
                ltac:(unfold eps in *; lra) ltac:(unfold eps in *; lra)) as Hup.
  pose proof (finish_lower z (a - strength - 13 * eps)
                ltac:(unfold eps in *; lra) ltac:(unfold eps in *; lra)) as Hlo.
  set (out := Zq (finish z)) in *. clearbody out.
  rewrite Ev. unfold eps in *. split; lra.
Qed.

(** X11.  With a strength of the unit interval [add_noise] moves every channel
    of a frame of bytes by at most [255 * strength] and the one unit of
    the cut to a whole number, up to the float rounding: the result lies
    above [v - 255 * strength - 1 - 1/1000] and at most at
    [v + 255 * strength + 1/1000], whatever the random generator
    delivers. *)
Theorem add_noise_moves_a_channel_by_at_most_the_strength (img : Image)
    (strength : Q) (s : Rng) :
  in_range img -> 0 <= strength <= 1 ->
  exists out s',
    add_noise img strength s = Ok (out, s')
    /\ forall x y, (0 <= x < width img)%Z -> (0 <= y < height img)%Z ->
         px_between (fun v => Zq v - 255 * strength - 1 - (1 # 1000))
                    (fun v => Zq v + 255 * strength + (1 # 1000))
                    (getpixel out x y) (getpixel img x y).
Proof.
  intros Himg Hs.
  destruct (total_add_noise img strength s) as [out [s' E]].
  exists out, s'. split; [exact E |]. intros x y Hx Hy.
  destruct (add_noise_inv
              (fun n => - strength - 4 * eps <= n <= strength + 11 * eps)
              img out strength s s') with (x := x) (y := y)
    as [nr [ng [nb [Hr [Hg [Hb Epx]]]]]]; try assumption.
  - intros t v t' Hu.
    apply (uniform_window (- strength) strength v t t'); try exact Hu; lra.
  - unfold eps. lra.
  - rewrite Epx.
    destruct (getpixel_displayable img x y Himg) as [Dr [Dg Db]].
    unfold px_between. cbn [red green blue fst snd].
    split; [| split]; apply noisy_channel_window; assumption.
Qed.

(** X12.  With strength 0 [add_noise] hands back every pixel of a frame of
    bytes as it was, whatever the random generator delivers. *)
Theorem add_noise_of_strength_zero_is_identity (img : Image) (strength : Q)
    (s : Rng) :
  in_range img -> strength == 0 ->
  exists out s',
    add_noise img strength s = Ok (out, s')
    /\ same_size out img
    /\ forall x y, (0 <= x < width img)%Z -> (0 <= y < height img)%Z ->
         getpixel out x y = getpixel img x y.
Proof.
  intros Himg Hs.
  destruct (total_add_noise img strength s) as [out [s' E]].
  exists out, s'. split; [exact E |].
  split; [eapply add_noise_same_size; exact E |].
  intros x y Hx Hy.
  destruct (add_noise_inv (fun n => n = 0) img out strength s s')
    with (x := x) (y := y) as [nr [ng [nb [Hr [Hg [Hb Epx]]]]]]; try assumption.
  - intros t v t' Hu.
    apply (uniform_point (- strength) strength 0) in Hu;
      [exact Hu | rewrite Hs; reflexivity | exact Hs].
  - reflexivity.
  - rewrite Epx, Hr, Hg, Hb. rewrite B32_0.
    destruct (getpixel_displayable img x y Himg) as [Dr [Dg Db]].
    assert (Hid : forall v, displayable v -> finish (B32 (to_unit v + 0)) = v).
    { intros v Hv. rewrite <- (byte_roundtrip v Hv) at 2.
      f_equal. apply B32_eq_of_Qeq. ring. }
    rewrite !Hid by assumption.
    destruct (getpixel img x y) as [[r g] b]. reflexivity.
Qed.

End NoiseAnyFrame.

Lemma add_noise_moves_a_channel_by_at_most_the_strength_witness :
  exists out s',
    add_noise [[(10, 20, 30); (200, 100, 0)]; [(0, 255, 7); (9, 9, 9)]]
      NOISE_STRENGTH (mkRng (fun k => Z.of_nat k * 1234567890123) 0) = Ok (out, s')
    /\ px_between (fun v => (Zq v - 255 * NOISE_STRENGTH - 1 - (1 # 1000))%Q)
                  (fun v => (Zq v + 255 * NOISE_STRENGTH + (1 # 1000))%Q)
                  (getpixel out 1 0) (200, 100, 0).
Proof.
  destruct (add_noise_moves_a_channel_by_at_most_the_strength
              [[(10, 20, 30); (200, 100, 0)]; [(0, 255, 7); (9, 9, 9)]]
              NOISE_STRENGTH (mkRng (fun k => Z.of_nat k * 1234567890123) 0)
              sample_frame_in_range) as [out [s' [E H]]].
  - split; vm_compute; discriminate.
  - exists out, s'. split; [exact E |].
    apply (H 1 0); [unfold width | unfold height]; simpl length; lia.
Defined.

Lemma add_noise_of_strength_zero_is_identity_witness :
  exists out s',
    add_noise [[(10, 20, 30); (200, 100, 0)]; [(0, 255, 7); (9, 9, 9)]]
      0 (mkRng (fun k => Z.of_nat k * 1234567890123) 0) = Ok (out, s')
    /\ getpixel out 1 0 = (200, 100, 0).
Proof.
  destruct (add_noise_of_strength_zero_is_identity
              [[(10, 20, 30); (200, 100, 0)]; [(0, 255, 7); (9, 9, 9)]]
              0 (mkRng (fun k => Z.of_nat k * 1234567890123) 0)
              sample_frame_in_range) as [out [s' [E [_ H]]]].
  - reflexivity.
  - exists out, s'. split; [exact E |].
    apply (H 1 0); [unfold width | unfold height]; simpl length; lia.
Defined.

Section FlickerAnyFrame.
Import IEEE.
Local Open Scope Q_scope.

Lemma flicker_inv (img out : Image) (low high : Q) (s s' : Rng) :
  flicker img low high s = Ok (out, s') ->
  exists factor,
    uniform low high s = Ok (factor, s')
    /\ forall x y, (0 <= x < width img)%Z -> (0 <= y < height img)%Z ->
         getpixel out x y
         = map_px (fun v => finish (B32 (to_unit v * B32 factor))) (getpixel img x y).
Proof.
  unfold flicker. intro H. apply bind_ok in H.
  destruct H as [factor [s1 [Eu H]]]. apply ret_ok in H. destruct H as [-> ->].
  exists factor. split; [exact Eu |]. intros x y Hx Hy.
  unfold getpixel at 1. rewrite (get_build black) by assumption. reflexivity.
Qed.

Lemma flickered_channel_window (v : Z) (f low high : Q) :
  displayable v -> 0 <= low <= 1 -> low <= high <= 2 ->
  0 <= f -> low - 4 * eps <= f <= high + 11 * eps ->
  low * Zq v - 1 - (1 # 1000)
  < Zq (finish (B32 (to_unit v * B32 f)))
  <= high * Zq v + (1 # 1000).
Proof.
  intros Hv Hl Hh Hf0 Hf.
  destruct (to_unit_near v Hv) as [Ha [Hx Hx1]].
  assert (Ev : Zq v == 255 * (Zq v / 255)) by (field; discriminate).
  set (a := Zq v / 255) in *. set (x := to_unit v) in *. clearbody a x.
  pose proof (B32_near f 3 ltac:(unfold eps in *; lra)) as F.
  assert (F0 : 0 <= B32 f) by (apply (round_nonneg 24 (-149)); exact Hf0).
  set (g := B32 f) in *. clearbody g.
  assert (Hup : x * g <= a * high + 20 * eps).
  { assert (U1 : x * g <= x * (high + 15 * eps)) by (unfold eps in *; nra).
    assert (U2 : x * (high + 15 * eps) <= (a + 2 * eps) * (high + 15 * eps))
      by (unfold eps in *; nra).
    assert (U3 : (a + 2 * eps) * (high + 15 * eps)
                 == a * high + 15 * eps * a + 2 * eps * high + 30 * eps * eps) by ring.
    unfold eps in *. lra. }
  assert (Hlo : a * low - 12 * eps <= x * g).
  { assert (L1 : - (8 * eps) <= x * (g - low)) by (unfold eps in *; nra).
    assert (L2 : - (4 * eps) <= low * (x - a)) by (unfold eps in *; nra).
    assert (L3 : x * g - a * low == x * (g - low) + low * (x - a)) by ring.
    unfold eps in *. lra. }
  assert (Hpos : 0 <= x * g <= 3) by (unfold eps in *; nra).
  assert (Hal : a * low <= 1) by nra.
  assert (Hah : 0 <= a * high) by nra.
  set (T := a * low) in *. set (S := a * high) in *.
  pose proof (B32_near (x * g) 3 ltac:(lra)) as Z0.
  set (z := B32 (x * g)) in *. set (xg := x * g) in *. clearbody z xg.
  pose proof (finish_upper z (S + 24 * eps)
                ltac:(unfold eps in *; lra) ltac:(unfold eps in *; lra)) as Fup.
  pose proof (finish_lower z (T - 16 * eps)
                ltac:(unfold eps in *; lra) ltac:(unfold eps in *; lra)) as Flo.
  set (out := Zq (finish z)) in *. clearbody out.
  assert (ET : low * Zq v == 255 * T) by (unfold T; rewrite Ev at 1; ring).
  assert (ES : high * Zq v == 255 * S) by (unfold S; rewrite Ev at 1; ring).
  rewrite ET, ES. clearbody T S.
  unfold eps in *. split; lra.
Qed.

(** X13.  With bounds [0 <= low <= 1] and [low <= high <= 2], as configured,
    [flicker] scales every channel [v] of a frame of bytes by a factor
    between the bounds: the result lies above [low * v - 1 - 1/1000] and
    at most at [high * v + 1/1000], the one unit being the cut to a
    whole number, whatever the random generator delivers. *)
Theorem flicker_scales_a_channel_between_the_bounds (img : Image)
    (low high : Q) (s : Rng) :
  in_range img -> 0 <= low <= 1 -> low <= high <= 2 ->
  exists out s',
    flicker img low high s = Ok (out, s')
    /\ forall x y, (0 <= x < width img)%Z -> (0 <= y < height img)%Z ->
         px_between (fun v => low * Zq v - 1 - (1 # 1000))
                    (fun v => high * Zq v + (1 # 1000))
                    (getpixel out x y) (getpixel img x y).
Proof.
  intros Himg Hl Hh.
  destruct (total_flicker img low high s) as [out [s' E]].
  exists out, s'. split; [exact E |]. intros x y Hx Hy.
  destruct (flicker_inv img out low high s s' E) as [f [Eu Hpx]].
  rewrite (Hpx x y Hx Hy).
  pose proof (uniform_nonneg low high f s s' ltac:(lra) Eu) as Hf0.
  pose proof (uniform_window low high f s s' ltac:(lra) ltac:(lra) ltac:(lra)
                ltac:(lra) Eu) as Hf.
  destruct (getpixel_displayable img x y Himg) as [Dr [Dg Db]].
  unfold px_between, map_px. cbn [red green blue fst snd].
  split; [| split]; apply flickered_channel_window; assumption.
Qed.

(** X14.  [flicker] puts every channel of every pixel through one and the same
    tone curve: the curve keeps 0 at 0 and never reverses the order of
    two values, for bounds [0 <= low <= high] and whatever the random
    generator delivers. *)
Theorem flicker_applies_one_monotone_curve (img : Image) (low high : Q)
    (s : Rng) :
  0 <= low <= high ->
  exists out s' (curve : Z -> Z),
    flicker img low high s = Ok (out, s')
    /\ (forall x y, (0 <= x < width img)%Z -> (0 <= y < height img)%Z ->
          getpixel out x y = map_px curve (getpixel img x y))
    /\ curve 0%Z = 0%Z
    /\ (forall u v, (u <= v)%Z -> (curve u <= curve v)%Z).
Proof.
  intro Hb.
  destruct (total_flicker img low high s) as [out [s' E]].
  destruct (flicker_inv img out low high s s' E) as [f [Eu Hpx]].
  exists out, s', (fun v => finish (B32 (to_unit v * B32 f))).
  split; [exact E |]. split; [exact Hpx |].
  pose proof (uniform_nonneg low high f s s' Hb Eu) as Hf0.
  assert (F0 : 0 <= B32 f) by (apply (round_nonneg 24 (-149)); exact Hf0).
  split.
  - apply finish_nonpos. apply (round_nonpos 24 (-149)).
    change (to_unit 0) with 0. lra.
  - intros u v Huv. apply finish_mono, B32_mono.
    pose proof (to_unit_mono u v Huv). nra.
Qed.

(** X15.  Between the bounds [low = high = 1] [flicker] hands back every pixel
    of a frame of bytes as it was. *)
Theorem flicker_between_ones_is_identity (img : Image) (low high : Q) (s : Rng) :
  in_range img -> low == 1 -> high == 1 ->
  exists out s',
    flicker img low high s = Ok (out, s')
    /\ same_size out img
    /\ forall x y, (0 <= x < width img)%Z -> (0 <= y < height img)%Z ->
         getpixel out x y = getpixel img x y.
Proof.
  intros Himg Hl Hh.
  destruct (total_flicker img low high s) as [out [s' E]].
  exists out, s'. split; [exact E |].
  split; [eapply flicker_same_size; exact E |].
  intros x y Hx Hy.
  destruct (flicker_inv img out low high s s' E) as [f [Eu Hpx]].
  rewrite (Hpx x y Hx Hy).
  apply (uniform_point low high 1) in Eu; [| exact Hl | exact Hh].
  rewrite Eu, B64_1, B32_1.
  apply map_px_id; [apply getpixel_displayable; exact Himg |].
  intros v Hv. apply byte_roundtrip. exact Hv.
Qed.

End FlickerAnyFrame.

Lemma flicker_scales_a_channel_between_the_bounds_witness :
  exists out s',
    flicker [[(10, 20, 30); (200, 100, 0)]; [(0, 255, 7); (9, 9, 9)]]
      FLICKER_MIN FLICKER_MAX (mkRng (fun _ => 2 ^ 52) 0) = Ok (out, s')
    /\ px_between (fun v => (FLICKER_MIN * Zq v - 1 - (1 # 1000))%Q)
                  (fun v => (FLICKER_MAX * Zq v + (1 # 1000))%Q)
                  (getpixel out 1 0) (200, 100, 0).
Proof.
  destruct (flicker_scales_a_channel_between_the_bounds
              [[(10, 20, 30); (200, 100, 0)]; [(0, 255, 7); (9, 9, 9)]]
              FLICKER_MIN FLICKER_MAX (mkRng (fun _ => 2 ^ 52) 0)
              sample_frame_in_range) as [out [s' [E H]]].
  - split; vm_compute; discriminate.
  - split; vm_compute; discriminate.
  - exists out, s'. split; [exact E |].
    apply (H 1 0); [unfold width | unfold height]; simpl length; lia.
Defined.

Lemma flicker_applies_one_monotone_curve_witness :
  exists out s' (curve : Z -> Z),
    flicker [[(10, 20, 30); (200, 100, 0)]; [(0, 255, 7); (9, 9, 9)]]
      FLICKER_MIN FLICKER_MAX (mkRng (fun _ => 2 ^ 52) 0) = Ok (out, s')
    /\ getpixel out 1 0 = map_px curve (200, 100, 0)
    /\ curve 100 <= curve 200.
Proof.
  destruct (flicker_applies_one_monotone_curve
              [[(10, 20, 30); (200, 100, 0)]; [(0, 255, 7); (9, 9, 9)]]
              FLICKER_MIN FLICKER_MAX (mkRng (fun _ => 2 ^ 52) 0))
    as [out [s' [curve [E [H [_ Hm]]]]]].
  - split; vm_compute; discriminate.
  - exists out, s', curve. split; [exact E |]. split.
    + apply (H 1 0); [unfold width | unfold height]; simpl length; lia.
    + apply Hm. lia.
Defined.

Lemma flicker_between_ones_is_identity_witness :
  exists out s',
    flicker [[(10, 20, 30); (200, 100, 0)]; [(0, 255, 7); (9, 9, 9)]]
      1 1 (mkRng (fun _ => 2 ^ 52) 0) = Ok (out, s')
    /\ getpixel out 1 0 = (200, 100, 0).
Proof.
  destruct (flicker_between_ones_is_identity
              [[(10, 20, 30); (200, 100, 0)]; [(0, 255, 7); (9, 9, 9)]]
              1 1 (mkRng (fun _ => 2 ^ 52) 0) sample_frame_in_range)
    as [out [s' [E [_ H]]]].
  - reflexivity.
  - reflexivity.
  - exists out, s'. split; [exact E |].
    apply (H 1 0); [unfold width | unfold height]; simpl length; lia.
Defined.

(* ================================================================== *)
(** * Further properties: the stages that move pixels *)
(* ================================================================== *)

Section WholeNumbers.
Import IEEE.
Local Open Scope Q_scope.

(** Whole numbers of fewer bits than the precision are floats. *)
Lemma round_whole (prec emin n : Z) :
  (emin <= 0)%Z -> (0 <= n < 2 ^ prec)%Z ->
  round prec emin (inject_Z n) == inject_Z n.
Proof.
  intros He [H0 H1].
  destruct (Z.eq_dec n 0) as [-> | Hn]; [reflexivity |].
  assert (Hprec : (0 <= prec)%Z).
  { destruct (Z_lt_le_dec prec 0) as [L | G]; [| exact G].
    rewrite Z.pow_neg_r in H1 by exact L. lia. }
  assert (Hq : 0 < inject_Z n).
  { change 0 with (inject_Z 0). rewrite <- Zlt_Qlt. lia. }
  destruct (ilog2_spec _ Hq) as [Hlo _].
  assert (Hlt : inject_Z n < pow2 prec).
  { rewrite pow2_nonneg_Z by exact Hprec. rewrite <- Zlt_Qlt. exact H1. }
  assert (Hl : (ilog2 (inject_Z n) < prec)%Z).
  { apply pow2_lt_inv. apply Qle_lt_trans with (1 := Hlo). exact Hlt. }
  set (ex := ulp_exp prec emin (inject_Z n)).
  assert (Hex : (ex <= 0)%Z) by (unfold ex, ulp_exp; lia).
  apply (round_on_grid prec emin _ (n * 2 ^ (0 - ex))); [exact Hq |].
  fold ex. rewrite inject_Z_mult.
  rewrite <- Qmult_assoc. rewrite <- (pow2_on_grid 0 ex Hex).
  change (pow2 0) with 1. ring.
Qed.

Lemma rne_whole (q : Q) (n : Z) : q == inject_Z n -> rne q = n.
Proof.
  intro E. apply Z.le_antisymm.
  - apply rne_le_int. rewrite E. apply Qle_refl.
  - apply rne_ge_int. rewrite E. apply Qle_refl.
Qed.

Lemma nearest_whole (src : Q) (n c : Z) :
  (0 <= c < n)%Z -> src == Zq c -> nearest src n = c.
Proof.
  intros Hc E. unfold nearest. rewrite (rne_whole src c E).
  assert (H0 : 0 <= Zq c) by (unfold Zq; change 0 with (inject_Z 0); rewrite <- Zle_Qle; lia).
  assert (H1 : Zq c <= Zq (n - 1)) by (unfold Zq; rewrite <- Zle_Qle; lia).
  assert (Ec : clip (Zq c) 0 (Zq (n - 1)) == Zq c) by (apply clip_id; split; assumption).
  assert (Hn : 0 <= clip (Zq c) 0 (Zq (n - 1))) by (rewrite Ec; exact H0).
  rewrite trunc_nonneg by exact Hn.
  apply Z.le_antisymm.
  - apply Z.le_trans with (Qfloor (Zq c)); [| unfold Zq; rewrite Qfloor_Z; lia].
    apply Qfloor_resp_le. rewrite Ec. apply Qle_refl.
  - apply Z.le_trans with (Qfloor (Zq c)); [unfold Zq; rewrite Qfloor_Z; lia |].
    apply Qfloor_resp_le. rewrite Ec. apply Qle_refl.
Qed.

(** On an axis of odd extent the middle coordinate is its own source,
    whatever the other axis contributes to the correction factor. *)
Lemma centre_is_its_own_source (n : Z) (factor : Q) :
  (2 <= n < 2 ^ 24)%Z -> Z.odd n = true ->
  let c := B64 (Zq (n - 1) / 2) in
  let x := B64 (B64 (Zq (n / 2) - c) / c) in
  x = 0
  /\ nearest (B32 (B64 (B64 (B64 (x / factor) * c) + c))) n = (n / 2)%Z.
Proof.
  intros Hn Hodd c x.
  assert (Em : (n - 1 = 2 * (n / 2))%Z).
  { pose proof (proj1 (Z.odd_spec n) Hodd) as [m Hm].
    Z.div_mod_to_equations. lia. }
  assert (Ec : c == Zq (n / 2)).
  { unfold c. rewrite (half_exact (n - 1)) by lia.
    rewrite Em. unfold Zq. rewrite inject_Z_mult. change (inject_Z 2) with 2. field. }
  assert (Ex : x = 0).
  { unfold x. rewrite (B64_zero (Zq (n / 2) - c)) by (rewrite Ec; ring).
    apply B64_zero. unfold Qdiv. ring. }
  split; [exact Ex |].
  rewrite Ex.
  rewrite (B64_zero (0 / factor)) by (unfold Qdiv; ring).
  rewrite (B64_zero (0 * c)) by ring.
  apply nearest_whole; [split; [apply Z.div_pos | apply Z.div_lt_upper_bound]; lia |].
  assert (Hc2 : (0 <= n / 2 < 2 ^ 24)%Z)
    by (split; [apply Z.div_pos | apply Z.div_lt_upper_bound]; lia).
  assert (E64 : B64 (0 + c) == Zq (n / 2)).
  { rewrite (B64_eq_of_Qeq (0 + c) (Zq (n / 2))) by (rewrite Ec; ring).
    apply (round_whole 53 (-1074)); lia. }
  rewrite (B32_eq_of_Qeq _ _ E64).
  apply (round_whole 24 (-149)); lia.
Qed.

End WholeNumbers.

Section BarrelAnyFrame.
Import IEEE.
Local Open Scope Q_scope.

Lemma barrel_distort_eq (img : Image) (k : Q) :
  0 < k -> (2 <= width img)%Z -> (2 <= height img)%Z ->
  barrel_distort img k
  = Ok (build (width img) (height img) (fun xs ys =>
          getpixel img (barrel_source_x (width img) (height img) k xs ys)
                       (barrel_source_y (width img) (height img) k xs ys))).
Proof.
  intros Hk Hw Hh. unfold barrel_distort, barrel_source_x, barrel_source_y.
  replace (Qle_bool k 0) with false.
  2: { symmetry. destruct (Qle_bool k 0) eqn:E; [| reflexivity].
       apply Qle_bool_iff in E. lra. }
  rewrite (half_extent_nonzero _ Hw), (half_extent_nonzero _ Hh). cbn [orb].
  apply build_checked_ok. intros x y Hx Hy.
  rewrite np_index_ok by (apply nearest_bounds; lia). cbn [rbind].
  rewrite np_index_ok by (apply nearest_bounds; lia). cbn [rbind].
  reflexivity.
Qed.


(** X17.  [barrel_distort] does not move the middle of a frame: on a frame of
    odd width every pixel of the middle column is taken from the middle
    column, on a frame of odd height every pixel of the middle row from
    the middle row, and with both odd the pixel at the centre is the
    input's own. *)
Theorem barrel_distort_keeps_the_middle (img : Image) (k : Q) :
  0 < k ->
  (2 <= width img < 2 ^ 24)%Z -> (2 <= height img < 2 ^ 24)%Z ->
  exists out,
    barrel_distort img k = Ok out
    /\ (Z.odd (width img) = true ->
        forall y, (0 <= y < height img)%Z ->
        exists yi, (0 <= yi < height img)%Z
          /\ getpixel out (width img / 2) y = getpixel img (width img / 2) yi)
    /\ (Z.odd (height img) = true ->
        forall x, (0 <= x < width img)%Z ->
        exists xi, (0 <= xi < width img)%Z
          /\ getpixel out x (height img / 2) = getpixel img xi (height img / 2))
    /\ (Z.odd (width img) = true -> Z.odd (height img) = true ->
        getpixel out (width img / 2) (height img / 2)
        = getpixel img (width img / 2) (height img / 2)).
Proof.
  intros Hk Hw Hh.
  eexists. split; [apply barrel_distort_eq; [exact Hk | lia | lia] |].
  assert (Hmx : (0 <= width img / 2 < width img)%Z)
    by (split; [apply Z.div_pos | apply Z.div_lt_upper_bound]; lia).
  assert (Hmy : (0 <= height img / 2 < height img)%Z)
    by (split; [apply Z.div_pos | apply Z.div_lt_upper_bound]; lia).
  assert (Hx : Z.odd (width img) = true -> forall y,
            barrel_source_x (width img) (height img) k (width img / 2) y
            = (width img / 2)%Z).
  { intros Ho y. unfold barrel_source_x. cbv zeta.
    match goal with
    | |- context [B64 (?a / ?f) * _] =>
        match a with
        | B64 (B64 _ / _) =>
            destruct (centre_is_its_own_source (width img) f Hw Ho) as [_ E]
        end
    end.
    exact E. }
  assert (Hy : Z.odd (height img) = true -> forall x,
            barrel_source_y (width img) (height img) k x (height img / 2)
            = (height img / 2)%Z).
  { intros Ho x. unfold barrel_source_y. cbv zeta.
    match goal with
    | |- context [B64 (?a / ?f) * _] =>
        match a with
        | B64 (B64 _ / _) =>
            destruct (centre_is_its_own_source (height img) f Hh Ho) as [_ E]
        end
    end.
    exact E. }
  split; [| split].
  - intros Ho y Hy0. unfold getpixel at 1.
    rewrite (get_build black) by assumption.
    rewrite (Hx Ho y). eexists. split; [| reflexivity].
    unfold barrel_source_y. apply nearest_bounds. lia.
  - intros Ho x Hx0. unfold getpixel at 1.
    rewrite (get_build black) by assumption.
    rewrite (Hy Ho x). eexists. split; [| reflexivity].
    unfold barrel_source_x. apply nearest_bounds. lia.
  - intros Hox Hoy. unfold getpixel at 1.
    rewrite (get_build black) by assumption.
    rewrite (Hx Hox), (Hy Hoy). reflexivity.
Qed.

End BarrelAnyFrame.

Lemma sample_frame3_in_range :
  in_range [[(1, 2, 3); (4, 5, 6); (7, 8, 9)];
            [(10, 20, 30); (40, 50, 60); (70, 80, 90)];
            [(11, 12, 13); (14, 15, 16); (17, 18, 19)]].
Proof. repeat constructor; unfold displayable; cbn [red green blue fst snd]; lia. Qed.


Lemma barrel_distort_keeps_the_middle_witness :
  exists out,
    barrel_distort [[(1, 2, 3); (4, 5, 6); (7, 8, 9)];
                    [(10, 20, 30); (40, 50, 60); (70, 80, 90)];
                    [(11, 12, 13); (14, 15, 16); (17, 18, 19)]]
      CURVATURE_K = Ok out
    /\ getpixel out 1 1 = (40, 50, 60).
Proof.
  destruct (barrel_distort_keeps_the_middle
              [[(1, 2, 3); (4, 5, 6); (7, 8, 9)];
               [(10, 20, 30); (40, 50, 60); (70, 80, 90)];
               [(11, 12, 13); (14, 15, 16); (17, 18, 19)]]
              CURVATURE_K) as [out [E [_ [_ H]]]].
  - vm_compute. reflexivity.
  - unfold width; simpl length; lia.
  - unfold height; simpl length; lia.
  - exists out. split; [exact E |]. apply (H eq_refl eq_refl).
Defined.

Section ChromaAnyFrame.

Lemma getpixel_chroma_shift (img : Image) (shift_px c y : Z) :
  1 <= shift_px -> 0 <= c < width img -> 0 <= y < height img ->
  getpixel (chroma_shift img shift_px) c y
  = (red (getpixel img ((c + shift_px) mod width img) y),
     green (getpixel img c y),
     blue (getpixel img ((c - shift_px) mod width img) y)).
Proof.
  intros Hs Hc Hy. unfold chroma_shift.
  replace (shift_px <=? 0) with false by (symmetry; apply Z.leb_gt; lia).
  unfold split, merge, getpixel.
  destruct (offset_same_size 0 (map (map red) img) (- shift_px) 0) as [Ew Eh].
  destruct (map_map_same_size red img) as [Ew1 Eh1].
  destruct (map_map_same_size blue img) as [Ew2 Eh2].
  rewrite (get_build black) by (rewrite ?Ew, ?Eh, ?Ew1, ?Eh1; assumption).
  rewrite !get_offset by (rewrite ?Ew1, ?Eh1, ?Ew2, ?Eh2; assumption).
  rewrite Ew1, Eh1, Ew2, Eh2.
  rewrite !get_band by reflexivity.
  replace (c - - shift_px) with (c + shift_px) by ring.
  replace (y - 0) with y by ring.
  rewrite (Z.mod_small y (height img)) by assumption.
  reflexivity.
Qed.

(** X18.  Two chroma shifts in a row are the chroma shift by the sum of the
    two: the red and the blue channel wrap around the frame as often as
    it takes. *)
Theorem chroma_shift_composes (img : Image) (a b c y : Z) :
  1 <= a -> 1 <= b -> 0 <= c < width img -> 0 <= y < height img ->
  getpixel (chroma_shift (chroma_shift img a) b) c y
  = getpixel (chroma_shift img (a + b)) c y.
Proof.
  intros Ha Hb Hc Hy.
  destruct (chroma_shift_same_size img a) as [Ew Eh].
  assert (Hw : 0 < width img) by lia.
  rewrite (getpixel_chroma_shift (chroma_shift img a) b c y)
    by (rewrite ?Ew, ?Eh; assumption).
  rewrite Ew.
  rewrite !(getpixel_chroma_shift img a)
    by (try assumption; apply Z.mod_pos_bound; exact Hw).
  rewrite (getpixel_chroma_shift img (a + b)) by (try assumption; lia).
  cbn [red green blue fst snd].
  rewrite Z.add_mod_idemp_l by lia.
  rewrite Zminus_mod_idemp_l.
  f_equal; [f_equal |]; f_equal; f_equal; f_equal; ring.
Qed.

Lemma chroma_shift_composes_witness :
  getpixel (chroma_shift (chroma_shift [[(1, 2, 3); (4, 5, 6); (7, 8, 9)]] 1) 1) 2 0
  = getpixel (chroma_shift [[(1, 2, 3); (4, 5, 6); (7, 8, 9)]] (1 + 1)) 2 0.
Proof.
  apply (chroma_shift_composes [[(1, 2, 3); (4, 5, 6); (7, 8, 9)]] 1 1 2 0);
    unfold width, height; simpl length; lia.
Defined.

(** X19.  A chroma shift by a whole number of frame widths moves nothing:
    every pixel comes back as it was. *)
Theorem chroma_shift_by_full_widths_is_identity (img : Image) (n c y : Z) :
  1 <= n -> 0 <= c < width img -> 0 <= y < height img ->
  getpixel (chroma_shift img (n * width img)) c y = getpixel img c y.
Proof.
  intros Hn Hc Hy.
  assert (Hw : 0 < width img) by lia.
  rewrite getpixel_chroma_shift by (try assumption; nia).
  replace (c - n * width img) with (c + (- n) * width img) by ring.
  rewrite !Z.mod_add by lia.
  rewrite Z.mod_small by assumption.
  destruct (getpixel img c y) as [[r g] b]. reflexivity.
Qed.

Lemma chroma_shift_by_full_widths_is_identity_witness :
  getpixel (chroma_shift [[(1, 2, 3); (4, 5, 6); (7, 8, 9)]]
              (2 * width [[(1, 2, 3); (4, 5, 6); (7, 8, 9)]])) 1 0
  = getpixel [[(1, 2, 3); (4, 5, 6); (7, 8, 9)]] 1 0.
Proof.
  apply (chroma_shift_by_full_widths_is_identity
           [[(1, 2, 3); (4, 5, 6); (7, 8, 9)]] 2 1 0);
    unfold width, height; simpl length; lia.
Defined.

End ChromaAnyFrame.

Section TearingAnyFrame.
Import IEEE.

Lemma rows_rotated_refl (img : Image) : rows_rotated img img.
Proof.
  split; [apply same_size_refl |]. intros y Hy. exists 0. intros x Hx.
  replace (x - 0) with x by ring. rewrite Z.mod_small by assumption. reflexivity.
Qed.

Lemma tear_band_rotates (max_shift : Z) (base out : Image) (s s' : Rng) :
  tear_band (width base) (height base) max_shift base s = Ok (out, s') ->
  rows_rotated base out.
Proof.
  intro H. split; [eapply tear_band_same_size; exact H |].
  unfold tear_band in H.
  apply bind_ok in H. destruct H as [th [s1 [Eth H]]].
  apply bind_ok in H. destruct H as [ty [s2 [Ety H]]].
  apply bind_ok in H. destruct H as [shift [s3 [_ H]]].
  apply ret_ok in H. destruct H as [-> _].
  apply randint_inv in Eth. destruct Eth as [Hth _].
  apply randint_inv in Ety. destruct Ety as [Hty _].
  set (w := width base) in *. set (h := height base) in *.
  intros y Hy.
  destruct (Z_le_gt_dec ty y) as [Hlo | Hlo];
    [destruct (Z_lt_le_dec y (ty + th)) as [Hhi | Hhi] |].
  - (* inside the band *)
    exists shift. intros x Hx.
    set (band := crop black base (0, ty, w, ty + th)).
    assert (Hbh : height band = th).
    { unfold band, crop. rewrite height_build by lia. ring. }
    assert (Hbw : width band = w).
    { unfold band, crop. rewrite width_build by lia. ring. }
    destruct (offset_same_size black band shift 0) as [Ow Oh].
    unfold getpixel at 1, paste. fold w h.
    rewrite (get_build black) by assumption.
    rewrite Ow, Oh, Hbw, Hbh.
    replace ((0 <=? x) && (x <? 0 + w) && (ty <=? y) && (y <? ty + th)) with true.
    2: { symmetry. rewrite !andb_true_iff.
         repeat split; first [apply Z.leb_le | apply Z.ltb_lt]; lia. }
    rewrite get_offset by (rewrite ?Hbw, ?Hbh; lia).
    rewrite Hbw, Hbh.
    replace (y - ty - 0) with (y - ty) by ring.
    rewrite (Z.mod_small (y - ty) th) by lia.
    unfold band, crop.
    rewrite (get_build black)
      by (try lia; replace (w - 0) with w by ring; apply Z.mod_pos_bound; lia).
    replace (x - 0 - shift) with (x - shift) by ring.
    unfold getpixel. f_equal; ring.
  - (* below the band *)
    exists 0. intros x Hx.
    unfold getpixel at 1, paste. fold w h.
    rewrite (get_build black) by assumption.
    replace ((0 <=? x) && (x <? 0 + width (offset black (crop black base (0, ty, w, ty + th)) shift 0))
             && (ty <=? y)
             && (y <? ty + height (offset black (crop black base (0, ty, w, ty + th)) shift 0)))
      with false.
    2: { symmetry. apply andb_false_iff. right. apply Z.ltb_ge.
         destruct (offset_same_size black (crop black base (0, ty, w, ty + th)) shift 0)
           as [_ Oh].
         rewrite Oh. unfold crop. rewrite height_build by lia. lia. }
    replace (x - 0) with x by ring. rewrite Z.mod_small by assumption. reflexivity.
  - (* above the band *)
    exists 0. intros x Hx.
    unfold getpixel at 1, paste. fold w h.
    rewrite (get_build black) by assumption.
    replace (ty <=? y) with false by (symmetry; apply Z.leb_gt; lia).
    rewrite andb_false_r. cbn [andb].
    replace (x - 0) with x by ring. rewrite Z.mod_small by assumption. reflexivity.
Qed.

Lemma rows_rotated_trans (a b c : Image) :
  rows_rotated a b -> rows_rotated b c -> rows_rotated a c.
Proof.
  intros [Sab Rab] [Sbc Rbc].
  split; [eapply same_size_trans; eassumption |].
  destruct Sab as [Wab Hab].
  intros y Hy.
  destruct (Rab y Hy) as [d1 R1].
  destruct (Rbc y ltac:(rewrite Hab; exact Hy)) as [d2 R2].
  exists (d1 + d2). intros x Hx.
  rewrite R2 by (rewrite Wab; exact Hx). rewrite Wab.
  rewrite R1 by (apply Z.mod_pos_bound; lia).
  rewrite Zminus_mod_idemp_l. f_equal. f_equal. ring.
Qed.

Lemma tearing_rotates (img out : Image) (max_shift : Z) (bands : Z * Z)
    (s s' : Rng) :
  tearing img max_shift bands s = Ok (out, s') -> rows_rotated img out.
Proof.
  unfold tearing. intro H.
  destruct (max_shift <=? 0).
  { apply ret_ok in H. destruct H as [-> _]. apply rows_rotated_refl. }
  apply bind_ok in H. destruct H as [n [s1 [_ H]]].
  revert H.
  apply (for_range_invariant (fun b => rows_rotated img b)); [| apply rows_rotated_refl].
  intros a b t t' Ha Hb.
  apply rows_rotated_trans with (1 := Ha).
  destruct Ha as [[Wa Ha] _].
  rewrite <- Wa, <- Ha in Hb.
  eapply tear_band_rotates. exact Hb.
Qed.


Lemma short_band_fraction (h : Z) :
  0 <= h < 6 -> Z.max 6 (trunc (B64 (Zq h * lit (6 # 100)))) = 6.
Proof.
  intro Hh.
  assert (H : forallb (fun h => Z.max 6 (trunc (B64 (Zq h * lit (6 # 100)))) =? 6)
                (tabulate 6 (fun i => i)) = true) by (vm_compute; reflexivity).
  rewrite forallb_forall in H. apply Z.eqb_eq. apply H.
  unfold tabulate. apply in_map_iff. exists (Z.to_nat h).
  split; [lia | apply in_seq; lia].
Qed.

(** X21.  The height of six rows is sharp: with a positive shift and at least
    one band, there is a run of the random generator on which [tearing]
    raises [ValueError] exactly when the frame has fewer than six rows.
    On the tape used here the first band is drawn six rows high. *)
Theorem tearing_can_raise_exactly_below_six_rows (img : Image) (max_shift : Z)
    (bands : Z * Z) :
  0 < max_shift -> 1 <= fst bands <= snd bands ->
  ((exists s, tearing img max_shift bands s = Raise ValueError)
   <-> height img < 6).
Proof.
  intros Hs Hb. split.
  - intros [s E].
    destruct (Z_lt_le_dec (height img) 6) as [L | G]; [exact L |].
    destruct (tearing_defined img max_shift bands G ltac:(lia) s) as [out [s' E']].
    rewrite E' in E. discriminate.
  - intro Hh. exists (mkRng (fun _ => 2) 0).
    unfold tearing.
    replace (max_shift <=? 0) with false by (symmetry; apply Z.leb_gt; exact Hs).
    destruct (randint_ok (fst bands) (snd bands) (mkRng (fun _ => 2) 0) ltac:(lia))
      as [n [E Hn]].
    unfold bind at 1. rewrite E.
    destruct (Z.to_nat n) as [| k] eqn:Ek; [lia |].
    cbn [for_range]. unfold bind at 1. unfold tear_band.
    rewrite (short_band_fraction (height img))
      by (split; [apply height_nonneg | exact Hh]).
    unfold bind at 1.
    change (randint 4 6 (advance (mkRng (fun _ => 2) 0)))
      with (@Ok (Z * Rng) (6, advance (advance (mkRng (fun _ => 2) 0)))).
    unfold bind at 1. rewrite randint_empty by lia. reflexivity.
Qed.

(** X22.  The range of band counts: with a positive shift, [tearing] raises
    [ValueError] when the range is empty, on any frame; and when the
    range allows no band at all it hands the frame back as it is, after
    the one draw of the count, on any frame however short. *)
Theorem tearing_at_the_ends_of_the_band_range (img : Image) (max_shift : Z)
    (bands : Z * Z) (s : Rng) :
  0 < max_shift ->
  (snd bands < fst bands -> tearing img max_shift bands s = Raise ValueError)
  /\ (fst bands <= snd bands <= 0 ->
      tearing img max_shift bands s = Ok (img, advance s)).
Proof.
  intro Hs. unfold tearing.
  replace (max_shift <=? 0) with false by (symmetry; apply Z.leb_gt; exact Hs).
  split.
  - intro Hb. unfold bind. rewrite randint_empty by exact Hb. reflexivity.
  - intro Hb.
    destruct (randint_ok (fst bands) (snd bands) s ltac:(lia)) as [n [E Hn]].
    unfold bind. rewrite E.
    replace (Z.to_nat n) with 0%nat by lia. reflexivity.
Qed.

End TearingAnyFrame.


Lemma tearing_can_raise_exactly_below_six_rows_witness :
  exists s,
    tearing (build 8 5 (fun _ _ => black)) 12 (1, 3) s = Raise ValueError.
Proof.
  apply (tearing_can_raise_exactly_below_six_rows (build 8 5 (fun _ _ => black)) 12 (1, 3)).
  - lia.
  - simpl. lia.
  - rewrite height_build; lia.
Defined.

Lemma tearing_at_the_ends_of_the_band_range_witness :
  tearing (build 8 3 (fun _ _ => black)) 12 (3, 1) (mkRng (fun _ => 0) 0)
  = Raise ValueError
  /\ tearing (build 8 3 (fun _ _ => black)) 12 (0, 0) (mkRng (fun _ => 0) 0)
     = Ok (build 8 3 (fun _ _ => black), advance (mkRng (fun _ => 0) 0)).
Proof.
  destruct (tearing_at_the_ends_of_the_band_range (build 8 3 (fun _ _ => black)) 12 (3, 1)
              (mkRng (fun _ => 0) 0)) as [H1 _]; [lia |].
  destruct (tearing_at_the_ends_of_the_band_range (build 8 3 (fun _ _ => black)) 12 (0, 0)
              (mkRng (fun _ => 0) 0)) as [_ H2]; [lia |].
  split; [apply H1; simpl; lia | apply H2; simpl; lia].
Defined.

(* ================================================================== *)
(** * Further properties: the background glow *)
(* ================================================================== *)

Section GlowAnySize.
Import IEEE.
Local Open Scope Q_scope.

Variable np_power : Q -> Q -> Q.

Lemma getpixel_crt_background (w h : Z) (tint : pixel) (strength rmax : Q)
    (x y : Z) :
  (0 < w)%Z -> (0 < h)%Z ->
  np_max (radii w h (B64 (Zq w / 2)) (B64 (Zq h / 2))) = Ok rmax ->
  (0 <= x < w)%Z -> (0 <= y < h)%Z ->
  exists img,
    crt_background np_power (w, h) tint strength = Ok img
    /\ getpixel img x y
       = map_px (fun t =>
           finish (glow_at t
             (glow_mask np_power (B64 (Zq w / 2)) (B64 (Zq h / 2)) rmax
                strength x y))) tint.
Proof.
  intros Hw Hh E Hx Hy. eexists.
  split; [apply (crt_background_eq np_power w h tint strength rmax); try lia; exact E |].
  apply (add_over_black w h
           (fun x y => map_px (fun t =>
              finish (glow_at t
                (glow_mask np_power (B64 (Zq w / 2)) (B64 (Zq h / 2)) rmax
                   strength x y))) tint)); try assumption.
  apply map_px_finish_displayable.
Qed.

(** X23.  [crt_background] raises exactly on a size without a pixel, a width
    or a height of zero or less, and then it is [ValueError]; on every
    other size it returns a frame of that size. *)
Theorem crt_background_raises_exactly_on_empty_sizes (w h : Z) (tint : pixel)
    (strength : Q) :
  (crt_background np_power (w, h) tint strength = Raise ValueError
   <-> (w <= 0 \/ h <= 0)%Z)
  /\ ((0 < w)%Z -> (0 < h)%Z ->
      exists img, crt_background np_power (w, h) tint strength = Ok img
                  /\ width img = w /\ height img = h).
Proof.
  split.
  - split.
    + intro E.
      destruct (Z_le_gt_dec w 0) as [Hw | Hw]; [left; exact Hw |].
      destruct (Z_le_gt_dec h 0) as [Hh | Hh]; [right; exact Hh |].
      destruct (crt_background_defined np_power w h tint strength) as [img [Ei _]];
        try lia.
      rewrite Ei in E. discriminate.
    + apply crt_background_empty.
  - intros Hw Hh.
    destruct (crt_background_defined np_power w h tint strength Hw Hh)
      as [img [E [Ew [Eh _]]]].
    exists img. split; [exact E | split; assumption].
Qed.

Lemma glow_at_zero_tint (mask : Q) : finish (glow_at 0 mask) = 0%Z.
Proof.
  unfold glow_at.
  rewrite (B64_zero (Zq 0 / 255)) by reflexivity.
  rewrite (B64_zero (0 * mask)) by ring.
  reflexivity.
Qed.

Lemma glow_at_zero_mask (t : Z) (mask : Q) : mask == 0 -> finish (glow_at t mask) = 0%Z.
Proof.
  intro E. unfold glow_at.
  rewrite (B64_zero (B64 (Zq t / 255) * mask)) by (rewrite E; ring).
  reflexivity.
Qed.

(** X24.  What [crt_background] leaves dark: a channel whose tint is 0 is 0 in
    every pixel, and with strength 0 every pixel is black, whatever the
    tint and the power function. *)
Theorem crt_background_dark_channels (w h : Z) (tint : pixel) (strength : Q) :
  (0 < w)%Z -> (0 < h)%Z ->
  exists img,
    crt_background np_power (w, h) tint strength = Ok img
    /\ forall x y, (0 <= x < w)%Z -> (0 <= y < h)%Z ->
         (red tint = 0%Z -> red (getpixel img x y) = 0%Z)
         /\ (green tint = 0%Z -> green (getpixel img x y) = 0%Z)
         /\ (blue tint = 0%Z -> blue (getpixel img x y) = 0%Z)
         /\ (strength == 0 -> getpixel img x y = black).
Proof.
  intros Hw Hh.
  destruct (np_max_ok _ (radii_nonempty w h (B64 (Zq w / 2)) (B64 (Zq h / 2)) Hw Hh))
    as [rmax E].
  destruct (crt_background_defined np_power w h tint strength Hw Hh) as [img [Ei _]].
  exists img. split; [exact Ei |]. intros x y Hx Hy.
  destruct (getpixel_crt_background w h tint strength rmax x y Hw Hh E Hx Hy)
    as [img' [Ei' Hpx]].
  rewrite Ei in Ei'. inversion Ei'. subst img'. rewrite Hpx.
  unfold map_px. cbn [red green blue fst snd].
  split; [| split; [| split]].
  - intros ->. apply glow_at_zero_tint.
  - intros ->. apply glow_at_zero_tint.
  - intros ->. apply glow_at_zero_tint.
  - intro Hs.
    assert (Em : glow_mask np_power (B64 (Zq w / 2)) (B64 (Zq h / 2)) rmax strength x y
                 = 0).
    { unfold glow_mask. apply B64_zero. rewrite Hs. ring. }
    rewrite Em.
    rewrite !glow_at_zero_mask by reflexivity. reflexivity.
Qed.

Lemma squared_distance_mirror (n x : Z) (c : Q) :
  2 * c == Zq n ->
  B64 (B64 (Zq (n - x) - c) * B64 (Zq (n - x) - c))
  = B64 (B64 (Zq x - c) * B64 (Zq x - c)).
Proof.
  intro Hc. apply B64_eq_of_Qeq.
  assert (E : Zq (n - x) - c == - (Zq x - c)).
  { unfold Zq in *. unfold Zminus. rewrite inject_Z_plus, inject_Z_opp. lra. }
  rewrite (B64_eq_of_Qeq _ _ E).
  unfold B64. rewrite round_opp. ring.
Qed.

Lemma radius_at_mirror (w h x y : Z) :
  (0 < w < 2 ^ 53)%Z -> (0 < h < 2 ^ 53)%Z ->
  radius_at (B64 (Zq w / 2)) (B64 (Zq h / 2)) (w - x) y
  = radius_at (B64 (Zq w / 2)) (B64 (Zq h / 2)) x y
  /\ radius_at (B64 (Zq w / 2)) (B64 (Zq h / 2)) x (h - y)
     = radius_at (B64 (Zq w / 2)) (B64 (Zq h / 2)) x y.
Proof.
  intros Hw Hh.
  assert (Ew : 2 * B64 (Zq w / 2) == Zq w) by (rewrite (half_exact w Hw); field).
  assert (Eh : 2 * B64 (Zq h / 2) == Zq h) by (rewrite (half_exact h Hh); field).
  unfold radius_at. cbv zeta.
  rewrite (squared_distance_mirror w x _ Ew).
  rewrite (squared_distance_mirror h y _ Eh).
  split; reflexivity.
Qed.

(** X25.  The glow is symmetric about the column [w / 2] and the row [h / 2]:
    the pixel at column [w - x] equals the pixel at column [x], and the
    pixel at row [h - y] the pixel at row [y].  The centre of the glow
    is [(w / 2, h / 2)], half a pixel right of and below the middle of
    the frame, so that column 0 and row 0 have no mirror image. *)
Theorem crt_background_is_mirror_symmetric (w h : Z) (tint : pixel)
    (strength : Q) :
  (0 < w < 2 ^ 53)%Z -> (0 < h < 2 ^ 53)%Z ->
  exists img,
    crt_background np_power (w, h) tint strength = Ok img
    /\ forall x y, (1 <= x < w)%Z -> (1 <= y < h)%Z ->
         getpixel img (w - x) y = getpixel img x y
         /\ getpixel img x (h - y) = getpixel img x y.
Proof.
  intros Hw Hh.
  destruct (np_max_ok _ (radii_nonempty w h (B64 (Zq w / 2)) (B64 (Zq h / 2))
              ltac:(lia) ltac:(lia))) as [rmax E].
  destruct (crt_background_defined np_power w h tint strength) as [img [Ei _]];
    try lia.
  exists img. split; [exact Ei |]. intros x y Hx Hy.
  assert (Hpx : forall a b, (0 <= a < w)%Z -> (0 <= b < h)%Z ->
            getpixel img a b
            = map_px (fun t =>
                finish (glow_at t
                  (glow_mask np_power (B64 (Zq w / 2)) (B64 (Zq h / 2)) rmax
                     strength a b))) tint).
  { intros a b Ha Hb.
    destruct (getpixel_crt_background w h tint strength rmax a b
                ltac:(lia) ltac:(lia) E Ha Hb) as [img' [Ei' H]].
    rewrite Ei in Ei'. inversion Ei'. subst img'. exact H. }
  destruct (radius_at_mirror w h x y Hw Hh) as [Rx Ry].
  rewrite !Hpx by lia.
  unfold glow_mask, normalised. rewrite Rx, Ry. split; reflexivity.
Qed.

Section Contract.
Hypothesis np_power_unit :
  forall r y, 0 <= r <= 1 -> 0 <= y -> 0 <= np_power r y <= 1.

Lemma glow_mask_at_zero_radius (cx cy rmax strength : Q) (x y : Z) :
  radius_at cx cy x y = 0 -> np_power 0 (lit (18 # 10)) == 0 ->
  glow_mask np_power cx cy rmax strength x y = B64 (1 * strength).
Proof.
  intros Hr Hp. unfold glow_mask, normalised. rewrite Hr.
  rewrite (B64_zero (0 / rmax)) by (unfold Qdiv; ring).
  rewrite (B64_eq_of_Qeq (1 - np_power 0 (lit (18 # 10))) 1) by (rewrite Hp; ring).
  rewrite B64_1. reflexivity.
Qed.

Lemma glow_at_mono (t : Z) (m1 m2 : Q) :
  displayable t -> m1 <= m2 -> (finish (glow_at t m1) <= finish (glow_at t m2))%Z.
Proof.
  intros Ht Hm. apply finish_mono. unfold glow_at.
  apply B32_mono, B64_mono.
  pose proof (tint_unit t Ht) as [H0 _]. nra.
Qed.

(** X26.  On a frame of even width and height no pixel of the glow is
    brighter, in any channel, than the pixel at the centre
    [(w / 2, h / 2)], for a strength that is not negative.  The power
    function is asked to keep the unit interval and for
    [0^1.8 = 0]. *)
Theorem crt_background_is_brightest_at_the_centre (w h : Z) (tint : pixel)
    (strength : Q) :
  np_power 0 (lit (18 # 10)) == 0 ->
  (0 < w < 2 ^ 53)%Z -> (0 < h < 2 ^ 53)%Z ->
  Z.even w = true -> Z.even h = true ->
  px_displayable tint -> 0 <= strength ->
  exists img,
    crt_background np_power (w, h) tint strength = Ok img
    /\ forall x y, (0 <= x < w)%Z -> (0 <= y < h)%Z ->
         px_le (getpixel img x y) (getpixel img (w / 2) (h / 2)).
Proof.
  intros Hp0 Hw Hh Ew Eh Htint Hs.
  set (cx := B64 (Zq w / 2)). set (cy := B64 (Zq h / 2)).
  set (rmax := radius_at cx cy 0 0).
  pose proof (rmax_is_corner w h Hw Hh) as Emax. fold cx cy rmax in Emax.
  pose proof (corner_radius_positive w h Hw) as Hpos. fold cx cy rmax in Hpos.
  assert (Hrmax : 0 < rmax) by lra.
  destruct (crt_background_defined np_power w h tint strength) as [img [Ei _]];
    try lia.
  exists img. split; [exact Ei |]. intros x y Hx Hy.
  assert (Hpx : forall a b, (0 <= a < w)%Z -> (0 <= b < h)%Z ->
            getpixel img a b
            = map_px (fun t =>
                finish (glow_at t (glow_mask np_power cx cy rmax strength a b))) tint).
  { intros a b Ha Hb.
    destruct (getpixel_crt_background w h tint strength rmax a b
                ltac:(lia) ltac:(lia) Emax Ha Hb) as [img' [Ei' H]].
    rewrite Ei in Ei'. inversion Ei'. subst img'. exact H. }
  rewrite (Hpx x y Hx Hy).
  rewrite (Hpx (w / 2)%Z (h / 2)%Z)
    by (split; [apply Z.div_pos | apply Z.div_lt_upper_bound]; lia).
  assert (Hle : radius_at cx cy x y <= rmax)
    by (apply pixel_radius_le_corner; assumption).
  assert (Hm : glow_mask np_power cx cy rmax strength x y
               <= glow_mask np_power cx cy rmax strength (w / 2) (h / 2)).
  { rewrite (glow_mask_at_zero_radius cx cy rmax strength (w / 2) (h / 2)
               (centre_radius_zero w h Hw Hh Ew Eh) Hp0).
    unfold glow_mask. apply B64_mono.
    pose proof (falloff_unit np_power np_power_unit cx cy rmax x y Hrmax Hle) as Hf.
    nra. }
  destruct Htint as [Tr [Tg Tb]].
  unfold px_le, map_px. cbn [red green blue fst snd].
  split; [| split]; apply glow_at_mono; assumption.
Qed.

End Contract.

End GlowAnySize.

Lemma crt_background_dark_channels_witness :
  exists img,
    crt_background Sample.power (4, 2) CRT_BG_TINT CRT_BG_STRENGTH = Ok img
    /\ red (getpixel img 1 1) = 0.
Proof.
  destruct (crt_background_dark_channels Sample.power 4 2 CRT_BG_TINT CRT_BG_STRENGTH)
    as [img [E H]]; [lia | lia |].
  exists img. split; [exact E |].
  destruct (H 1 1) as [Hr _]; [lia | lia |]. apply Hr. reflexivity.
Defined.

Lemma crt_background_is_mirror_symmetric_witness :
  exists img,
    crt_background Sample.power (4, 2) CRT_BG_TINT CRT_BG_STRENGTH = Ok img
    /\ getpixel img (4 - 1) 1 = getpixel img 1 1.
Proof.
  destruct (crt_background_is_mirror_symmetric Sample.power 4 2 CRT_BG_TINT
              CRT_BG_STRENGTH) as [img [E H]]; [lia | lia |].
  exists img. split; [exact E |].
  destruct (H 1 1) as [Hx _]; [lia | lia |]. exact Hx.
Defined.

Lemma crt_background_is_brightest_at_the_centre_witness :
  exists img,
    crt_background Sample.power (4, 2) CRT_BG_TINT CRT_BG_STRENGTH = Ok img
    /\ px_le (getpixel img 0 0) (getpixel img 2 1).
Proof.
  destruct (crt_background_is_brightest_at_the_centre Sample.power
              (fun r y Hr _ => SampleFacts.power_unit r y Hr)
              4 2 CRT_BG_TINT CRT_BG_STRENGTH) as [img [E H]].
  - vm_compute. reflexivity.
  - lia.
  - lia.
  - reflexivity.
  - reflexivity.
  - unfold px_displayable, displayable, CRT_BG_TINT. cbn [red green blue fst snd]. lia.
  - vm_compute. discriminate.
  - exists img. split; [exact E |]. apply (H 0 0); lia.
Defined.
